(** * LandEdgeDevtools: target discovery, path mapping and the screencast panel

    A shallow embedding of [src/utils.ts] and [src/screencastPanel.ts].

    JavaScript strings are modelled as [string], one [ascii] per UTF-16 code
    unit, so the development covers the strings whose code units are below
    256.  On that range the host primitives defined in module [JS] follow
    ECMAScript: [length] counts code units, white space and line terminators
    are the ones of the standard, and case-insensitive matching uses the
    standard's canonicalisation. *)

From Stdlib Require Import ZArith List String Ascii Bool Lia Sorted.
From Stdlib Require Import Numbers.DecimalString.
From stdpp Require Import base option list gmap strings.

Local Open Scope Z_scope.

(* ================================================================== *)
(** * Host primitives *)
(* ================================================================== *)

Module JS.

(** An Error object: its constructor name and its message. *)
Record JsError := mkJsError { name : string; message : string }.

(** [new Error(msg)] *)
Definition Error (msg : string) : JsError := mkJsError "Error" msg.
Definition TypeError (msg : string) : JsError := mkJsError "TypeError" msg.
Definition SyntaxError (msg : string) : JsError := mkJsError "SyntaxError" msg.

(** The outcome of evaluating a piece of code: a value or a thrown error. *)
Inductive Completion (A : Type) : Type :=
| Normal (a : A)
| Throw (e : JsError).
Arguments Normal {A} a.
Arguments Throw {A} e.

(** A promise, by what becomes of it: it is resolved, it is rejected, or
    it stays pending for ever. *)
Inductive Promise (A : Type) : Type :=
| Resolved (a : A)
| Rejected (e : JsError)
| Pending.
Arguments Resolved {A} a.
Arguments Rejected {A} e.
Arguments Pending {A}.

(** [await p]: the value of a resolved promise, the reason of a rejected
    one thrown; [None] when the promise stays pending, and the code after
    the [await] never runs. *)
Definition await {A} (p : Promise A) : option (Completion A) :=
  match p with
  | Resolved a => Some (Normal a)
  | Rejected e => Some (Throw e)
  | Pending => None
  end.

(** A value that [JSON.parse] returns.  A number is kept as the literal
    that denotes it. *)
#[warnings="-register-all"]
Inductive JSValue : Type :=
| JNull
| JBool (b : bool)
| JNumber (literal : string)
| JString (s : string)
| JArray (items : list JSValue)
| JObject (properties : list (string * JSValue)).

(** ** Characters *)

Definition code (c : ascii) : N := N_of_ascii c.

(** WhiteSpace and LineTerminator code points below 256: TAB, LF, VT, FF,
    CR, SP and NBSP. *)
Definition isWhiteSpace (c : ascii) : bool :=
  let n := code c in
  ((9 <=? n) && (n <=? 13) || (n =? 32) || (n =? 160))%N.

(** LineTerminator code points below 256: LF and CR. *)
Definition isLineTerminator (c : ascii) : bool :=
  let n := code c in ((n =? 10) || (n =? 13))%N.

(** Canonicalize of a code unit under the [i] flag without the [u] flag:
    the upper-case mapping when it is a single code unit, except that a
    non-ASCII character is never mapped into ASCII.  The micro sign maps to
    U+039C, y-diaeresis to U+0178, and sharp s (whose upper case is two
    characters) to itself. *)
Definition Canonicalize (c : ascii) : N :=
  let n := code c in
  (if (97 <=? n) && (n <=? 122) then n - 32
   else if n =? 181 then 924
   else if n =? 255 then 376
   else if (224 <=? n) && (n <=? 254) && negb (n =? 247) then n - 32
   else n)%N.

(** ** Strings *)

(** [strip_prefix p s] is the rest of [s] after its prefix [p], if [s]
    starts with [p]. *)
Fixpoint strip_prefix (p s : string) : option string :=
  match p, s with
  | EmptyString, _ => Some s
  | String a p', String b s' =>
      if Ascii.eqb a b then strip_prefix p' s' else None
  | String _ _, EmptyString => None
  end.

(** The first occurrence of [p] in [s]: the text before it and after it. *)
Fixpoint find_first (p s : string) : option (string * string) :=
  match strip_prefix p s with
  | Some after => Some (EmptyString, after)
  | None =>
      match s with
      | EmptyString => None
      | String c s' =>
          match find_first p s' with
          | Some (before, after) => Some (String c before, after)
          | None => None
          end
      end
  end.

(** [s.indexOf(p)], [None] standing for -1. *)
Definition indexOf (p s : string) : option nat :=
  match find_first p s with
  | Some (before, _) => Some (String.length before)
  | None => None
  end.

(** GetSubstitution for a match without capture groups: in the replacement
    text, [$$] is a dollar sign, [$&] the matched text, [$`] the text
    before the match and [$'] the text after it; any other dollar sign
    stands for itself. *)
Fixpoint GetSubstitution (matched before after replacement : string) : string :=
  match replacement with
  | EmptyString => EmptyString
  | String c r =>
      if Ascii.eqb c "$" then
        match r with
        | String d r' =>
            if Ascii.eqb d "$" then
              String "$" (GetSubstitution matched before after r')
            else if Ascii.eqb d "&" then
              matched +:+ GetSubstitution matched before after r'
            else if Ascii.eqb d "`" then
              before +:+ GetSubstitution matched before after r'
            else if Ascii.eqb d "'" then
              after +:+ GetSubstitution matched before after r'
            else String c (GetSubstitution matched before after r)
        | EmptyString => String c EmptyString
        end
      else String c (GetSubstitution matched before after r)
  end.

(** [s.replace(p, replacement)] for a string pattern [p]: only the first
    occurrence is replaced. *)
Definition replace (p replacement s : string) : string :=
  match find_first p s with
  | Some (before, after) =>
      before +:+ GetSubstitution p before after replacement +:+ after
  | None => s
  end.

(** [s.replace(/p/g, replacement)] for a regular expression that matches
    exactly the non-empty literal text [p]: every occurrence, scanning
    left to right without overlap.  [before] is the text already scanned
    and [skip] the number of characters of the current match still to
    pass. *)
Fixpoint replaceAll_from (p replacement before s : string) (skip : nat) : string :=
  match s with
  | EmptyString => EmptyString
  | String c s' =>
      match skip with
      | S k => replaceAll_from p replacement (before +:+ String c EmptyString) s' k
      | O =>
          match strip_prefix p s with
          | Some after =>
              GetSubstitution p before after replacement
              +:+ replaceAll_from p replacement (before +:+ String c EmptyString) s'
                    (Nat.pred (String.length p))
          | None =>
              String c (replaceAll_from p replacement (before +:+ String c EmptyString) s' 0)
          end
      end
  end.

Definition replaceAll (p replacement s : string) : string :=
  replaceAll_from p replacement EmptyString s 0.

(** [(s.match(/c/g) || []).length] for a one-character pattern. *)
Fixpoint countChar (c : ascii) (s : string) : nat :=
  match s with
  | EmptyString => O
  | String d s' => (if Ascii.eqb c d then 1 else 0)%nat + countChar c s'
  end.

Fixpoint trimStart (s : string) : string :=
  match s with
  | EmptyString => EmptyString
  | String c s' => if isWhiteSpace c then trimStart s' else s
  end.

(** [trimEnd] drops the white space that is followed by white space only. *)
Fixpoint trimEnd (s : string) : string :=
  match s with
  | EmptyString => EmptyString
  | String c s' =>
      match trimEnd s' with
      | EmptyString => if isWhiteSpace c then EmptyString else String c EmptyString
      | t => String c t
      end
  end.

(** [s.trim()] *)
Definition trim (s : string) : string := trimEnd (trimStart s).

(** A string in a boolean context: true unless empty. *)
Definition truthy (s : string) : bool :=
  match s with EmptyString => false | _ => true end.

(** [`${n}`] for an integer-valued number (below 10^21 in absolute value,
    where Number::toString uses plain decimal notation). *)
Definition Number_toString (n : Z) : string :=
  NilZero.string_of_int (Z.to_int n).

(** [ToString] of a possibly undefined string. *)
Definition ToString (v : option string) : string :=
  match v with Some s => s | None => "undefined" end.

(** ** Objects

    The own enumerable string-keyed properties of an ordinary object, as a
    list in the order [Object.keys] and [for ... in] enumerate them: the
    keys that are array indices first, in ascending numeric order, then
    the other keys in the order they were created. *)

Definition isDigit (c : ascii) : bool := ((48 <=? code c) && (code c <=? 57))%N.

Fixpoint decimal_value (s : string) (acc : N) : option N :=
  match s with
  | EmptyString => Some acc
  | String c s' =>
      if isDigit c then decimal_value s' (10 * acc + (code c - 48))%N else None
  end.

(** The array index a key denotes: the key is the canonical decimal text of
    an integer from 0 to 2^32 - 2. *)
Definition array_index (key : string) : option N :=
  match key with
  | EmptyString => None
  | String c rest =>
      if Ascii.eqb c "0" && negb (String.eqb rest EmptyString) then None
      else
        match decimal_value key 0 with
        | Some n => if (n <? 4294967295)%N then Some n else None
        | None => None
        end
  end.

Fixpoint has_own {A} (d : list (string * A)) (key : string) : bool :=
  match d with
  | [] => false
  | (k, _) :: d' => String.eqb k key || has_own d' key
  end.

(** The value of an own property is replaced where the property is. *)
Fixpoint update_own {A} (d : list (string * A)) (key : string) (value : A)
  : list (string * A) :=
  match d with
  | [] => []
  | (k, v) :: d' =>
      if String.eqb k key then (k, value) :: d'
      else (k, v) :: update_own d' key value
  end.

(** A new property whose key is the array index [n] goes before the first
    property that is no array index or a greater one. *)
Fixpoint insert_index {A} (d : list (string * A)) (n : N) (key : string) (value : A)
  : list (string * A) :=
  match d with
  | [] => [(key, value)]
  | (k, v) :: d' =>
      match array_index k with
      | Some m =>
          if (m <? n)%N then (k, v) :: insert_index d' n key value
          else (key, value) :: d
      | None => (key, value) :: d
      end
  end.

(** CreateDataProperty, or the assignment to an own data property. *)
Definition set_own {A} (d : list (string * A)) (key : string) (value : A)
  : list (string * A) :=
  if has_own d key then update_own d key value
  else
    match array_index key with
    | Some n => insert_index d n key value
    | None => d ++ [(key, value)]
    end.

(** ** Regular expressions

    The fragment of RegExp that [utils.ts] uses: literal characters, the
    anchors, an optional character, and a capture group around a greedy
    repetition of a one-character matcher. *)

Inductive Atom : Type :=
| AChar (c : ascii)   (** a literal character *)
| ADot                (** [.]: any character but a line terminator *)
| ANot (c : ascii).   (** [[^c]] *)

Inductive Node : Type :=
| NAtom (a : Atom)
| NOpt (a : Atom)        (** [a] followed by a question mark *)
| NCapStar (a : Atom)    (** a group around [a] starred *)
| NCapPlus (a : Atom)    (** a group around [a] followed by a plus *)
| NBol                   (** the caret *)
| NEol.                  (** the dollar sign *)

Definition Regex := list Node.

(** Whether one character is accepted by a matcher; [ic] is the [i] flag. *)
Definition atom_matches (ic : bool) (a : Atom) (c : ascii) : bool :=
  match a with
  | AChar d =>
      if ic then (Canonicalize d =? Canonicalize c)%N else Ascii.eqb d c
  | ADot => negb (isLineTerminator c)
  | ANot d =>
      if ic then negb (Canonicalize d =? Canonicalize c)%N
      else negb (Ascii.eqb d c)
  end.

(** Backtracking match of [r] at the current position.  [start] tells
    whether the position is the beginning of the input; the result is the
    list of captured texts, in the order of the groups.  A repetition is
    greedy: the longer alternative is tried first. *)
Fixpoint exec (ic : bool) (r : Regex) (start : bool) (s : string) {struct r}
  : option (list string) :=
  match r with
  | [] => Some []
  | NAtom a :: r' =>
      match s with
      | String c s' => if atom_matches ic a c then exec ic r' false s' else None
      | EmptyString => None
      end
  | NOpt a :: r' =>
      match s with
      | String c s' =>
          if atom_matches ic a c then
            match exec ic r' false s' with
            | Some caps => Some caps
            | None => exec ic r' start s
            end
          else exec ic r' start s
      | EmptyString => exec ic r' start s
      end
  | NBol :: r' => if start then exec ic r' start s else None
  | NEol :: r' =>
      match s with
      | EmptyString => exec ic r' start s
      | String _ _ => None
      end
  | NCapStar a :: r' =>
      (fix star (s : string) (start : bool) {struct s} : option (list string) :=
         let stop :=
           match exec ic r' start s with
           | Some caps => Some (EmptyString :: caps)
           | None => None
           end in
         match s with
         | String c s' =>
             if atom_matches ic a c then
               match star s' false with
               | Some (w :: caps) => Some (String c w :: caps)
               | _ => stop
               end
             else stop
         | EmptyString => stop
         end) s start
  | NCapPlus a :: r' =>
      match s with
      | String c s' =>
          if atom_matches ic a c then
            match
              (fix star (s : string) {struct s} : option (list string) :=
                 let stop :=
                   match exec ic r' false s with
                   | Some caps => Some (EmptyString :: caps)
                   | None => None
                   end in
                 match s with
                 | String c s' =>
                     if atom_matches ic a c then
                       match star s' with
                       | Some (w :: caps) => Some (String c w :: caps)
                       | _ => stop
                       end
                     else stop
                 | EmptyString => stop
                 end) s'
            with
            | Some (w :: caps) => Some (String c w :: caps)
            | _ => None
            end
          else None
      | EmptyString => None
      end
  end.

(** [s.match(r)] for a regular expression without the [g] flag: the
    captures of the leftmost match. *)
Fixpoint search (ic : bool) (r : Regex) (start : bool) (s : string)
  : option (list string) :=
  match exec ic r start s with
  | Some caps => Some caps
  | None =>
      match s with
      | String _ s' => search ic r false s'
      | EmptyString => None
      end
  end.

Definition String_match (ic : bool) (r : Regex) (s : string) : option (list string) :=
  search ic r true s.

(** The syntax characters of a pattern. *)
Definition isSyntaxCharacter (c : ascii) : bool :=
  existsb (Ascii.eqb c)
    ["^"; "$"; "\"; "."; "*"; "+"; "?"; "("; ")"; "["; "]"; "{"; "}"; "|"]%char.

(** [new RegExp(source)] on the fragment: an escaped syntax character or
    slash is that character, a parenthesised dot-star is a capture group,
    the anchors are themselves, and any other character that is not a
    syntax character is a literal.  A source outside the fragment is
    answered with a SyntaxError. *)
Fixpoint RegExp_parse (source : string) : option Regex :=
  match source with
  | EmptyString => Some []
  | String c rest =>
      if Ascii.eqb c "\" then
        match rest with
        | String d rest' =>
            if isSyntaxCharacter d || Ascii.eqb d "/" then
              option_map (cons (NAtom (AChar d))) (RegExp_parse rest')
            else None
        | EmptyString => None
        end
      else if Ascii.eqb c "(" then
        match rest with
        | String "." (String "*" (String ")" rest')) =>
            option_map (cons (NCapStar ADot)) (RegExp_parse rest')
        | _ => None
        end
      else if Ascii.eqb c "^" then option_map (cons NBol) (RegExp_parse rest)
      else if Ascii.eqb c "$" then option_map (cons NEol) (RegExp_parse rest)
      else if isSyntaxCharacter c then None
      else option_map (cons (NAtom (AChar c))) (RegExp_parse rest)
  end.

Definition RegExp (source : string) : Completion Regex :=
  match RegExp_parse source with
  | Some r => Normal r
  | None => Throw (SyntaxError ("Invalid regular expression: " +:+ source))
  end.

End JS.

(* ================================================================== *)
(** * src/utils.ts *)
(* ================================================================== *)

Module Utils.
Import JS.

(** ** The environment of the module *)

(** [http.get] or [https.get] *)
Inductive Transport : Type := http_get | https_get.

(** The values found in a request-options object. *)
Inductive OptionValue : Type :=
| VBool (b : bool)
| VString (s : string)
| VNull
| VHeaders (h : gmap string string).

(** A request-options object, and likewise the object [url.parse]
    returns: its own enumerable properties. *)
Abbreviation RequestOptions := (gmap string OptionValue).

Record Request : Type := mkRequest { via : Transport; options : RequestOptions }.

(** What becomes of one request, as far as the listeners of [fetchUri]
    can tell.  The request fails with an error before a response arrives
    ([get] throws it, or the request emits ['error'] with it); or a
    response arrives with a status code, emits its chunks of data and ends;
    or a response arrives and emits chunks of data, and then the connection
    fails with an error: the response emits ['aborted'] and never ['end'],
    and the request emits no ['error']; or nothing ever answers. *)
Inductive HttpExchange : Type :=
| RequestError (e : JsError)
| ResponseEnd (statusCode : Z) (chunks : list string)
| ResponseAborted (statusCode : Z) (chunks : list string) (e : JsError)
| NoAnswer.

(** [IRemoteTargetJson]: an object with string-valued properties
    ([[index: string]: string]). *)
Abbreviation IRemoteTargetJson := (gmap string string).

(** The primitives of Node that the module calls.  [World] is the state of
    everything outside the program; [JSON_parse] is [JSON.parse], a thrown
    SyntaxError being a [Throw].  The empty text is no JSON text. *)
Class Host : Type := {
  World : Type;
  url_parse : string -> RequestOptions;
  get : Request -> World -> HttpExchange * World;
  JSON_parse : string -> Completion JSValue;
  JSON_parse_empty : exists e, JSON_parse EmptyString = Throw e;
}.

Section WithHost.
Context `{Host}.

(** The state threaded through the asynchronous code: the outside world
    and the requests issued so far, oldest first. *)
Record Net : Type := mkNet { world : World; sent : list Request }.

Definition IO (A : Type) : Type := Net -> A * Net.

#[local] Instance IO_ret : MRet IO := fun A a n => (a, n).
#[local] Instance IO_bind : MBind IO :=
  fun A B f m n => let '(a, n') := m n in f a n'.

(** Issue a request and wait for the exchange to finish. *)
Definition issue (rq : Request) : IO HttpExchange :=
  fun n =>
    let '(x, w) := get rq (world n) in
    (x, mkNet w (sent n ++ [rq])).

(** ** fetchUri *)

(** The request [fetchUri] issues for [uri]: the transport follows the
    protocol of the parsed url; the options are, from lowest to highest
    precedence, [rejectUnauthorized: false], the properties of the
    parsed url, and the caller's options. *)
Definition request_for (uri : string) (options : RequestOptions) : Request :=
  let parsedUrl := url_parse uri in
  let get :=
    match parsedUrl !! "protocol" with
    | Some (VString "https:") => https_get
    | _ => http_get
    end in
  let options : RequestOptions :=
    options ∪ parsedUrl ∪ {[ "rejectUnauthorized" := VBool false ]} in
  mkRequest get options.

(** The text the ['data'] listener has accumulated when the response ends. *)
Definition accumulate (chunks : list string) : string :=
  fold_left String.append chunks EmptyString.

(** What the listeners of [fetchUri] make of its promise: the listener of
    the response's ['end'] resolves or rejects it, the listener of the
    request's ['error'] rejects it, and nothing else settles it. *)
Definition settle (x : HttpExchange) : Promise string :=
  match x with
  | ResponseEnd statusCode chunks =>
      let responseData := accumulate chunks in
      if statusCode =? 200 then Resolved responseData
      else Rejected (Error (trim responseData))
  | RequestError e => Rejected e
  | ResponseAborted _ _ _ => Pending
  | NoAnswer => Pending
  end.

Definition fetchUri (uri : string) (options : RequestOptions) : IO (Promise string) :=
  x ← issue (request_for uri options);
  mret (settle x).

(** ** getListOfTargets *)

Definition checkDiscoveryEndpoint (uri : string) : IO (Promise string) :=
  fetchUri uri {[ "headers" := VHeaders {[ "Host" := "localhost" ]} ]}.

Definition discovery_uri (protocol hostname : string) (port : Z) (endpoint : string) : string :=
  protocol +:+ "://" +:+ hostname +:+ ":" +:+ Number_toString port +:+ endpoint.

(** The loop over the endpoints; [jsonResponse] is the variable of that
    name.  The result is [None] when an awaited promise stays pending: the
    loop never gets further. *)
Fixpoint discovery_loop (protocol hostname : string) (port : Z)
    (endpoints : list string) (jsonResponse : string) : IO (option string) :=
  match endpoints with
  | [] => mret (Some jsonResponse)
  | endpoint :: rest =>
      p ← checkDiscoveryEndpoint (discovery_uri protocol hostname port endpoint);
      match await p with
      | Some (Normal body) =>
          if truthy body then mret (Some body)
          else discovery_loop protocol hostname port rest body
      | Some (Throw _) => discovery_loop protocol hostname port rest jsonResponse
      | None => mret None
      end
  end.

(** [try { result = JSON.parse(jsonResponse) } catch { result = [] }] *)
Definition parse_or_empty (jsonResponse : string) : Completion JSValue :=
  match JSON_parse jsonResponse with
  | Normal result => Normal result
  | Throw _ => Normal (JArray [])
  end.

(** The promise of an [async] function by how its body completes; [None]
    is a body that stays suspended at an [await]. *)
Definition async_result {A} (c : option (Completion A)) : Promise A :=
  match c with
  | Some (Normal a) => Resolved a
  | Some (Throw e) => Rejected e
  | None => Pending
  end.

Definition getListOfTargets (hostname : string) (port : Z) (useHttps : bool)
  : IO (Promise JSValue) :=
  let protocol := if useHttps then "https" else "http" in
  jsonResponse ← discovery_loop protocol hostname port ["/json/list"; "/json"] "";
  mret (async_result (parse_or_empty <$> jsonResponse)).

End WithHost.

(** ** fixRemoteWebSocket *)

(** Target objects live in a store and are passed by reference. *)
Definition ref : Type := positive.
Abbreviation Store := (gmap ref IRemoteTargetJson).

(** [target.field], [None] when the object has no such property. *)
Definition get_field (σ : Store) (target : ref) (field : string) : option string :=
  σ !! target ≫= (.!! field).

(** [target.field = value] *)
Definition set_field (σ : Store) (target : ref) (field value : string) : Store :=
  alter (<[field := value]>) target σ.

(** The regular expression literal of [fixRemoteWebSocket]: the text
    [ws://], a group around one or more characters other than a slash, and
    an optional slash. *)
Definition addressRegex : Regex :=
  [NAtom (AChar "w"); NAtom (AChar "s"); NAtom (AChar ":");
   NAtom (AChar "/"); NAtom (AChar "/"); NCapPlus (ANot "/"); NOpt (AChar "/")]%char.

(** Element [k] of a match array, for [k] at least 1: the text of group
    [k]. *)
Definition group (k : nat) (m : list string) : option string := m !! Nat.pred k.

Definition fixRemoteWebSocket (remoteAddress : string) (remotePort : Z)
    (target : ref) (σ : Store) : ref * Store :=
  match get_field σ target "webSocketDebuggerUrl" with
  | Some webSocketDebuggerUrl =>
      if truthy webSocketDebuggerUrl then
        match String_match false addressRegex webSocketDebuggerUrl with
        | Some addressMatch =>
            let replaceAddress :=
              remoteAddress +:+ ":" +:+ Number_toString remotePort in
            (target,
             set_field σ target "webSocketDebuggerUrl"
               (replace (ToString (group 1 addressMatch)) replaceAddress
                  webSocketDebuggerUrl))
        | None => (target, σ)
        end
      else (target, σ)
  | None => (target, σ)
  end.

(** ** Path mapping *)

(** [IStringDictionary<string>]: the own enumerable properties of the
    object, in the order [Object.keys] and [for ... in] enumerate them. *)
Definition IStringDictionary : Type := list (string * string).

Definition Object_keys (d : IStringDictionary) : list string := d.*1.

(** [d[key]] *)
Fixpoint property (d : IStringDictionary) (key : string) : option string :=
  match d with
  | [] => None
  | (k, v) :: d' => if String.eqb k key then Some v else property d' key
  end.

(** [d[key] = value] on an object created by an object literal.  The key
    [__proto__] is not a property of such an object but the accessor of
    [Object.prototype], whose setter does nothing with a string. *)
Definition set_property (d : IStringDictionary) (key value : string) : IStringDictionary :=
  if String.eqb key "__proto__" then d else set_own d key value.

(** [table.hasOwnProperty(key)] for a key that [for ... in] has enumerated.
    The method is the one of [Object.prototype] unless the table has an own
    property of that name, which is a string and cannot be called. *)
Definition hasOwnProperty (tableName : string) (table : IStringDictionary)
    (key : string) : Completion bool :=
  if has_own table "hasOwnProperty"
  then Throw (TypeError (tableName +:+ ".hasOwnProperty is not a function"))
  else Normal (has_own table key).

Definition replaceWebRootInSourceMapPathOverridesEntry (webRoot entry : string) : string :=
  if truthy webRoot then
    match indexOf "${webRoot}" entry with
    | Some O => replace "${webRoot}" webRoot entry
    | _ => entry
    end
  else entry.

(** The loop of [getRuntimeConfig] that resolves the source-map overrides
    with the web root; [entries] are the properties still to enumerate. *)
Fixpoint resolveOverrides_loop (webRoot : string)
    (sourceMapPathOverrides entries resolvedOverrides : IStringDictionary)
  : Completion IStringDictionary :=
  match entries with
  | [] => Normal resolvedOverrides
  | (pattern, value) :: rest =>
      match hasOwnProperty "sourceMapPathOverrides" sourceMapPathOverrides pattern with
      | Normal true =>
          let replacePattern :=
            replaceWebRootInSourceMapPathOverridesEntry webRoot pattern in
          let replacePatternValue :=
            replaceWebRootInSourceMapPathOverridesEntry webRoot value in
          resolveOverrides_loop webRoot sourceMapPathOverrides rest
            (set_property resolvedOverrides replacePattern replacePatternValue)
      | Normal false =>
          resolveOverrides_loop webRoot sourceMapPathOverrides rest resolvedOverrides
      | Throw e => Throw e
      end
  end.

Definition resolveOverrides (webRoot : string) (sourceMapPathOverrides : IStringDictionary)
  : Completion IStringDictionary :=
  resolveOverrides_loop webRoot sourceMapPathOverrides sourceMapPathOverrides [].

(** [vscode.WorkspaceFolder], with the text of its uri. *)
Record WorkspaceFolder : Type := mkWorkspaceFolder { uri_toString : string }.

(** [vscode.workspace.workspaceFolders], of type
    [readonly WorkspaceFolder[] | undefined]. *)
Definition WorkspaceFolders : Type := option (list WorkspaceFolder).

(** The functions of [debugCore.utils] that the path mapping calls on its
    result; their code is not part of this repository. *)
Class DebugCore : Type := {
  properJoin : string -> string;
  canonicalizeUrl : string -> string;
}.

Definition regexChars : string := "/\.?*()^${}|[]+".

Definition contains (c : ascii) (s : string) : bool :=
  existsb (Ascii.eqb c) (list_ascii_of_string s).

(** Modelled from the spec: [debugCore.utils.escapeRegexSpecialChars],
    whose code is not part of this repository, "escaping all regex
    metacharacters except" the characters of [except]: each of them is
    preceded by a backslash. *)
Fixpoint escapeRegexSpecialChars (str except : string) : string :=
  match str with
  | EmptyString => EmptyString
  | String c str' =>
      if contains c regexChars && negb (contains c except)
      then String "\" (String c (escapeRegexSpecialChars str' except))
      else String c (escapeRegexSpecialChars str' except)
  end.

(** [keys.sort((a, b) => b.length - a.length)]: the sort is stable, so
    keys of equal length keep their order. *)
Fixpoint insert_by_length (k : string) (sorted : list string) : list string :=
  match sorted with
  | [] => [k]
  | k' :: rest =>
      if (String.length k <? String.length k')%nat
      then k' :: insert_by_length k rest
      else k :: sorted
  end.

Definition sort_longest_first (keys : list string) : list string :=
  foldr insert_by_length [] keys.

Section WithDebugCore.
Context `{DebugCore}.

Definition replaceWorkSpaceFolderPlaceholder (workspaceFolders : WorkspaceFolders)
    (path : string) : Completion string :=
  match workspaceFolders with
  | None => Normal ""
  | Some [] =>
      Throw (TypeError "Cannot read properties of undefined (reading 'uri')")
  | Some (folder :: _) =>
      if truthy (uri_toString folder) then
        let replacedPath := replace "${workspaceFolder}" (uri_toString folder) path in
        Normal (canonicalizeUrl replacedPath)
      else Normal ""
  end.

(** The source of the regular expression built for a left pattern. *)
Definition leftRegexSource (leftPattern : string) : string :=
  let escapedLeftPattern := escapeRegexSpecialChars leftPattern "/*" in
  let leftRegexSegment :=
    replaceAll "\\" "/" (replaceAll "*" "(.*)" escapedLeftPattern) in
  "^" +:+ leftRegexSegment +:+ "$".

(** The loop of [applyPathMapping] over the sorted keys: [Normal None]
    when it runs to its end, [Normal (Some p)] when it returns [p]. *)
Fixpoint applyPathMapping_loop (workspaceFolders : WorkspaceFolders)
    (forwardSlashSourcePath : string) (pathMapping : IStringDictionary)
    (sortedOverrideKeys : list string) : Completion (option string) :=
  match sortedOverrideKeys with
  | [] => Normal None
  | leftPattern :: rest =>
      let continue :=
        applyPathMapping_loop workspaceFolders forwardSlashSourcePath pathMapping rest in
      match property pathMapping leftPattern with
      | None =>
          Throw (TypeError "Cannot read properties of undefined (reading 'match')")
      | Some rightPattern =>
          let asterisks := countChar "*" leftPattern in
          if (1 <? asterisks)%nat then continue
          else
            let replacePatternAsterisks := countChar "*" rightPattern in
            if (asterisks <? replacePatternAsterisks)%nat then continue
            else
              match RegExp (leftRegexSource leftPattern) with
              | Throw e => Throw e
              | Normal leftRegex =>
                  match String_match true leftRegex forwardSlashSourcePath with
                  | None => continue
                  | Some overridePatternMatches =>
                      let wildcardValue := group 1 overridePatternMatches in
                      let mappedPath :=
                        replaceAll "*" (ToString wildcardValue) rightPattern in
                      let mappedPath := properJoin mappedPath in
                      match replaceWorkSpaceFolderPlaceholder workspaceFolders mappedPath with
                      | Normal mappedPath => Normal (Some mappedPath)
                      | Throw e => Throw e
                      end
                  end
              end
      end
  end.

Definition applyPathMapping (workspaceFolders : WorkspaceFolders)
    (sourcePath : string) (pathMapping : IStringDictionary) : Completion string :=
  let forwardSlashSourcePath := replaceAll "\" "/" sourcePath in
  let sortedOverrideKeys := sort_longest_first (Object_keys pathMapping) in
  match
    applyPathMapping_loop workspaceFolders forwardSlashSourcePath pathMapping
      sortedOverrideKeys
  with
  | Normal (Some mappedPath) => Normal mappedPath
  | Normal None => Normal sourcePath
  | Throw e => Throw e
  end.

End WithDebugCore.

End Utils.

(* ================================================================== *)
(** * src/screencastPanel.ts *)
(* ================================================================== *)

Module ScreencastPanel.

(** Modelled from the spec: the states of [PanelSocket], whose code
    ([src/panelSocket.ts]) is not among the sources: "[Connecting -(socket
    open)-> Open -(socket closed | dispose())-> Closed]. No transition
    leaves [Closed]." *)
Inductive RelayState : Type := Connecting | Open | Closed.

(** A [ScreencastPanel] object with the two objects only it refers to:
    its webview panel, of which the disposed flag matters here, and its
    panel socket. *)
Record Object : Type := mkObject {
  targetUrl : string;
  panel_isDisposed : bool;
  panelSocket : RelayState;
}.

Definition ref : Type := positive.

(** The static field [ScreencastPanel.instance] and the objects allocated
    so far. *)
Record State : Type := mkState {
  instance : option ref;
  heap : gmap ref Object;
}.

Definition initial : State := mkState None ∅.

Definition set_instance (i : option ref) (st : State) : State :=
  mkState i (heap st).

Definition update (this : ref) (f : Object -> Object) (st : State) : State :=
  mkState (instance st) (alter f this (heap st)).

Definition mark_panel_disposed (o : Object) : Object :=
  mkObject (targetUrl o) true (panelSocket o).

Definition with_socket (f : RelayState -> RelayState) (o : Object) : Object :=
  mkObject (targetUrl o) (panel_isDisposed o) (f (panelSocket o)).

(** Modelled from the spec: the panel socket of [this] closes.  The event
    ['close'] is "raised exactly once, when the remote socket closes for
    any reason (clean close, error, or explicit disposal)", and "no
    transition leaves [Closed]": a panel socket that is closed does
    nothing; any other becomes closed and raises ['close'], to which
    [onClose] listens. *)
Definition PanelSocket_close (onClose : State -> option State) (this : ref)
    (st : State) : option State :=
  match heap st !! this with
  | Some o =>
      match panelSocket o with
      | Closed => Some st
      | _ => onClose (update this (with_socket (fun _ => Closed)) st)
      end
  | None => Some st
  end.

(** Modelled from the spec: [PanelSocket.dispose()] is "idempotent; closes
    the remote socket if open", and "guarantees no further ['websocket'] or
    ['close'] events are raised after it returns": the ['close'] of an
    explicit disposal is raised before [dispose()] returns. *)
Definition PanelSocket_dispose (onClose : State -> option State) (this : ref)
    (st : State) : option State :=
  PanelSocket_close onClose this st.

(** [this.panel.dispose()] of the editor: nothing on a panel already
    disposed; otherwise the panel is marked disposed and the listener the
    constructor registered with [onDidDispose] runs. *)
Definition panel_dispose (onDidDispose : State -> option State) (this : ref)
    (st : State) : option State :=
  match heap st !! this with
  | Some o =>
      if panel_isDisposed o then Some st
      else onDidDispose (update this mark_panel_disposed st)
  | None => Some st
  end.

(** [dispose()].  The listener of [onDidDispose] calls [dispose] again, and
    so does [onSocketClose], the listener of the panel socket's ['close'];
    the definition is by recursion on [fuel], the depth of nested calls
    allowed, and [None] means the fuel ran out. *)
Fixpoint dispose (fuel : nat) (this : ref) (st : State) : option State :=
  match fuel with
  | O => None
  | S fuel' =>
      let onSocketClose := dispose fuel' this in
      let st := set_instance None st in
      let onDidDispose := fun st =>
        st ← dispose fuel' this st;
        PanelSocket_dispose onSocketClose this st in
      st ← panel_dispose onDidDispose this st;
      PanelSocket_dispose onSocketClose this st
  end.

(** [onSocketClose()] *)
Definition onSocketClose (fuel : nat) (this : ref) (st : State) : option State :=
  dispose fuel this st.

(** [vscode.window.createWebviewPanel] followed by the constructor: a new
    object with a fresh panel and a fresh panel socket. *)
Definition construct (targetUrl : string) (st : State) : ref * State :=
  let this := fresh (dom (heap st)) in
  (this, mkState (instance st) (<[this := mkObject targetUrl false Connecting]> (heap st))).

(** The first statement of [createOrShow]: dispose the recorded instance,
    if any. *)
Definition dispose_existing (fuel : nat) (st : State) : option State :=
  match instance st with
  | Some old => dispose fuel old st
  | None => Some st
  end.

Definition createOrShow (fuel : nat) (targetUrl : string) (st : State) : option State :=
  st ← dispose_existing fuel st;
  let '(this, st) := construct targetUrl st in
  Some (set_instance (Some this) st).

(** What can happen to the panels: the command that shows the screencast,
    the user closing a panel, and the remote socket of a panel opening or
    closing. *)
Inductive Event : Type :=
| CreateOrShow (targetUrl : string)
| PanelClosed (this : ref)
| SocketOpened (this : ref)
| SocketClosed (this : ref).

Definition socket_open (s : RelayState) : RelayState :=
  match s with Connecting => Open | s => s end.

(** The remote socket of a panel closes. *)
Definition socket_closed (fuel : nat) (this : ref) (st : State) : option State :=
  PanelSocket_close (onSocketClose fuel this) this st.

Definition step (fuel : nat) (e : Event) (st : State) : option State :=
  match e with
  | CreateOrShow targetUrl => createOrShow fuel targetUrl st
  | PanelClosed this =>
      panel_dispose
        (fun st =>
           st ← dispose fuel this st;
           PanelSocket_dispose (onSocketClose fuel this) this st)
        this st
  | SocketOpened this => Some (update this (with_socket socket_open) st)
  | SocketClosed this => socket_closed fuel this st
  end.

Fixpoint run (fuel : nat) (events : list Event) (st : State) : option State :=
  match events with
  | [] => Some st
  | e :: events' => st ← step fuel e st; run fuel events' st
  end.

(** A panel that still owns a relay: its panel socket was not disposed. *)
Definition live (o : Object) : bool :=
  match panelSocket o with Closed => false | _ => true end.

(** The objects of the heap that are live. *)
Definition live_instances (st : State) : list ref :=
  (map_to_list (filter (fun kv => live kv.2 = true) (heap st))).*1.

End ScreencastPanel.

(* ================================================================== *)
(** * Concrete hosts for the examples *)
(* ================================================================== *)

Module Examples.
Import JS Utils.

(** ** A reader of JSON texts

    [JSON.parse] on the texts of the examples.  The texts are read in
    full generality but for two things: a number is kept as its literal,
    and a [\u] escape must denote a code unit below 256. *)

Inductive Token : Type :=
| TArrayOpen | TArrayClose | TObjectOpen | TObjectClose | TColon | TComma
| TNull | TTrue | TFalse
| TNumber (literal : string)
| TString (s : string).

Definition isJsonSpace (c : ascii) : bool :=
  existsb (Ascii.eqb c) [" "; "009"; "010"; "013"]%char.

(** The character an escape sequence of one letter stands for. *)
Definition unescape (c : ascii) : option ascii :=
  if Ascii.eqb c "034" then Some "034"%char
  else if Ascii.eqb c "\" then Some "\"%char
  else if Ascii.eqb c "/" then Some "/"%char
  else if Ascii.eqb c "b" then Some "008"%char
  else if Ascii.eqb c "f" then Some "012"%char
  else if Ascii.eqb c "n" then Some "010"%char
  else if Ascii.eqb c "r" then Some "013"%char
  else if Ascii.eqb c "t" then Some "009"%char
  else None.

Definition hex_value (c : ascii) : option N :=
  let n := code c in
  (if (48 <=? n) && (n <=? 57) then Some (n - 48)
   else if (65 <=? n) && (n <=? 70) then Some (n - 55)
   else if (97 <=? n) && (n <=? 102) then Some (n - 87)
   else None)%N.

(** The code unit four hexadecimal digits denote, when it is below 256. *)
Definition unicode_escape (a b c d : ascii) : option ascii :=
  match hex_value a, hex_value b, hex_value c, hex_value d with
  | Some 0%N, Some 0%N, Some h, Some l => Some (ascii_of_N (16 * h + l))
  | _, _, _, _ => None
  end.

(** The longest prefix of digits, and the rest. *)
Fixpoint digits (s : string) : string * string :=
  match s with
  | String c s' =>
      if isDigit c then let '(ds, rest) := digits s' in (String c ds, rest)
      else (EmptyString, s)
  | EmptyString => (EmptyString, EmptyString)
  end.

(** One or more digits. *)
Definition digits1 (s : string) : option (string * string) :=
  match digits s with
  | (EmptyString, _) => None
  | found => Some found
  end.

(** The number literal at the start of a text, and the rest: an optional
    minus sign, an integer without leading zero, an optional fraction and
    an optional exponent. *)
Definition number_literal (s : string) : option (string * string) :=
  let '(sign, s) :=
    match s with
    | String "-" s' => ("-", s')
    | _ => (EmptyString, s)
    end in
  '(int, s) ← match s with
              | String "0" s' => Some ("0", s')
              | _ => digits1 s
              end;
  '(frac, s) ← match s with
               | String "." s' =>
                   '(ds, rest) ← digits1 s'; Some ("." +:+ ds, rest)
               | _ => Some (EmptyString, s)
               end;
  '(exp, s) ← match s with
              | String e s' =>
                  if Ascii.eqb e "e" || Ascii.eqb e "E" then
                    let '(esign, s'') :=
                      match s' with
                      | String "+" r => ("+", r)
                      | String "-" r => ("-", r)
                      | _ => (EmptyString, s')
                      end in
                    '(ds, rest) ← digits1 s'';
                    Some (String e esign +:+ ds, rest)
                  else Some (EmptyString, s)
              | EmptyString => Some (EmptyString, s)
              end;
  Some (sign +:+ int +:+ frac +:+ exp, s).

(** [lex fuel s lit]: the tokens of [s]; [lit] is the text of the string
    literal being read, if one is open.  Every step takes at least one
    character, so that the length of the text is fuel enough. *)
Fixpoint lex (fuel : nat) (s : string) (lit : option string) : option (list Token) :=
  match fuel with
  | O => match s, lit with EmptyString, None => Some [] | _, _ => None end
  | S fuel =>
      match s, lit with
      | EmptyString, None => Some []
      | EmptyString, Some _ => None
      | String c s', Some text =>
          if Ascii.eqb c "034" then option_map (cons (TString text)) (lex fuel s' None)
          else if Ascii.eqb c "\" then
            match s' with
            | String "u" (String h1 (String h2 (String h3 (String h4 s'')))) =>
                match unicode_escape h1 h2 h3 h4 with
                | Some d => lex fuel s'' (Some (text +:+ String d EmptyString))
                | None => None
                end
            | String e s'' =>
                match unescape e with
                | Some d => lex fuel s'' (Some (text +:+ String d EmptyString))
                | None => None
                end
            | EmptyString => None
            end
          else if (code c <? 32)%N then None
          else lex fuel s' (Some (text +:+ String c EmptyString))
      | String c s', None =>
          if isJsonSpace c then lex fuel s' None
          else if Ascii.eqb c "034" then lex fuel s' (Some EmptyString)
          else if Ascii.eqb c "[" then option_map (cons TArrayOpen) (lex fuel s' None)
          else if Ascii.eqb c "]" then option_map (cons TArrayClose) (lex fuel s' None)
          else if Ascii.eqb c "{" then option_map (cons TObjectOpen) (lex fuel s' None)
          else if Ascii.eqb c "}" then option_map (cons TObjectClose) (lex fuel s' None)
          else if Ascii.eqb c ":" then option_map (cons TColon) (lex fuel s' None)
          else if Ascii.eqb c "," then option_map (cons TComma) (lex fuel s' None)
          else
            match strip_prefix "null" s, strip_prefix "true" s, strip_prefix "false" s with
            | Some rest, _, _ => option_map (cons TNull) (lex fuel rest None)
            | _, Some rest, _ => option_map (cons TTrue) (lex fuel rest None)
            | _, _, Some rest => option_map (cons TFalse) (lex fuel rest None)
            | None, None, None =>
                match number_literal s with
                | Some (literal, rest) =>
                    option_map (cons (TNumber literal)) (lex fuel rest None)
                | None => None
                end
            end
      end
  end.

(** A value at the start of the tokens, and the tokens after it.  The
    elements of an array and the members of an object are read by the two
    functions that follow; [fuel] bounds the depth of the calls. *)
Fixpoint parse_value (fuel : nat) (ts : list Token) {struct fuel}
  : option (JSValue * list Token) :=
  match fuel with
  | O => None
  | S fuel =>
      match ts with
      | TNull :: rest => Some (JNull, rest)
      | TTrue :: rest => Some (JBool true, rest)
      | TFalse :: rest => Some (JBool false, rest)
      | TNumber literal :: rest => Some (JNumber literal, rest)
      | TString s :: rest => Some (JString s, rest)
      | TArrayOpen :: TArrayClose :: rest => Some (JArray [], rest)
      | TArrayOpen :: rest => parse_elements fuel rest []
      | TObjectOpen :: TObjectClose :: rest => Some (JObject [], rest)
      | TObjectOpen :: rest => parse_members fuel rest []
      | _ => None
      end
  end
with parse_elements (fuel : nat) (ts : list Token) (items : list JSValue) {struct fuel}
  : option (JSValue * list Token) :=
  match fuel with
  | O => None
  | S fuel =>
      match parse_value fuel ts with
      | Some (v, TComma :: rest) => parse_elements fuel rest (items ++ [v])
      | Some (v, TArrayClose :: rest) => Some (JArray (items ++ [v]), rest)
      | _ => None
      end
  end
with parse_members (fuel : nat) (ts : list Token) (members : list (string * JSValue))
    {struct fuel} : option (JSValue * list Token) :=
  match fuel with
  | O => None
  | S fuel =>
      match ts with
      | TString key :: TColon :: rest =>
          match parse_value fuel rest with
          | Some (v, TComma :: rest') =>
              parse_members fuel rest' (set_own members key v)
          | Some (v, TObjectClose :: rest') =>
              Some (JObject (set_own members key v), rest')
          | _ => None
          end
      | _ => None
      end
  end.

Definition JSON_parse_text (text : string) : Completion JSValue :=
  match
    ts ← lex (String.length text) text None;
    parse_value (2 * length ts + 2) ts
  with
  | Some (v, []) => Normal v
  | _ => Throw (SyntaxError "Unexpected token in JSON")
  end.

(** ** A scripted server *)

(** A [url.parse] that fills in the two properties the examples look at. *)
Definition url_parse_href (uri : string) : RequestOptions :=
  {[ "href" := VString uri;
     "protocol" := VString (if String.prefix "https:" uri then "https:" else "http:") ]}.

Definition href (rq : Request) : string :=
  match options rq !! "href" with
  | Some (VString uri) => uri
  | _ => EmptyString
  end.

(** The host whose server answers each uri as [server] says. *)
Definition scripted (server : string -> HttpExchange) : Host :=
  {| World := unit;
     url_parse := url_parse_href;
     get := fun rq w => (server (href rq), w);
     JSON_parse := JSON_parse_text;
     JSON_parse_empty := ex_intro _ _ eq_refl |}.

(** The double quote, and a text between double quotes. *)
Definition quote : string := String "034" EmptyString.
Definition quoted (s : string) : string := quote +:+ s +:+ quote.

(** A list of one target, as the discovery endpoints print it. *)
Definition one_target_text : list string :=
  ["[{" +:+ quoted "id" +:+ ":"; quoted "A1" +:+ "}]"].

Definition one_target : JSValue := JArray [JObject [("id", JString "A1")]].

(** A server that answers [/json/list] with a blank body and every other
    uri with a list of one target. *)
Definition blank_list (uri : string) : HttpExchange :=
  if String.eqb uri "http://localhost:9222/json/list"
  then ResponseEnd 200 [" "]
  else ResponseEnd 200 one_target_text.

(** A server that answers [/json/list] with status 500 and every other uri
    with a list of one target. *)
Definition failing_list (uri : string) : HttpExchange :=
  if String.eqb uri "http://localhost:9222/json/list"
  then ResponseEnd 500 [" Internal Server "; "Error "]
  else ResponseEnd 200 one_target_text.

(** A server that answers [/json/list] with the JSON text [null]. *)
Definition null_list (uri : string) : HttpExchange :=
  if String.eqb uri "http://localhost:9222/json/list"
  then ResponseEnd 200 ["null"]
  else ResponseEnd 200 one_target_text.

(** A server whose connection is reset while it sends the body. *)
Definition reset_in_body (uri : string) : HttpExchange :=
  ResponseAborted 200 ["[{"] (mkJsError "Error" "aborted").

(** No server: every request emits an error. *)
Definition unreachable (uri : string) : HttpExchange :=
  RequestError (mkJsError "Error" "connect ECONNREFUSED 127.0.0.1:9222").

(** A server that answers every uri with a page that is no JSON text. *)
Definition not_json (uri : string) : HttpExchange :=
  ResponseEnd 200 ["<html>"; "</html>"].

(** The state before the first request. *)
Definition start (server : string -> HttpExchange) : Net (H := scripted server) :=
  mkNet (H := scripted server) tt [].

(** The versions of [properJoin] and [canonicalizeUrl] on the paths of the
    examples, which are normal already and which both functions return as
    they are. *)
Definition on_normal_paths : DebugCore :=
  {| properJoin := fun p => p; canonicalizeUrl := fun p => p |}.

End Examples.

(* ================================================================== *)
(** * The notions the claims are stated with *)
(* ================================================================== *)

Module Claims.
Import JS Utils.

Section Discovery.
Context `{Host}.

(** The request [getListOfTargets] issues for an endpoint. *)
Definition discovery_request (hostname : string) (port : Z) (useHttps : bool)
    (endpoint : string) : Request :=
  request_for
    (discovery_uri (if useHttps then "https" else "http") hostname port endpoint)
    {[ "headers" := VHeaders {[ "Host" := "localhost" ]} ]}.

(** The requests a computation issues when started in [n], oldest first. *)
Definition issued {A} (m : IO A) (n : Net) : list Request :=
  drop (length (sent n)) (sent (m n).2).

(** A fetch that threw or failed, or returned a body that is empty after
    white-space trimming. *)
Definition failed_or_blank (p : Promise string) : Prop :=
  match p with
  | Rejected _ => True
  | Resolved body => trim body = EmptyString
  | Pending => False
  end.

(** A fetch that threw or failed, or returned the empty body. *)
Definition failed_or_empty (p : Promise string) : Prop :=
  match p with
  | Rejected _ => True
  | Resolved body => body = EmptyString
  | Pending => False
  end.

(** The body of the first fetch that returned a non-empty body, the empty
    text when none did; [None] when a fetch before that stays pending. *)
Fixpoint first_nonempty_body (fetches : list (Promise string)) : option string :=
  match fetches with
  | [] => Some EmptyString
  | Resolved body :: later =>
      if truthy body then Some body else first_nonempty_body later
  | Rejected _ :: later => first_nonempty_body later
  | Pending :: _ => None
  end.

(** The fallback rule with trimming: [/json] is requested after
    [/json/list] exactly when the first fetch failed or its body is blank. *)
Definition falls_back_on_blank (hostname : string) (port : Z) (useHttps : bool)
    (n : Net) : Prop :=
  let rq1 := discovery_request hostname port useHttps "/json/list" in
  let rq2 := discovery_request hostname port useHttps "/json" in
  issued (getListOfTargets hostname port useHttps) n = [rq1; rq2]
  <-> failed_or_blank (settle (get rq1 (world n)).1).

(** [getListOfTargets] returns a sequence: its promise resolves with an
    array. *)
Definition returns_sequence (hostname : string) (port : Z) (useHttps : bool)
    (n : Net) : Prop :=
  exists targets : list JSValue,
    (getListOfTargets hostname port useHttps n).1 = Resolved (JArray targets).

(** The error of the network that ends an exchange, if one does. *)
Definition network_error (x : HttpExchange) : option JsError :=
  match x with
  | RequestError e => Some e
  | ResponseAborted _ _ e => Some e
  | ResponseEnd _ _ => None
  | NoAnswer => None
  end.

(** An error of the network causes the rejection of the promise of
    [fetchUri] with that error. *)
Definition rejects_network_errors (uri : string) (options : RequestOptions)
    (n : Net) : Prop :=
  forall e,
    network_error (get (request_for uri options) (world n)).1 = Some e ->
    (fetchUri uri options n).1 = Rejected e.

End Discovery.

Section PathMapping.
Context `{DebugCore}.

(** An entry the loop passes over before it builds a regular expression:
    more than one wildcard on the left, or more wildcards on the right than
    on the left. *)
Definition skipped (leftPattern rightPattern : string) : bool :=
  (1 <? countChar "*" leftPattern)%nat
  || (countChar "*" leftPattern <? countChar "*" rightPattern)%nat.

(** The anchored, case-insensitive match of a left pattern against a path:
    the match array, if the path matches. *)
Definition pattern_match (leftPattern path : string) : option (list string) :=
  match RegExp (leftRegexSource leftPattern) with
  | Normal leftRegex => String_match true leftRegex path
  | Throw _ => None
  end.

(** A key of the table whose entry is not skipped and whose pattern matches
    the path. *)
Definition applicable (pathMapping : IStringDictionary) (path leftPattern : string) : bool :=
  match property pathMapping leftPattern with
  | Some rightPattern =>
      negb (skipped leftPattern rightPattern)
      && bool_decide (is_Some (pattern_match leftPattern path))
  | None => false
  end.

(** The slash-normalised source path. *)
Definition normalized (sourcePath : string) : string := replaceAll "\" "/" sourcePath.

(** What [applyPathMapping] returns once the pattern of an entry has matched
    with match array [m]. *)
Definition apply_entry (workspaceFolders : WorkspaceFolders)
    (rightPattern : string) (m : list string) : Completion string :=
  replaceWorkSpaceFolderPlaceholder workspaceFolders
    (properJoin (replaceAll "*" (ToString (group 1 m)) rightPattern)).

(** The result of applying the entry of key [leftPattern] to a path that it
    matches. *)
Definition entry_result (workspaceFolders : WorkspaceFolders)
    (pathMapping : IStringDictionary) (path leftPattern : string) : Completion string :=
  match property pathMapping leftPattern, pattern_match leftPattern path with
  | Some rightPattern, Some m => apply_entry workspaceFolders rightPattern m
  | _, _ => Throw (TypeError "no such entry")
  end.

(** No key is followed by a longer one. *)
Definition longest_first (keys : list string) : Prop :=
  StronglySorted (fun a b => (String.length b <= String.length a)%nat) keys.

(** The key that [applyPathMapping] applies: the first applicable key in the
    order longest first. *)
Definition applied_key (pathMapping : IStringDictionary) (sourcePath : string)
  : option string :=
  List.find (applicable pathMapping (normalized sourcePath))
    (sort_longest_first (Object_keys pathMapping)).

End PathMapping.

(** The regular expression a left pattern stands for: a wildcard is a group
    that captures any text without a line terminator, a backslash is a
    slash, and every other character is itself. *)
Definition pattern_node (c : ascii) : Node :=
  if Ascii.eqb c "*" then NCapStar ADot
  else if Ascii.eqb c "\" then NAtom (AChar "/")
  else NAtom (AChar c).

Definition pattern_regex (leftPattern : string) : Regex :=
  NBol :: map pattern_node (list_ascii_of_string leftPattern) ++ [NEol].
(** The text of the regular expression for one character of a left
    pattern. *)
Definition node_source (c : ascii) : string :=
  if Ascii.eqb c "*" then "(.*)"
  else if Ascii.eqb c "\" then "/"
  else if contains c regexChars && negb (contains c "/*")
       then String "\" (String c EmptyString)
  else String c EmptyString.

Fixpoint segment_source (leftPattern : string) : string :=
  match leftPattern with
  | EmptyString => EmptyString
  | String c rest => node_source c +:+ segment_source rest
  end.
(** Whether a character of a left pattern, other than the wildcard, accepts
    a character of the path: the two are equal up to case, a backslash of
    the pattern standing for a slash. *)
Definition char_matches (c d : ascii) : bool :=
  atom_matches true (AChar (if Ascii.eqb c "\" then "/" else c)) d.

(** The rest of [path] after a prefix that the wildcard-free text [literal]
    accepts character by character. *)
Fixpoint literal_prefix (literal path : string) : option string :=
  match literal, path with
  | EmptyString, _ => Some path
  | String c literal', String d path' =>
      if char_matches c d then literal_prefix literal' path' else None
  | String _ _, EmptyString => None
  end.

(** The wildcard-free text [literal] accepts the whole of [path]. *)
Definition literal_equal (literal path : string) : bool :=
  match literal_prefix literal path with
  | Some EmptyString => true
  | _ => false
  end.

(** No character of the text is a line terminator. *)
Definition one_line (w : string) : bool :=
  forallb (fun c => negb (isLineTerminator c)) (list_ascii_of_string w).

(** The match of a left pattern with at most one wildcard, said without a
    regular expression: the pattern accepts the whole path, a letter of the
    pattern standing for that letter in either case, a backslash for a
    slash, and the wildcard for any text without a line terminator, which
    is captured. *)
Definition wildcard_match (leftPattern path : string) : option (list string) :=
  match find_first "*" leftPattern with
  | None => if literal_equal leftPattern path then Some [] else None
  | Some (before, after) =>
      match literal_prefix before path with
      | Some rest =>
          let n := (String.length rest - String.length after)%nat in
          let w := substring 0 n rest in
          let tail := substring n (String.length after) rest in
          if (String.length after <=? String.length rest)%nat
             && one_line w && literal_equal after tail
          then Some [w]
          else None
      | None => None
      end
  end.

(** A key of the table whose entry is tried and whose pattern accepts the
    path. *)
Definition accepted (pathMapping : IStringDictionary) (path leftPattern : string) : bool :=
  match property pathMapping leftPattern with
  | Some rightPattern =>
      negb (skipped leftPattern rightPattern)
      && bool_decide (is_Some (wildcard_match leftPattern path))
  | None => false
  end.

End Claims.


Module PanelClaims.
Import ScreencastPanel.

(** An object after [dispose]: its panel is disposed and its panel socket
    closed. *)
Definition dispose_object (o : Object) : Object :=
  mkObject (targetUrl o) true Closed.

(** The state after [dispose] of [this]: the static field is cleared and
    the object, if there is one, is disposed. *)
Definition after_dispose (this : ref) (st : State) : State :=
  mkState None (alter dispose_object this (heap st)).

(** The depth of nested calls that [dispose] reaches on an object: the
    call itself, one more through the listener of the panel when the panel
    is not yet disposed, and one more through the listener of the panel
    socket when that is not yet closed. *)
Definition nesting (o : option Object) : nat :=
  match o with
  | Some o =>
      1 + (if panel_isDisposed o then 0 else 1)
      + (match panelSocket o with Closed => 0 | _ => 1 end)
  | None => 1
  end.

Definition disposed (o : Object) : Prop :=
  panel_isDisposed o = true /\ panelSocket o = Closed.

(** What holds between two events: every object other than the recorded
    instance is disposed, and the recorded instance is an object whose
    panel is open and whose panel socket is not closed. *)
Definition consistent (st : State) : Prop :=
  (forall r o, heap st !! r = Some o -> instance st <> Some r -> disposed o) /\
  (forall r, instance st = Some r ->
     exists o, heap st !! r = Some o /\ panel_isDisposed o = false /\ live o = true).

(** At most one panel owns a relay, and it is the recorded instance. *)
Definition at_most_one_relay (st : State) : Prop :=
  (forall r o, heap st !! r = Some o -> live o = true -> instance st = Some r) /\
  (length (live_instances st) <= 1)%nat.

End PanelClaims.

(* ================================================================== *)
(** * src/utils.ts: settings, browser paths and the remaining helpers *)
(* ================================================================== *)

Module Settings.
Import JS Utils.

(** ** Host primitives *)

(** [s.endsWith(suffix)] *)
Fixpoint endsWith (suffix s : string) : bool :=
  String.eqb suffix s
  || match s with
     | EmptyString => false
     | String _ s' => endsWith suffix s'
     end.

(** [s.slice(0, -1)]: the text without its last character. *)
Fixpoint slice_0_minus_1 (s : string) : string :=
  match s with
  | EmptyString => EmptyString
  | String c s' =>
      match s' with
      | EmptyString => EmptyString
      | String _ _ => String c (slice_0_minus_1 s')
      end
  end.

(** [x || y] where [x] may be undefined: [x] when it is defined and truthy,
    [y] otherwise. *)
Definition or_else {A : Type} (truthy : A -> bool) (x : option A) (y : A) : A :=
  match x with
  | Some a => if truthy a then a else y
  | None => y
  end.

(** A number in a boolean context (not-a-number apart): true unless zero. *)
Definition truthy_number (n : Z) : bool := negb (n =? 0).

Definition truthy_boolean (b : bool) : bool := b.

(** [x] when it is defined ([typeof x !== "undefined"]), [y] otherwise. *)
Definition defined_or {A : Type} (x : option A) (y : A) : A :=
  match x with
  | Some a => a
  | None => y
  end.

(** What the module asks of [os], [path] and the file system.
    [pathExists] is [fse.pathExists], taken at the time of the call. *)
Class System : Type := {
  os_platform : string;
  os_tmpdir : string;
  path_join : string -> string -> string;
  pathExists : string -> bool;
}.

(** ** Types and constants *)

Inductive BrowserFlavor : Type := Default | Stable | Beta | Dev | Canary.

Definition BrowserFlavor_eqb (a b : BrowserFlavor) : bool :=
  match a, b with
  | Default, Default | Stable, Stable | Beta, Beta | Dev, Dev | Canary, Canary => true
  | _, _ => false
  end.

Inductive Platform : Type := Windows | OSX | Linux.

(** A value of type [string | boolean]. *)
Inductive StringOrBoolean : Type :=
| Flag (b : bool)
| Text (s : string).

Definition truthy_string_or_boolean (v : StringOrBoolean) : bool :=
  match v with
  | Flag b => b
  | Text s => truthy s
  end.

Record IBrowserPath : Type := mkBrowserPath {
  windows_primary : string;
  windows_secondary : string;
  osx : string;
}.

(** [IDevToolsSettings].  The field [userDataDir] is given the type of the
    variable the code returns in it. *)
Record IDevToolsSettings : Type := mkDevToolsSettings {
  hostname : string;
  port : Z;
  useHttps : bool;
  defaultUrl : string;
  userDataDir : option StringOrBoolean;
  timeout : Z;
}.

(** [Partial<IUserConfig>]: every property may be absent. *)
Record IUserConfig : Type := mkUserConfig {
  config_url : option string;
  config_urlFilter : option string;
  config_browserFlavor : option BrowserFlavor;
  config_hostname : option string;
  config_port : option Z;
  config_useHttps : option bool;
  config_userDataDir : option StringOrBoolean;
  config_webRoot : option string;
  config_pathMapping : option IStringDictionary;
  config_sourceMapPathOverrides : option IStringDictionary;
  config_sourceMaps : option bool;
  config_timeout : option Z;
}.

(** The value of [config = {}]. *)
Definition no_config : IUserConfig :=
  mkUserConfig None None None None None None None None None None None None.

(** [vscode.workspace.getConfiguration(SETTINGS_STORE_NAME)]: what
    [settings.get] returns for each of the names the module asks for. *)
Record Configuration : Type := mkConfiguration {
  get_hostname : option string;
  get_port : option Z;
  get_useHttps : option bool;
  get_defaultUrl : option string;
  get_timeout : option Z;
  get_userDataDir : option StringOrBoolean;
  get_browserFlavor : option BrowserFlavor;
  get_pathMapping : option IStringDictionary;
  get_sourceMapPathOverrides : option IStringDictionary;
  get_webRoot : option string;
  get_sourceMaps : option bool;
}.

Record IRuntimeConfig : Type := mkRuntimeConfig {
  pathMapping : IStringDictionary;
  sourceMapPathOverrides : IStringDictionary;
  sourceMaps : bool;
  webRoot : string;
}.

Definition SETTINGS_DEFAULT_USE_HTTPS : bool := false.
Definition SETTINGS_DEFAULT_HOSTNAME : string := "localhost".
Definition SETTINGS_DEFAULT_PORT : Z := 9222.
Definition SETTINGS_DEFAULT_URL : string := "about:blank".
Definition SETTINGS_DEFAULT_PATH_MAPPING : IStringDictionary :=
  [("/", "${workspaceFolder}")].
Definition SETTINGS_DEFAULT_WEB_ROOT : string := "${workspaceFolder}".
Definition SETTINGS_DEFAULT_SOURCE_MAPS : bool := true.
Definition SETTINGS_DEFAULT_ATTACH_TIMEOUT : Z := 10000.

(** [v === true] *)
Definition strictly_true (v : option StringOrBoolean) : bool :=
  match v with
  | Some (Flag true) => true
  | _ => false
  end.

(** [typeof v === "undefined"] *)
Definition undefined {A : Type} (v : option A) : bool :=
  match v with
  | None => true
  | Some _ => false
  end.

(** [!v] *)
Definition falsy (v : option StringOrBoolean) : bool :=
  match v with
  | None => true
  | Some d => negb (truthy_string_or_boolean d)
  end.

(** ** removeTrailingSlash *)

Definition removeTrailingSlash (uri : string) : string :=
  if endsWith "/" uri then slice_0_minus_1 uri else uri.

(** ** getRemoteEndpointSettings *)

Section WithSystem.
Context `{System}.

Definition getRemoteEndpointSettings (settings : Configuration) (config : IUserConfig)
  : IDevToolsSettings :=
  let hostname :=
    or_else truthy (config_hostname config)
      (or_else truthy (get_hostname settings) SETTINGS_DEFAULT_HOSTNAME) in
  let port :=
    or_else truthy_number (config_port config)
      (or_else truthy_number (get_port settings) SETTINGS_DEFAULT_PORT) in
  let useHttps :=
    or_else truthy_boolean (config_useHttps config)
      (or_else truthy_boolean (get_useHttps settings) SETTINGS_DEFAULT_USE_HTTPS) in
  let defaultUrl :=
    or_else truthy (config_url config)
      (or_else truthy (get_defaultUrl settings) SETTINGS_DEFAULT_URL) in
  let timeout :=
    or_else truthy_number (config_timeout config)
      (or_else truthy_number (get_timeout settings) SETTINGS_DEFAULT_ATTACH_TIMEOUT) in
  let browserPathSet := defined_or (config_browserFlavor config) Default in
  let userDataDir : option StringOrBoolean :=
    match config_userDataDir config with
    | Some dir => Some dir
    | None => get_userDataDir settings
    end in
  let userDataDir : option StringOrBoolean :=
    if strictly_true userDataDir
       || (undefined userDataDir && BrowserFlavor_eqb browserPathSet Default)
    then
      Some (Text (path_join os_tmpdir
                    ("vscode-edge-devtools-userdatadir_" +:+ Number_toString port)))
    else if falsy userDataDir then Some (Text EmptyString)
    else userDataDir in
  mkDevToolsSettings hostname port useHttps defaultUrl userDataDir timeout.

(** ** getPlatform, getBrowserPath and verifyFlavorPath *)

Definition getPlatform : Platform :=
  if String.eqb os_platform "darwin" then OSX
  else if String.eqb os_platform "win32" then Windows
  else Linux.

(** [process.env.LOCALAPPDATA || "/"] *)
Definition WIN_APP_DATA (LOCALAPPDATA : option string) : string :=
  or_else truthy LOCALAPPDATA "/".

(** The map that [initialize] fills, in the order of insertion. *)
Definition msEdgeBrowserMapping (LOCALAPPDATA : option string)
  : list (BrowserFlavor * IBrowserPath) :=
  [ (Stable,
     mkBrowserPath
       "C:\Program Files (x86)\Microsoft\Edge\Application\msedge.exe"
       (path_join (WIN_APP_DATA LOCALAPPDATA) "Microsoft\Edge\Application\msedge.exe")
       "/Applications/Microsoft Edge.app/Contents/MacOS/Microsoft Edge");
    (Beta,
     mkBrowserPath
       "C:\Program Files (x86)\Microsoft\Edge Beta\Application\msedge.exe"
       (path_join (WIN_APP_DATA LOCALAPPDATA) "Microsoft\Edge Beta\Application\msedge.exe")
       "/Applications/Microsoft Edge Beta.app/Contents/MacOS/Microsoft Edge Beta");
    (Dev,
     mkBrowserPath
       "C:\Program Files (x86)\Microsoft\Edge Dev\Application\msedge.exe"
       (path_join (WIN_APP_DATA LOCALAPPDATA) "Microsoft\Edge Dev\Application\msedge.exe")
       "/Applications/Microsoft Edge Dev.app/Contents/MacOS/Microsoft Edge Dev");
    (Canary,
     mkBrowserPath
       "C:\Program Files (x86)\Microsoft\Edge SxS\Application\msedge.exe"
       (path_join (WIN_APP_DATA LOCALAPPDATA) "Microsoft\Edge SxS\Application\msedge.exe")
       "/Applications/Microsoft Edge Canary.app/Contents/MacOS/Microsoft Edge Canary") ].

(** [map.get(key)] *)
Fixpoint Map_get (map : list (BrowserFlavor * IBrowserPath)) (key : BrowserFlavor)
  : option IBrowserPath :=
  match map with
  | [] => None
  | (k, v) :: rest => if BrowserFlavor_eqb k key then Some v else Map_get rest key
  end.

Definition is_platform (platform expected : Platform) : bool :=
  match platform, expected with
  | Windows, Windows | OSX, OSX | Linux, Linux => true
  | _, _ => false
  end.

(** [flavor === "Default"], for the flavor [verifyFlavorPath] was given. *)
Definition is_default (flavor : option BrowserFlavor) : bool :=
  match flavor with
  | Some Default => true
  | _ => false
  end.

(** The inner function of [verifyFlavorPath]. *)
Definition findFlavorPath (flavor : option BrowserFlavor) (platform : Platform)
    (browserPath : option IBrowserPath) : string :=
  match browserPath with
  | None => EmptyString
  | Some browserPath =>
      if pathExists (windows_primary browserPath)
         && (is_platform platform Windows || is_default flavor)
      then windows_primary browserPath
      else if pathExists (windows_secondary browserPath)
              && (is_platform platform Windows || is_default flavor)
      then windows_secondary browserPath
      else if pathExists (osx browserPath)
              && (is_platform platform OSX || is_default flavor)
      then osx browserPath
      else EmptyString
  end.

(** The loop of [verifyFlavorPath] over the values of the map.  [item] is
    the variable of that name, which the loop assigns; the function ends
    with [findFlavorPath(item)]. *)
Fixpoint verifyFlavorPath_loop (flavor : option BrowserFlavor) (platform : Platform)
    (values : list IBrowserPath) (item : option IBrowserPath) : string :=
  match values with
  | [] => findFlavorPath flavor platform item
  | value :: rest =>
      let result := findFlavorPath flavor platform (Some value) in
      if truthy result then result
      else verifyFlavorPath_loop flavor platform rest (Some value)
  end.

Definition verifyFlavorPath (LOCALAPPDATA : option string)
    (flavor : option BrowserFlavor) (platform : Platform) : string :=
  let map := msEdgeBrowserMapping LOCALAPPDATA in
  let item := Map_get map (defined_or flavor Default) in
  match item with
  | None => verifyFlavorPath_loop flavor platform map.*2 item
  | Some _ => findFlavorPath flavor platform item
  end.

Definition getBrowserPath (LOCALAPPDATA : option string) (settings : Configuration)
    (config : IUserConfig) : string :=
  let flavor :=
    match config_browserFlavor config with
    | Some f => Some f
    | None => get_browserFlavor settings
    end in
  match getPlatform with
  | Windows => verifyFlavorPath LOCALAPPDATA flavor Windows
  | OSX => verifyFlavorPath LOCALAPPDATA flavor OSX
  | Linux => EmptyString
  end.

End WithSystem.

(** ** getRuntimeConfig *)

Section WithDebugCore.
Context `{DebugCore}.

(** The loop of [getRuntimeConfig] that replaces the workspace folder in
    the values of the path mapping; [entries] are the properties still to
    enumerate.  It stops at the first call that throws. *)
Fixpoint resolveMapping (workspaceFolders : WorkspaceFolders)
    (pathMapping entries resolvedMappingOverrides : IStringDictionary)
  : Completion IStringDictionary :=
  match entries with
  | [] => Normal resolvedMappingOverrides
  | (customPathMapped, value) :: rest =>
      match hasOwnProperty "pathMapping" pathMapping customPathMapped with
      | Normal true =>
          match replaceWorkSpaceFolderPlaceholder workspaceFolders value with
          | Normal resolved =>
              resolveMapping workspaceFolders pathMapping rest
                (set_property resolvedMappingOverrides customPathMapped resolved)
          | Throw e => Throw e
          end
      | Normal false =>
          resolveMapping workspaceFolders pathMapping rest resolvedMappingOverrides
      | Throw e => Throw e
      end
  end.

(** [getRuntimeConfig].  [SETTINGS_DEFAULT_PATH_OVERRIDES] is a parameter:
    one of its keys holds a character outside the strings modelled here. *)
Definition getRuntimeConfig (SETTINGS_DEFAULT_PATH_OVERRIDES : IStringDictionary)
    (workspaceFolders : WorkspaceFolders) (settings : Configuration)
    (config : IUserConfig) : Completion IRuntimeConfig :=
  let pathMapping :=
    defined_or (config_pathMapping config)
      (defined_or (get_pathMapping settings) SETTINGS_DEFAULT_PATH_MAPPING) in
  let sourceMapPathOverrides :=
    defined_or (config_sourceMapPathOverrides config)
      (defined_or (get_sourceMapPathOverrides settings) SETTINGS_DEFAULT_PATH_OVERRIDES) in
  let webRoot :=
    or_else truthy (config_webRoot config)
      (or_else truthy (get_webRoot settings) SETTINGS_DEFAULT_WEB_ROOT) in
  let sourceMaps :=
    defined_or (config_sourceMaps config)
      (defined_or (get_sourceMaps settings) SETTINGS_DEFAULT_SOURCE_MAPS) in
  match resolveOverrides webRoot sourceMapPathOverrides with
  | Normal resolvedOverrides =>
      match resolveMapping workspaceFolders pathMapping pathMapping [] with
      | Normal resolvedMappingOverrides =>
          Normal (mkRuntimeConfig resolvedMappingOverrides resolvedOverrides
                    sourceMaps webRoot)
      | Throw e => Throw e
      end
  | Throw e => Throw e
  end.

End WithDebugCore.

(** ** openNewTab *)

Section WithHost.
Context `{Host}.

#[local] Existing Instances IO_ret IO_bind.

Definition newTab_uri (hostname : string) (port : Z) (tabUrl : option string) : string :=
  "http://" +:+ hostname +:+ ":" +:+ Number_toString port +:+ "/json/new?"
  +:+ ToString tabUrl.

(** [openNewTab]; a result [None] is [undefined]. *)
Definition openNewTab (hostname : string) (port : Z) (tabUrl : option string)
  : IO (Promise (option JSValue)) :=
  p ← fetchUri (newTab_uri hostname port tabUrl) ∅;
  mret
    (async_result
       (awaited ← await p;
        Some
          match awaited with
          | Normal json =>
              match JSON_parse json with
              | Normal target => Normal (Some target)
              | Throw _ => Normal None
              end
          | Throw _ => Normal None
          end)).

End WithHost.

End Settings.

(* ================================================================== *)
(** * Further notions used in the statements *)
(* ================================================================== *)

Module Notions.
Import JS Utils Claims Settings.

(** A replacement text in which [replace] expands nothing: no dollar sign
    is followed by a dollar sign, an ampersand, a backquote or a quote. *)
Fixpoint expands_nothing (replacement : string) : bool :=
  match replacement with
  | EmptyString => true
  | String c r =>
      match r with
      | String d _ =>
          negb (Ascii.eqb c "$"
                && existsb (Ascii.eqb d) ["$"; "&"; "`"; "'"]%char)
          && expands_nothing r
      | EmptyString => true
      end
  end.

(** The resolution of one entry of the source-map overrides. *)
Definition resolve_entry (webRoot : string) (entry : string * string) : string * string :=
  (replaceWebRootInSourceMapPathOverridesEntry webRoot entry.1,
   replaceWebRootInSourceMapPathOverridesEntry webRoot entry.2).

(** A key that an assignment appends to an object that lacks it: no array
    index, which goes before the other keys, and not [__proto__], which
    creates no property. *)
Definition ordinary_key (key : string) : bool :=
  negb (String.eqb key "__proto__")
  && match array_index key with None => true | Some _ => false end.

(** The keys of a given length, in the order of the list. *)
Definition of_length (n : nat) (keys : list string) : list string :=
  List.filter (fun k => (String.length k =? n)%nat) keys.

Section Browsers.
Context `{System}.

(** The paths [findFlavorPath] looks at for one entry of the map, in the
    order it looks at them. *)
Definition candidates (flavor : option BrowserFlavor) (platform : Platform)
    (browserPath : IBrowserPath) : list string :=
  (if is_platform platform Windows || is_default flavor
   then [windows_primary browserPath; windows_secondary browserPath] else [])
  ++ (if is_platform platform OSX || is_default flavor
      then [osx browserPath] else []).

(** The first path of a list that exists, the empty text when none does. *)
Definition first_existing (paths : list string) : string :=
  hd EmptyString (List.filter pathExists paths).

(** The entries of the map that [verifyFlavorPath] goes through for a
    flavor: the entry of that flavor, or all of them when the flavor is
    absent or [Default]. *)
Definition entries_for (LOCALAPPDATA : option string) (flavor : option BrowserFlavor)
  : list IBrowserPath :=
  match Map_get (msEdgeBrowserMapping LOCALAPPDATA) (defined_or flavor Default) with
  | Some entry => [entry]
  | None => (msEdgeBrowserMapping LOCALAPPDATA).*2
  end.

End Browsers.

(** A machine for the examples: Windows, with the listed paths on disk.  On
    the paths of the examples [path.join] puts a backslash between its
    arguments. *)
Definition windows_machine (present : list string) : System :=
  {| os_platform := "win32";
     os_tmpdir := "C:\Temp";
     path_join := fun a b => a +:+ "\" +:+ b;
     pathExists := fun p => existsb (String.eqb p) present |}.

End Notions.
(* ================================================================== *)
(** * Target discovery *)
(* ================================================================== *)

Import JS Utils Claims.

Section DiscoveryProofs.
Context `{Host}.

Lemma fetchUri_run (uri : string) (options : RequestOptions) (n : Net) :
  fetchUri uri options n =
  (settle (get (request_for uri options) (world n)).1,
   mkNet (get (request_for uri options) (world n)).2
     (sent n ++ [request_for uri options])).
Proof.
  unfold fetchUri, issue, mbind, IO_bind, mret, IO_ret.
  destruct (get (request_for uri options) (world n)) as [x w]. reflexivity.
Qed.

(** C6, as amended.  [fetchUri] resolves with the accumulated body exactly
    when the response ends with status 200; when it ends with any other
    status it rejects with an Error whose message is the trimmed body; when
    the request emits an error it rejects with that error.  When the
    connection fails after the response has arrived, or nothing ever
    answers, the promise stays pending. *)
Theorem fetchUri_settles_by_status (uri : string) (options : RequestOptions)
    (n : Net) (x : HttpExchange) (w : World) :
  get (request_for uri options) (world n) = (x, w) ->
  let p := (fetchUri uri options n).1 in
  (forall statusCode chunks, x = ResponseEnd statusCode chunks ->
     (statusCode = 200 -> p = Resolved (accumulate chunks)) /\
     (statusCode <> 200 ->
      p = Rejected (Error (trim (accumulate chunks))) /\
      message (Error (trim (accumulate chunks))) = trim (accumulate chunks))) /\
  (forall e, x = RequestError e -> p = Rejected e) /\
  (forall statusCode chunks e, x = ResponseAborted statusCode chunks e -> p = Pending) /\
  (x = NoAnswer -> p = Pending) /\
  ((exists text, p = Resolved text) <-> exists chunks, x = ResponseEnd 200 chunks) /\
  ((exists e, p = Rejected e) <->
   (exists e, x = RequestError e) \/
   (exists statusCode chunks, x = ResponseEnd statusCode chunks /\ statusCode <> 200)).
Proof.
  intros Hget p. subst p. rewrite fetchUri_run, Hget. cbn [fst].
  split; [|split; [|split; [|split; [|split]]]].
  - intros statusCode chunks ->. cbn [settle]. split.
    + intros ->. reflexivity.
    + intros Hne. apply Z.eqb_neq in Hne. rewrite Hne. split; reflexivity.
  - intros e ->. reflexivity.
  - intros statusCode chunks e ->. reflexivity.
  - intros ->. reflexivity.
  - split.
    + intros [text Htext].
      destruct x as [e|statusCode chunks|statusCode chunks e|]; cbn [settle] in Htext;
        try discriminate.
      destruct (Z.eqb_spec statusCode 200) as [->|]; [eauto | discriminate].
    + intros [chunks ->]. eexists. reflexivity.
  - split.
    + intros [e He].
      destruct x as [e'|statusCode chunks|statusCode chunks e'|]; cbn [settle] in He;
        try discriminate.
      * left. eauto.
      * right. exists statusCode, chunks. split; [reflexivity|].
        intros ->. discriminate.
    + intros [[e ->]|(statusCode & chunks & -> & Hne)]; cbn [settle].
      * eauto.
      * apply Z.eqb_neq in Hne. rewrite Hne. eauto.
Qed.

(** What [getListOfTargets] does, by the outcome of the first exchange. *)
Lemma getListOfTargets_run (hostname : string) (port : Z) (useHttps : bool) (n : Net) :
  let rq1 := discovery_request hostname port useHttps "/json/list" in
  let rq2 := discovery_request hostname port useHttps "/json" in
  let x1 := get rq1 (world n) in
  let x2 := get rq2 x1.2 in
  getListOfTargets hostname port useHttps n =
  (async_result
     (parse_or_empty <$> first_nonempty_body [settle x1.1; settle x2.1]),
   match settle x1.1 with
   | Resolved (String _ _) | Pending => mkNet x1.2 (sent n ++ [rq1])
   | _ => mkNet x2.2 (sent n ++ [rq1; rq2])
   end).
Proof.
  intros rq1 rq2 x1 x2.
  unfold getListOfTargets, mbind, IO_bind, mret, IO_ret. cbn [discovery_loop].
  unfold mbind, IO_bind, checkDiscoveryEndpoint.
  rewrite fetchUri_run. fold (discovery_request hostname port useHttps "/json/list").
  fold rq1. fold x1.
  destruct (settle x1.1) as [[|c body]|e|] eqn:H1; cbn [await truthy first_nonempty_body].
  - rewrite fetchUri_run. fold (discovery_request hostname port useHttps "/json").
    fold rq2. cbn [world sent]. fold x2.
    rewrite <- app_assoc. cbn [app].
    destruct (settle x2.1) as [[|c body]|e|]; reflexivity.
  - reflexivity.
  - rewrite fetchUri_run. fold (discovery_request hostname port useHttps "/json").
    fold rq2. cbn [world sent]. fold x2.
    rewrite <- app_assoc. cbn [app].
    destruct (settle x2.1) as [[|c body]|e'|]; reflexivity.
  - reflexivity.
Qed.

Lemma issued_app {A} (m : IO A) (n : Net) (rqs : list Request) :
  sent (m n).2 = sent n ++ rqs -> issued m n = rqs.
Proof.
  intros Hs. unfold issued. rewrite Hs. apply drop_app_length.
Qed.

(** The requests [getListOfTargets] issues. *)
Lemma getListOfTargets_issued (hostname : string) (port : Z) (useHttps : bool)
    (n : Net) :
  let rq1 := discovery_request hostname port useHttps "/json/list" in
  let rq2 := discovery_request hostname port useHttps "/json" in
  issued (getListOfTargets hostname port useHttps) n
  = match settle (get rq1 (world n)).1 with
    | Resolved (String _ _) | Pending => [rq1]
    | _ => [rq1; rq2]
    end.
Proof.
  intros rq1 rq2. apply issued_app.
  pose proof (getListOfTargets_run hostname port useHttps n) as Hrun.
  cbv zeta in Hrun. rewrite Hrun. cbn [snd]. fold rq1.
  destruct (settle (get rq1 (world n)).1) as [[|c body]|e|]; reflexivity.
Qed.

End DiscoveryProofs.

Section DiscoveryClaims.
Context `{Host}.

(** C1, as amended.  [getListOfTargets] first requests [/json/list]; it goes
    on to request [/json] exactly when the first fetch threw or failed or
    returned the empty body (the body is tested as it is, without trimming);
    it parses the body of the first endpoint that returned a non-empty body,
    whatever that body is, and stays pending when a fetch it waits for does.
    When [/json/list] answers with status 500 and [/json] returns a text
    that parses to an array, the result is that array. *)
Theorem getListOfTargets_fallback (hostname : string) (port : Z) (useHttps : bool)
    (n : Net) :
  let rq1 := discovery_request hostname port useHttps "/json/list" in
  let rq2 := discovery_request hostname port useHttps "/json" in
  let x1 := get rq1 (world n) in
  let x2 := get rq2 x1.2 in
  let requests := issued (getListOfTargets hostname port useHttps) n in
  let result := (getListOfTargets hostname port useHttps n).1 in
  (exists later, requests = rq1 :: later) /\
  (requests = [rq1; rq2] <-> failed_or_empty (settle x1.1)) /\
  (requests = [rq1] <-> ~ failed_or_empty (settle x1.1)) /\
  result = async_result
             (parse_or_empty <$> first_nonempty_body [settle x1.1; settle x2.1]) /\
  (forall chunks1 chunks2 targets,
     x1.1 = ResponseEnd 500 chunks1 ->
     x2.1 = ResponseEnd 200 chunks2 ->
     JSON_parse (accumulate chunks2) = Normal targets ->
     result = Resolved targets).
Proof.
  intros rq1 rq2 x1 x2 requests result.
  pose proof (getListOfTargets_run hostname port useHttps n) as Hrun.
  cbv zeta in Hrun. fold rq1 rq2 x1 x2 in Hrun.
  assert (Hres : result =
            async_result
              (parse_or_empty <$> first_nonempty_body [settle x1.1; settle x2.1])).
  { subst result. rewrite Hrun. reflexivity. }
  pose proof (getListOfTargets_issued hostname port useHttps n) as Hreq.
  cbv zeta in Hreq. fold rq1 rq2 x1 requests in Hreq.
  split; [|split; [|split; [|split]]].
  - rewrite Hreq. destruct (settle x1.1) as [[|c body]|e|]; eauto.
  - rewrite Hreq. destruct (settle x1.1) as [[|c body]|e|]; cbn [failed_or_empty];
      split; intros Hx; try done.
  - rewrite Hreq. destruct (settle x1.1) as [[|c body]|e|]; cbn [failed_or_empty];
      split; intros Hx; try done; try tauto; exfalso; by apply Hx.
  - exact Hres.
  - intros chunks1 chunks2 targets H1 H2 Hparse. rewrite Hres, H1, H2.
    cbn [settle first_nonempty_body]. change (500 =? 200) with false.
    change (200 =? 200) with true. cbv iota.
    destruct (accumulate chunks2) as [|c body] eqn:Hbody; cbn [truthy fmap option_fmap option_map];
      unfold parse_or_empty; rewrite Hparse; reflexivity.
Qed.

(** C5, as amended.  [getListOfTargets] never throws to its caller: its
    promise is never rejected.  It stays pending exactly when a fetch it
    waits for does.  Otherwise it resolves: with the empty sequence when
    both fetches fail and when the chosen body does not parse, and else with
    the value [JSON.parse] returns for the chosen body, as it is; that value
    is a sequence when the body is the text of an array. *)
Theorem getListOfTargets_never_throws (hostname : string) (port : Z)
    (useHttps : bool) (n : Net) :
  let rq1 := discovery_request hostname port useHttps "/json/list" in
  let rq2 := discovery_request hostname port useHttps "/json" in
  let x1 := get rq1 (world n) in
  let x2 := get rq2 x1.2 in
  let chosen := first_nonempty_body [settle x1.1; settle x2.1] in
  let result := (getListOfTargets hostname port useHttps n).1 in
  (forall e, result <> Rejected e) /\
  (result = Pending <-> chosen = None) /\
  (result = Pending <->
   settle x1.1 = Pending \/ (failed_or_empty (settle x1.1) /\ settle x2.1 = Pending)) /\
  (forall body, chosen = Some body ->
     (forall e, JSON_parse body = Throw e -> result = Resolved (JArray [])) /\
     (forall value, JSON_parse body = Normal value -> result = Resolved value) /\
     (forall items, JSON_parse body = Normal (JArray items) ->
        result = Resolved (JArray items))) /\
  ((exists e1 e2, settle x1.1 = Rejected e1 /\ settle x2.1 = Rejected e2) ->
   result = Resolved (JArray [])).
Proof.
  intros rq1 rq2 x1 x2 chosen result.
  pose proof (getListOfTargets_run hostname port useHttps n) as Hrun.
  cbv zeta in Hrun. fold rq1 rq2 x1 x2 chosen in Hrun.
  assert (Hres : result = async_result (parse_or_empty <$> chosen))
    by (subst result; by rewrite Hrun).
  assert (Hbody : forall body, chosen = Some body ->
            result = match JSON_parse body with
                     | Normal value => Resolved value
                     | Throw _ => Resolved (JArray [])
                     end).
  { intros body Hc. rewrite Hres, Hc. cbn. unfold parse_or_empty.
    by destruct (JSON_parse body). }
  split; [|split; [|split; [|split]]].
  - intros e. rewrite Hres. destruct chosen as [body|]; [|discriminate].
    cbn. unfold parse_or_empty. by destruct (JSON_parse body).
  - rewrite Hres. destruct chosen as [body|]; cbn.
    + unfold parse_or_empty. destruct (JSON_parse body); split; discriminate.
    + split; reflexivity.
  - rewrite Hres. subst chosen. cbn [first_nonempty_body].
    destruct (settle x1.1) as [[|c1 body1]|e1|];
      [destruct (settle x2.1) as [[|c2 body2]|e2|]| |
       destruct (settle x2.1) as [[|c2 body2]|e2|]|];
      cbn [truthy failed_or_empty fmap option_fmap option_map async_result];
      unfold parse_or_empty;
      repeat match goal with
             | |- context [JSON_parse ?b] => destruct (JSON_parse b)
             end;
      intuition congruence.
  - intros body Hc. specialize (Hbody body Hc). split; [|split].
    + intros e He. by rewrite Hbody, He.
    + intros value Hv. by rewrite Hbody, Hv.
    + intros items Hv. by rewrite Hbody, Hv.
  - intros (e1 & e2 & H1 & H2).
    assert (Hc : chosen = Some EmptyString) by (subst chosen; by rewrite H1, H2).
    rewrite (Hbody _ Hc). destruct JSON_parse_empty as [e He]. by rewrite He.
Qed.

End DiscoveryClaims.

(** The instance of C6, as amended, at the server that answers
    [/json/list] with status 500: the promise is rejected with the trimmed
    body. *)
Lemma fetchUri_settles_by_status_witness :
  (fetchUri (H := Examples.scripted Examples.failing_list)
     "http://localhost:9222/json/list" ∅ (Examples.start _)).1
  = Rejected (Error "Internal Server Error").
Proof.
  pose proof (fetchUri_settles_by_status (H := Examples.scripted Examples.failing_list)
                "http://localhost:9222/json/list" ∅ (Examples.start _) _ _ eq_refl)
    as [Hstatus _].
  destruct (Hstatus 500 [" Internal Server "; "Error "] eq_refl) as [_ Hother].
  destruct Hother as [Hp _]; [discriminate|]. exact Hp.
Defined.

(** C6, as stated, fails: the connection is reset while the server sends
    the body.  The response emits the error; the request, to which
    [fetchUri] listens, does not, and the promise is not rejected. *)
Lemma rejects_network_errors_counterexample :
  ~ rejects_network_errors (H := Examples.scripted Examples.reset_in_body)
      "http://localhost:9222/json/list" ∅ (Examples.start _).
Proof.
  intros Hrejects.
  specialize (Hrejects (mkJsError "Error" "aborted") eq_refl).
  vm_compute in Hrejects. discriminate.
Qed.

(** The instance of C1, as amended, at the same server: both endpoints are
    requested and the result is the array [/json] returned. *)
Lemma getListOfTargets_fallback_witness :
  (getListOfTargets (H := Examples.scripted Examples.failing_list)
     "localhost" 9222 false (Examples.start _)).1
  = Resolved Examples.one_target.
Proof.
  pose proof (getListOfTargets_fallback (H := Examples.scripted Examples.failing_list)
                "localhost" 9222 false (Examples.start _)) as Hall.
  cbv zeta in Hall. destruct Hall as (_ & _ & _ & _ & H500).
  apply (H500 [" Internal Server "; "Error "] Examples.one_target_text).
  - reflexivity.
  - reflexivity.
  - vm_compute. reflexivity.
Defined.

(** The instance of C5, as amended, at a host without a server: the result
    is the empty sequence. *)
Lemma getListOfTargets_never_throws_witness :
  (getListOfTargets (H := Examples.scripted Examples.unreachable)
     "localhost" 9222 false (Examples.start _)).1
  = Resolved (JArray []).
Proof.
  destruct (getListOfTargets_never_throws (H := Examples.scripted Examples.unreachable)
              "localhost" 9222 false (Examples.start _)) as (_ & _ & _ & _ & Hfail).
  apply Hfail. do 2 eexists. split; reflexivity.
Defined.

(** C5, as stated, fails: a server answers [/json/list] with the JSON text
    [null].  The promise resolves with [null], which is no sequence. *)
Lemma returns_sequence_counterexample :
  ~ returns_sequence (H := Examples.scripted Examples.null_list)
      "localhost" 9222 false (Examples.start _).
Proof.
  intros [targets Hres]. vm_compute in Hres. discriminate.
Qed.

(** C1, as stated, fails: a server answers [/json/list] with status 200 and
    a body of one space.  The body is empty after trimming, yet [/json] is
    not requested. *)
Lemma falls_back_on_blank_counterexample :
  ~ falls_back_on_blank (H := Examples.scripted Examples.blank_list)
      "localhost" 9222 false (Examples.start _).
Proof.
  unfold falls_back_on_blank. intros [_ Hback].
  assert (Hlen : length (issued (getListOfTargets (H := Examples.scripted Examples.blank_list)
                           "localhost" 9222 false) (Examples.start _)) = 1%nat)
    by (vm_compute; reflexivity).
  rewrite Hback in Hlen; [discriminate|].
  vm_compute. reflexivity.
Qed.

(* ================================================================== *)
(** * fixRemoteWebSocket *)
(* ================================================================== *)

Section FixRemoteWebSocket.
Implicit Types (σ : Store) (target : ref).

#[local] Arguments String.append !s1 s2 : simpl nomatch.

(** A replacement text without a dollar sign is inserted as it is. *)
Lemma GetSubstitution_plain (matched before after replacement : string) :
  countChar "$" replacement = 0%nat ->
  GetSubstitution matched before after replacement = replacement.
Proof.
  induction replacement as [|c r IH]; [reflexivity|].
  cbn [countChar GetSubstitution]. rewrite (Ascii.eqb_sym c "$").
  destruct (Ascii.eqb "$" c); [discriminate|].
  intros Hr. by rewrite IH.
Qed.

Lemma get_field_set_field_ne σ target field field' value :
  field <> field' ->
  get_field (set_field σ target field value) target field' = get_field σ target field'.
Proof.
  intros Hne. unfold get_field, set_field. rewrite lookup_alter.
  rewrite decide_True by reflexivity.
  destruct (σ !! target) as [o|]; cbn; [|reflexivity].
  by rewrite lookup_insert_ne.
Qed.

Lemma lookup_set_field_ne σ target other field value :
  other <> target -> set_field σ target field value !! other = σ !! other.
Proof.
  intros Hne. unfold set_field. rewrite lookup_alter.
  by rewrite decide_False by congruence.
Qed.

Lemma dom_set_field σ target field value :
  dom (set_field σ target field value) = dom σ.
Proof. unfold set_field. apply dom_alter_L. Qed.

(** The function returns the reference it was given, whatever it does to
    the store. *)
Lemma fixRemoteWebSocket_returns_target remoteAddress remotePort target σ :
  (fixRemoteWebSocket remoteAddress remotePort target σ).1 = target.
Proof.
  unfold fixRemoteWebSocket.
  destruct (get_field σ target "webSocketDebuggerUrl") as [url|]; [|reflexivity].
  destruct (truthy url); [|reflexivity].
  destruct (String_match false addressRegex url); reflexivity.
Qed.

(** The store after the call is the store before it, or that store with the
    field [webSocketDebuggerUrl] of the target assigned. *)
Lemma fixRemoteWebSocket_store remoteAddress remotePort target σ :
  (fixRemoteWebSocket remoteAddress remotePort target σ).2 = σ \/
  exists value,
    (fixRemoteWebSocket remoteAddress remotePort target σ).2
    = set_field σ target "webSocketDebuggerUrl" value.
Proof.
  unfold fixRemoteWebSocket.
  destruct (get_field σ target "webSocketDebuggerUrl") as [url|]; [|by left].
  destruct (truthy url); [|by left].
  destruct (String_match false addressRegex url); [|by left].
  right. eexists. reflexivity.
Qed.

(** C10.  [fixRemoteWebSocket] works on the object it is given and returns
    that same reference: no object is created, no other object changes, and
    in the target every field other than [webSocketDebuggerUrl] keeps its
    value (or stays absent). *)
Theorem fixRemoteWebSocket_frame (remoteAddress : string) (remotePort : Z)
    (target : ref) (σ : Store) :
  let result := fixRemoteWebSocket remoteAddress remotePort target σ in
  result.1 = target /\
  dom result.2 = dom σ /\
  (forall other : ref, other <> target -> result.2 !! other = σ !! other) /\
  (forall field : string, field <> "webSocketDebuggerUrl" ->
     get_field result.2 target field = get_field σ target field).
Proof.
  intros result. subst result.
  split; [apply fixRemoteWebSocket_returns_target|].
  destruct (fixRemoteWebSocket_store remoteAddress remotePort target σ)
    as [-> | [value ->]].
  - auto.
  - split; [apply dom_set_field|]. split.
    + intros other Hne. by apply lookup_set_field_ne.
    + intros field Hne. by apply get_field_set_field_ne.
Qed.

(** The group of the regular expression captures the text up to the next
    slash.  [host] is a text without a slash; [rest] is empty or starts
    with a slash. *)
Lemma exec_host (host rest : string) :
  countChar "/" host = 0%nat ->
  strip_prefix "/" rest <> None \/ rest = EmptyString ->
  (fix star (s : string) : option (list string) :=
     let stop :=
       match exec false [NOpt (AChar "/")] false s with
       | Some caps => Some (EmptyString :: caps)
       | None => None
       end in
     match s with
     | String c s' =>
         if atom_matches false (ANot "/") c then
           match star s' with
           | Some (w :: caps) => Some (String c w :: caps)
           | _ => stop
           end
         else stop
     | EmptyString => stop
     end) (host +:+ rest) = Some [host].
Proof.
  intros Hhost Hrest.
  match goal with |- ?f (host +:+ rest) = _ => set (star := f) end.
  assert (Hstep : forall c s,
            Ascii.eqb "/" c = false ->
            star (String c s)
            = match star s with
              | Some (w :: caps) => Some (String c w :: caps)
              | _ =>
                  match exec false [NOpt (AChar "/")] false (String c s) with
                  | Some caps => Some (EmptyString :: caps)
                  | None => None
                  end
              end).
  { intros c s Hc. change (star (String c s))
      with (if negb (Ascii.eqb "/" c)
            then match star s with
                 | Some (w :: caps) => Some (String c w :: caps)
                 | _ =>
                     match exec false [NOpt (AChar "/")] false (String c s) with
                     | Some caps => Some (EmptyString :: caps)
                     | None => None
                     end
                 end
            else match exec false [NOpt (AChar "/")] false (String c s) with
                 | Some caps => Some (EmptyString :: caps)
                 | None => None
                 end).
    by rewrite Hc. }
  induction host as [|c host IH].
  - cbn [String.append]. destruct rest as [|d rest]; [reflexivity|].
    destruct Hrest as [Hslash|]; [|discriminate]. cbn [strip_prefix] in Hslash.
    destruct (Ascii.eqb_spec "/" d) as [<-|]; [|done]. reflexivity.
  - cbn [countChar] in Hhost.
    destruct (Ascii.eqb_spec "/" c) as [|Hc]; [discriminate|].
    specialize (IH Hhost). cbn [String.append].
    rewrite Hstep by (by apply Ascii.eqb_neq). by rewrite IH.
Qed.

Lemma String_match_host (host rest : string) :
  host <> EmptyString ->
  countChar "/" host = 0%nat ->
  strip_prefix "/" rest <> None \/ rest = EmptyString ->
  String_match false addressRegex ("ws://" +:+ host +:+ rest) = Some [host].
Proof.
  intros Hne Hhost Hrest. destruct host as [|c host]; [done|].
  cbn [countChar] in Hhost.
  destruct (Ascii.eqb_spec "/" c) as [|Hc]; [discriminate|].
  unfold String_match, addressRegex.
  change ("ws://" +:+ String c host +:+ rest)
    with (String "w" (String "s" (String ":" (String "/" (String "/"
            (String c (host +:+ rest))))))).
  cbn [search exec]. 
  change (atom_matches false (AChar "w") "w") with true.
  change (atom_matches false (AChar "s") "s") with true.
  change (atom_matches false (AChar ":") ":") with true.
  change (atom_matches false (AChar "/") "/") with true.
  change (atom_matches false (ANot "/") c) with (negb (Ascii.eqb "/" c)).
  rewrite (proj2 (Ascii.eqb_neq _ _) Hc). cbn [negb].
  pose proof (exec_host host rest Hhost Hrest) as Hstar. cbn [exec] in Hstar.
  by rewrite Hstar.
Qed.

(** Where the function does what its comment says: the url is [ws://], a
    host without a slash, and a path; the text of the host does not occur
    in the url before the host itself; and the replacement address has no
    dollar sign that [replace] would expand. *)
Lemma fixRemoteWebSocket_replaces_host remoteAddress remotePort target σ
    (host rest : string) :
  get_field σ target "webSocketDebuggerUrl" = Some ("ws://" +:+ host +:+ rest) ->
  host <> EmptyString ->
  countChar "/" host = 0%nat ->
  strip_prefix "/" rest <> None \/ rest = EmptyString ->
  find_first host ("ws://" +:+ host +:+ rest) = Some ("ws://", rest) ->
  countChar "$" (remoteAddress +:+ ":" +:+ Number_toString remotePort) = 0%nat ->
  get_field (fixRemoteWebSocket remoteAddress remotePort target σ).2 target
    "webSocketDebuggerUrl"
  = Some ("ws://" +:+ (remoteAddress +:+ ":" +:+ Number_toString remotePort) +:+ rest).
Proof.
  intros Hurl Hne Hhost Hrest Hfirst Hdollar. unfold fixRemoteWebSocket.
  rewrite Hurl. change (truthy ("ws://" +:+ host +:+ rest)) with true. cbv iota.
  rewrite String_match_host by done. cbn [snd group Nat.pred lookup list_lookup ToString].
  unfold get_field, set_field. rewrite lookup_alter_eq.
  unfold get_field in Hurl. destruct (σ !! target) as [o|]; [|discriminate].
  cbn [fmap option_fmap option_map mbind option_bind].
  rewrite lookup_insert_eq. f_equal. unfold replace. rewrite Hfirst.
  by rewrite GetSubstitution_plain by exact Hdollar.
Qed.

(** A target without the field is returned as it is: the store does not
    change, so no field is added. *)
Lemma fixRemoteWebSocket_no_field remoteAddress remotePort target σ :
  get_field σ target "webSocketDebuggerUrl" = None ->
  fixRemoteWebSocket remoteAddress remotePort target σ = (target, σ).
Proof. intros Hnone. unfold fixRemoteWebSocket. by rewrite Hnone. Qed.

(** The example of the specification: the address the browser reports is
    replaced by the address used to attach. *)
Lemma fixRemoteWebSocket_example :
  let σ : Store :=
    {[ 1%positive := {[ "webSocketDebuggerUrl" := "ws://127.0.0.1:9222/devtools/page/ABC";
                        "id" := "ABC" ]} ]} in
  get_field (fixRemoteWebSocket "10.0.0.5" 9230 1%positive σ).2 1%positive
    "webSocketDebuggerUrl"
  = Some "ws://10.0.0.5:9230/devtools/page/ABC".
Proof. vm_compute. reflexivity. Qed.

(** C4 fails on a host whose text occurs earlier in the url.  For the url
    [ws://ws/devtools/page/ABC] the regular expression captures the host
    [ws]; the replacement of the first occurrence of that text then rewrites
    the scheme and leaves the host in place. *)
Theorem fixRemoteWebSocket_rewrites_first_occurrence :
  let σ : Store :=
    {[ 1%positive := {[ "webSocketDebuggerUrl" := "ws://ws/devtools/page/ABC" ]} ]} in
  String_match false addressRegex "ws://ws/devtools/page/ABC" = Some ["ws"] /\
  get_field (fixRemoteWebSocket "10.0.0.5" 9230 1%positive σ).2 1%positive
    "webSocketDebuggerUrl"
  = Some "10.0.0.5:9230://ws/devtools/page/ABC".
Proof. vm_compute. split; reflexivity. Qed.

End FixRemoteWebSocket.

(* ================================================================== *)
(** * Path mapping *)
(* ================================================================== *)

Section LeftRegex.

#[local] Arguments String.append !s1 s2 : simpl nomatch.

(** Case analysis on a character by its eight bits. *)
Local Ltac each_character c :=
  destruct c as [[] [] [] [] [] [] [] []].

(** The two replacements applied to the escaped pattern work character by
    character. *)
Lemma leftRegexSegment_tokens (leftPattern before1 before2 : string) :
  replaceAll_from "\\" "/" before2
    (replaceAll_from "*" "(.*)" before1 (escapeRegexSpecialChars leftPattern "/*") 0) 0
  = segment_source leftPattern.
Proof.
  revert before1 before2.
  induction leftPattern as [|c rest IH]; intros before1 before2; [reflexivity|].
  each_character c; cbn; rewrite ?IH; reflexivity.
Qed.

Lemma leftRegexSource_tokens (leftPattern : string) :
  leftRegexSource leftPattern = "^" +:+ segment_source leftPattern +:+ "$".
Proof.
  unfold leftRegexSource, replaceAll. by rewrite leftRegexSegment_tokens.
Qed.

Lemma RegExp_parse_segment (leftPattern rest : string) :
  RegExp_parse (segment_source leftPattern +:+ rest)
  = option_map (app (map pattern_node (list_ascii_of_string leftPattern)))
      (RegExp_parse rest).
Proof.
  induction leftPattern as [|c p IH].
  - cbn. by destruct (RegExp_parse rest).
  - each_character c; cbn; rewrite IH; by destruct (RegExp_parse rest).
Qed.

(** The regular expression of a left pattern is always well formed, and it
    is the expression [pattern_regex] describes. *)
Lemma leftRegex_compiles (leftPattern : string) :
  RegExp (leftRegexSource leftPattern) = Normal (pattern_regex leftPattern).
Proof.
  unfold RegExp. rewrite leftRegexSource_tokens.
  change ("^" +:+ segment_source leftPattern +:+ "$")
    with (String "^" (segment_source leftPattern +:+ "$")).
  cbn [RegExp_parse]. change (Ascii.eqb "^" "\") with false.
  change (Ascii.eqb "^" "(") with false. change (Ascii.eqb "^" "^") with true.
  cbv iota. rewrite RegExp_parse_segment. reflexivity.
Qed.

Lemma pattern_match_regex (leftPattern path : string) :
  pattern_match leftPattern path = String_match true (pattern_regex leftPattern) path.
Proof. unfold pattern_match. by rewrite leftRegex_compiles. Qed.

End LeftRegex.

Section SortedKeys.

Lemma insert_by_length_perm (k : string) (keys : list string) :
  insert_by_length k keys ≡ₚ k :: keys.
Proof.
  induction keys as [|k' keys IH]; cbn [insert_by_length]; [reflexivity|].
  destruct (String.length k <? String.length k')%nat; [|reflexivity].
  rewrite IH. apply Permutation_swap.
Qed.

Lemma sort_longest_first_perm (keys : list string) :
  sort_longest_first keys ≡ₚ keys.
Proof.
  induction keys as [|k keys IH]; cbn [sort_longest_first foldr]; [reflexivity|].
  fold (sort_longest_first keys). rewrite insert_by_length_perm. by rewrite IH.
Qed.

Lemma insert_by_length_sorted (k : string) (keys : list string) :
  longest_first keys -> longest_first (insert_by_length k keys).
Proof.
  unfold longest_first.
  induction keys as [|k' keys IH]; intros Hs; cbn [insert_by_length].
  - repeat constructor.
  - apply StronglySorted_inv in Hs as [Hs Hall].
    destruct (Nat.ltb_spec (String.length k) (String.length k')) as [Hlt|Hge].
    + constructor; [by apply IH|].
      rewrite insert_by_length_perm. constructor; [lia|done].
    + constructor; [by constructor|].
      constructor; [done|].
      eapply Forall_impl; [exact Hall|]. cbn. intros; lia.
Qed.

Lemma sort_longest_first_sorted (keys : list string) :
  longest_first (sort_longest_first keys).
Proof.
  induction keys as [|k keys IH]; cbn [sort_longest_first foldr]; [constructor|].
  by apply insert_by_length_sorted.
Qed.

(** In a list sorted longest first, whatever stands before a key is at
    least as long. *)
Lemma longest_first_before (tried rest : list string) (k k' : string) :
  longest_first (tried ++ k :: rest) -> k' ∈ k :: rest ->
  (String.length k' <= String.length k)%nat.
Proof.
  unfold longest_first. induction tried as [|t tried IH]; cbn; intros Hs Hin.
  - apply StronglySorted_inv in Hs as [_ Hall].
    apply elem_of_cons in Hin as [->|Hin]; [lia|].
    rewrite Forall_forall in Hall. by apply Hall.
  - apply StronglySorted_inv in Hs as [Hs _]. by apply IH.
Qed.

End SortedKeys.

Section LoopProofs.
Context `{DebugCore}.

Lemma property_of_key (d : IStringDictionary) (k : string) :
  k ∈ Object_keys d -> is_Some (property d k).
Proof.
  unfold Object_keys. induction d as [|[k' v] d IH]; cbn.
  - intros Hin. by apply elem_of_nil in Hin.
  - intros Hin. destruct (String.eqb_spec k' k) as [->|Hne]; [eauto|].
    apply elem_of_cons in Hin as [->|Hin]; [done|by apply IH].
Qed.

Lemma find_first_split {A} (P : A -> bool) (l : list A) (x : A) :
  List.find P l = Some x ->
  exists tried rest,
    l = tried ++ x :: rest /\ Forall (fun y => P y = false) tried /\ P x = true.
Proof.
  induction l as [|y l IH]; cbn; [discriminate|].
  destruct (P y) eqn:Hy.
  - intros [= ->]. exists [], l. auto.
  - intros Hfind. destruct (IH Hfind) as (tried & rest & -> & Hall & Hx).
    exists (y :: tried), rest. auto.
Qed.

Lemma find_none_all {A} (P : A -> bool) (l : list A) :
  List.find P l = None -> Forall (fun y => P y = false) l.
Proof.
  induction l as [|y l IH]; cbn; [constructor|].
  destruct (P y) eqn:Hy; [discriminate|]. intros Hfind. constructor; auto.
Qed.

(** The loop returns from the first applicable key and runs to its end when
    there is none. *)
Lemma applyPathMapping_loop_find (workspaceFolders : WorkspaceFolders)
    (path : string) (pathMapping : IStringDictionary) (keys : list string) :
  (forall k, k ∈ keys -> is_Some (property pathMapping k)) ->
  applyPathMapping_loop workspaceFolders path pathMapping keys =
  match List.find (applicable pathMapping path) keys with
  | Some k =>
      match entry_result workspaceFolders pathMapping path k with
      | Normal mappedPath => Normal (Some mappedPath)
      | Throw e => Throw e
      end
  | None => Normal None
  end.
Proof.
  induction keys as [|k keys IH]; intros Hkeys; [reflexivity|].
  assert (IH' := IH (fun k' Hin => Hkeys k' (proj2 (elem_of_cons _ _ _) (or_intror Hin)))).
  destruct (Hkeys k (proj2 (elem_of_cons _ _ _) (or_introl eq_refl))) as [r Hr].
  cbn [applyPathMapping_loop List.find]. unfold applicable at 1, skipped.
  rewrite Hr. rewrite leftRegex_compiles.
  destruct (1 <? countChar "*" k)%nat; [exact IH'|].
  destruct (countChar "*" k <? countChar "*" r)%nat; [exact IH'|].
  cbn [orb negb andb]. rewrite pattern_match_regex.
  destruct (String_match true (pattern_regex k) path) as [m|] eqn:Hm.
  - rewrite bool_decide_eq_true_2 by eauto.
    unfold entry_result. rewrite Hr, pattern_match_regex, Hm. reflexivity.
  - rewrite bool_decide_eq_false_2 by (intros [? ?]; discriminate). exact IH'.
Qed.

(** [applyPathMapping] returns the result of the applied key, and the
    source path when no key is applied. *)
Lemma applyPathMapping_applied (workspaceFolders : WorkspaceFolders)
    (sourcePath : string) (pathMapping : IStringDictionary) :
  applyPathMapping workspaceFolders sourcePath pathMapping =
  match applied_key pathMapping sourcePath with
  | Some k => entry_result workspaceFolders pathMapping (normalized sourcePath) k
  | None => Normal sourcePath
  end.
Proof.
  unfold applyPathMapping, applied_key. fold (normalized sourcePath).
  rewrite applyPathMapping_loop_find.
  - destruct (List.find _ _) as [k|]; [|reflexivity].
    by destruct (entry_result _ _ _ k).
  - intros k Hin. apply property_of_key. by rewrite <- sort_longest_first_perm.
Qed.

End LoopProofs.

Section PathMappingClaims.
Context `{DebugCore}.

(** C7.  The entry [applyPathMapping] applies never has more than one
    wildcard in its left pattern, nor more wildcards in its replacement
    than in its left pattern; and when no entry that is tried matches the
    normalised path, the function returns [sourcePath] as it is, without
    raising an error. *)
Theorem applyPathMapping_skips_and_falls_back (workspaceFolders : WorkspaceFolders)
    (sourcePath : string) (pathMapping : IStringDictionary) :
  let path := normalized sourcePath in
  let result := applyPathMapping workspaceFolders sourcePath pathMapping in
  (forall k, applied_key pathMapping sourcePath = Some k ->
     exists r m,
       property pathMapping k = Some r /\
       (countChar "*" k <= 1)%nat /\
       (countChar "*" r <= countChar "*" k)%nat /\
       pattern_match k path = Some m /\
       result = apply_entry workspaceFolders r m) /\
  ((forall k r, k ∈ Object_keys pathMapping -> property pathMapping k = Some r ->
      skipped k r = false -> pattern_match k path = None) ->
   applied_key pathMapping sourcePath = None /\ result = Normal sourcePath).
Proof.
  intros path result. split.
  - intros k Hk. subst result. rewrite applyPathMapping_applied, Hk.
    unfold applied_key in Hk. apply find_some in Hk as [_ Happ].
    fold path in Happ. unfold applicable in Happ. unfold entry_result.
    destruct (property pathMapping k) as [r|]; [|discriminate].
    apply andb_prop in Happ as [Hskip Hmatch].
    apply bool_decide_eq_true_1 in Hmatch as [m Hm].
    exists r, m. fold path. rewrite Hm. unfold skipped in Hskip.
    apply negb_true_iff, orb_false_elim in Hskip as [H1 H2].
    apply Nat.ltb_ge in H1, H2. auto.
  - intros Hnone.
    assert (Hfind : applied_key pathMapping sourcePath = None).
    { unfold applied_key. fold path.
      destruct (List.find _ _) as [k|] eqn:Hfind; [|reflexivity].
      apply find_some in Hfind as [Hin Happ]. exfalso.
      apply list_elem_of_In in Hin. rewrite sort_longest_first_perm in Hin.
      unfold applicable in Happ.
      destruct (property pathMapping k) as [r|] eqn:Hr; [|discriminate].
      apply andb_prop in Happ as [Hskip Hmatch].
      apply negb_true_iff in Hskip.
      apply bool_decide_eq_true_1 in Hmatch as [m Hm].
      rewrite (Hnone k r Hin Hr Hskip) in Hm. discriminate. }
    split; [exact Hfind|]. subst result. by rewrite applyPathMapping_applied, Hfind.
Qed.

End PathMappingClaims.

Section WebRoot.
Context `{DebugCore}.

(** C3, as amended.  The placeholder [${webRoot}] is resolved by the loop of
    [getRuntimeConfig], which turns the table into one that maps
    [webpack:///./*] to [/proj/*]; with that table and a workspace folder
    open, [applyPathMapping] substitutes the text the wildcard matched and
    returns [/proj/src/app.js], provided [properJoin] and [canonicalizeUrl]
    return this normal path as it is. *)
Theorem applyPathMapping_after_webRoot_resolution (folder : WorkspaceFolder)
    (others : list WorkspaceFolder) :
  truthy (uri_toString folder) = true ->
  properJoin "/proj/src/app.js" = "/proj/src/app.js" ->
  canonicalizeUrl "/proj/src/app.js" = "/proj/src/app.js" ->
  exists table,
    resolveOverrides "/proj" [("webpack:///./*", "${webRoot}/*")] = Normal table /\
    table = [("webpack:///./*", "/proj/*")] /\
    applyPathMapping (Some (folder :: others)) "webpack:///./src/app.js" table
    = Normal "/proj/src/app.js".
Proof.
  intros Huri Hjoin Hcanon.
  exists [("webpack:///./*", "/proj/*")].
  split; [reflexivity|]. split; [reflexivity|].
  rewrite applyPathMapping_applied.
  change (applied_key [("webpack:///./*", "/proj/*")] "webpack:///./src/app.js")
    with (Some "webpack:///./*").
  unfold entry_result.
  change (property [("webpack:///./*", "/proj/*")] "webpack:///./*")
    with (Some "/proj/*").
  change (pattern_match "webpack:///./*" (normalized "webpack:///./src/app.js"))
    with (Some ["src/app.js"]).
  unfold apply_entry.
  change (replaceAll "*" (ToString (group 1 ["src/app.js"])) "/proj/*")
    with "/proj/src/app.js".
  rewrite Hjoin. unfold replaceWorkSpaceFolderPlaceholder. rewrite Huri.
  change (replace "${workspaceFolder}" (uri_toString folder) "/proj/src/app.js")
    with "/proj/src/app.js".
  by rewrite Hcanon.
Qed.

(** Without a workspace folder list the path resolves to the empty text,
    whatever the path is. *)
Lemma replaceWorkSpaceFolderPlaceholder_undefined (path : string) :
  replaceWorkSpaceFolderPlaceholder None path = Normal EmptyString.
Proof. reflexivity. Qed.

(** So does every path that an entry of the table maps. *)
Lemma applyPathMapping_undefined_workspace (sourcePath : string)
    (pathMapping : IStringDictionary) (k : string) :
  applied_key pathMapping sourcePath = Some k ->
  applyPathMapping None sourcePath pathMapping = Normal EmptyString.
Proof.
  intros Hk. rewrite applyPathMapping_applied, Hk.
  unfold applied_key in Hk. apply find_some in Hk as [_ Happ].
  unfold applicable in Happ. unfold entry_result.
  destruct (property pathMapping k) as [r|]; [|discriminate].
  apply andb_prop in Happ as [_ Hmatch].
  apply bool_decide_eq_true_1 in Hmatch as [m Hm]. by rewrite Hm.
Qed.

(** C8 fails on a workspace without folders.  The list of workspace folders
    is then the empty array, which passes the test of
    [replaceWorkSpaceFolderPlaceholder]; reading the [uri] of its first
    element raises a TypeError, also from [applyPathMapping] on a path that
    an entry of the table maps. *)
Theorem replaceWorkSpaceFolderPlaceholder_no_folder :
  (forall path : string,
     replaceWorkSpaceFolderPlaceholder (Some []) path
     = Throw (TypeError "Cannot read properties of undefined (reading 'uri')")) /\
  applyPathMapping (Some []) "webpack:///./src/app.js"
    [("webpack:///./*", "${workspaceFolder}/*")]
  = Throw (TypeError "Cannot read properties of undefined (reading 'uri')").
Proof.
  split; [reflexivity|].
  rewrite applyPathMapping_applied.
  change (applied_key [("webpack:///./*", "${workspaceFolder}/*")]
            "webpack:///./src/app.js")
    with (Some "webpack:///./*").
  unfold entry_result.
  change (property [("webpack:///./*", "${workspaceFolder}/*")] "webpack:///./*")
    with (Some "${workspaceFolder}/*").
  change (pattern_match "webpack:///./*" (normalized "webpack:///./src/app.js"))
    with (Some ["src/app.js"]).
  reflexivity.
Qed.

End WebRoot.

(** The instance of C3, as amended, at the workspace folder [file:///proj]. *)
Lemma applyPathMapping_after_webRoot_resolution_witness :
  exists table,
    resolveOverrides "/proj" [("webpack:///./*", "${webRoot}/*")] = Normal table /\
    table = [("webpack:///./*", "/proj/*")] /\
    applyPathMapping (H := Examples.on_normal_paths)
      (Some [mkWorkspaceFolder "file:///proj"]) "webpack:///./src/app.js" table
    = Normal "/proj/src/app.js".
Proof.
  apply (applyPathMapping_after_webRoot_resolution (H := Examples.on_normal_paths)
           (mkWorkspaceFolder "file:///proj") []); reflexivity.
Defined.

(** C3, as stated, fails: [applyPathMapping] has no web root to resolve the
    placeholder with.  Given the table with [${webRoot}] in it, and a
    workspace folder open, it returns the replacement with the placeholder
    still in place. *)
Lemma applyPathMapping_webRoot_counterexample :
  applyPathMapping (H := Examples.on_normal_paths)
    (Some [mkWorkspaceFolder "file:///proj"]) "webpack:///./src/app.js"
    [("webpack:///./*", "${webRoot}/*")]
  = Normal "${webRoot}/src/app.js"
  /\ applyPathMapping (H := Examples.on_normal_paths)
       (Some [mkWorkspaceFolder "file:///proj"]) "webpack:///./src/app.js"
       [("webpack:///./*", "${webRoot}/*")]
     <> Normal "/proj/src/app.js".
Proof. split; [vm_compute; reflexivity | vm_compute; discriminate]. Qed.

(** The match of a left pattern ignores case, treats a backslash of the
    pattern as a slash, and is anchored at both ends. *)
Example pattern_match_examples :
  pattern_match "webpack:///./*" "WEBPACK:///./Src/App.js" = Some ["Src/App.js"]
  /\ pattern_match "C:\src\*" "c:/SRC/app.js" = Some ["app.js"]
  /\ pattern_match "webpack:///./*" "see webpack:///./src/app.js" = None
  /\ pattern_match "/a*.js" "/app.js.map" = None
  /\ pattern_match "/a.js" "/a.js" = Some []
  /\ pattern_match "/a.js" "/abjs" = None.
Proof. vm_compute. repeat split; reflexivity. Qed.

(** Entries that are passed over: the first key has two wildcards, the
    second has more wildcards on the right than on the left; the third is
    applied although the other two would match. *)
Example applyPathMapping_skips :
  let table := [("/*/src/*", "/a/*"); ("/app/src/x", "/b/*"); ("/app/*", "/c/*")] in
  applied_key table "/app/src/x" = Some "/app/*"
  /\ applyPathMapping (H := Examples.on_normal_paths)
       (Some [mkWorkspaceFolder "file:///proj"]) "/app/src/x" table
     = Normal "/c/src/x".
Proof. vm_compute. split; reflexivity. Qed.

(** The default source-map overrides, resolved for the web root [/proj]:
    the path of the examples matches three keys, and the longest of them is
    applied. *)
Example applyPathMapping_default_overrides :
  let table :=
    [("webpack:///*", "*"); ("webpack:///./*", "/proj/*");
     ("webpack:///./~/*", "/proj/node_modules/*");
     ("webpack:///src/*", "/proj/*")] in
  resolveOverrides "/proj"
    [("webpack:///*", "*"); ("webpack:///./*", "${webRoot}/*");
     ("webpack:///./~/*", "${webRoot}/node_modules/*");
     ("webpack:///src/*", "${webRoot}/*")]
  = Normal table
  /\ sort_longest_first (Object_keys table)
  = ["webpack:///./~/*"; "webpack:///src/*"; "webpack:///./*"; "webpack:///*"]
  /\ applied_key table "webpack:///./~/lib/index.js" = Some "webpack:///./~/*"
  /\ applyPathMapping (H := Examples.on_normal_paths)
       (Some [mkWorkspaceFolder "file:///proj"]) "webpack:///./~/lib/index.js" table
     = Normal "/proj/node_modules/lib/index.js"
  /\ applyPathMapping (H := Examples.on_normal_paths)
       (Some [mkWorkspaceFolder "file:///proj"]) "http://localhost/app.js" table
     = Normal "http://localhost/app.js".
Proof. vm_compute. repeat split; reflexivity. Qed.

Section PatternSemantics.

#[local] Arguments String.append !s1 s2 : simpl nomatch.

(** An expression that starts with the caret matches at the start of the
    text or not at all. *)
Lemma search_anchored (ic : bool) (r : Regex) (s : string) :
  search ic (NBol :: r) false s = None.
Proof. induction s as [|c s IH]; cbn; [reflexivity|exact IH]. Qed.

Lemma String_match_anchored (ic : bool) (r : Regex) (s : string) :
  String_match ic (NBol :: r) s = exec ic r true s.
Proof.
  unfold String_match. destruct s as [|c s]; cbn [search exec].
  - by destruct (exec ic r true EmptyString).
  - destruct (exec ic r true (String c s)); [reflexivity|apply search_anchored].
Qed.

Lemma list_ascii_of_string_app (s t : string) :
  list_ascii_of_string (s +:+ t) = list_ascii_of_string s ++ list_ascii_of_string t.
Proof. induction s as [|c s IH]; cbn; [reflexivity|by rewrite IH]. Qed.

Lemma countChar_app (c : ascii) (s t : string) :
  countChar c (s +:+ t) = (countChar c s + countChar c t)%nat.
Proof. induction s as [|d s IH]; cbn; [reflexivity|rewrite IH; lia]. Qed.

(** The end of the expression accepts the empty rest only. *)
Lemma exec_end (start : bool) (s : string) :
  exec true [NEol] start s = match s with EmptyString => Some [] | _ => None end.
Proof. by destruct s. Qed.

(** A wildcard-free text is matched character by character. *)
Lemma exec_literal (literal : string) (r : Regex) (start : bool) (s : string) :
  countChar "*" literal = 0%nat ->
  exec true (map pattern_node (list_ascii_of_string literal) ++ r) start s =
  match literal_prefix literal s with
  | Some rest =>
      exec true r (match literal with EmptyString => start | _ => false end) rest
  | None => None
  end.
Proof.
  revert start s. induction literal as [|c literal IH]; intros start s Hstar.
  - reflexivity.
  - cbn [countChar] in Hstar.
    destruct (Ascii.eqb_spec "*" c) as [<-|Hc]; [discriminate|].
    cbn [list_ascii_of_string map app literal_prefix].
    assert (Hnode : pattern_node c
                    = NAtom (AChar (if Ascii.eqb c "\" then "/"%char else c))).
    { unfold pattern_node. destruct (Ascii.eqb_spec c "*") as [->|]; [done|].
      by destruct (Ascii.eqb c "\"). }
    rewrite Hnode. cbn [exec]. destruct s as [|d s]; [reflexivity|].
    fold (char_matches c d). destruct (char_matches c d); [|reflexivity].
    rewrite IH by exact Hstar. by destruct literal.
Qed.

Lemma literal_prefix_length (literal s rest : string) :
  literal_prefix literal s = Some rest ->
  String.length s = (String.length literal + String.length rest)%nat.
Proof.
  revert s. induction literal as [|c literal IH]; intros s.
  - cbn. by intros [= ->].
  - destruct s as [|d s]; cbn [literal_prefix]; [discriminate|].
    destruct (char_matches c d); [|discriminate].
    intros Hrest. cbn [String.length]. rewrite (IH s Hrest). reflexivity.
Qed.

Lemma literal_equal_length (literal s : string) :
  literal_equal literal s = true -> String.length s = String.length literal.
Proof.
  unfold literal_equal.
  destruct (literal_prefix literal s) as [[|c rest]|] eqn:Hp; try discriminate.
  intros _. rewrite (literal_prefix_length _ _ _ Hp). cbn. lia.
Qed.

Lemma length_app (s t : string) :
  String.length (s +:+ t) = (String.length s + String.length t)%nat.
Proof. induction s as [|c s IH]; cbn; [reflexivity|by rewrite IH]. Qed.

(** What follows a wildcard: the rest of the pattern, then the end. *)
Lemma exec_suffix (suffix : string) (start : bool) (s : string) :
  countChar "*" suffix = 0%nat ->
  exec true (map pattern_node (list_ascii_of_string suffix) ++ [NEol]) start s
  = if literal_equal suffix s then Some [] else None.
Proof.
  intros Hstar. rewrite exec_literal by exact Hstar. unfold literal_equal.
  destruct (literal_prefix suffix s) as [rest|]; [|reflexivity].
  rewrite exec_end. by destruct rest.
Qed.

(** The wildcard captures a text without line terminators that is followed
    by a text the rest of the pattern accepts. *)
Lemma exec_wildcard (suffix : string) (start : bool) (s : string) (m : list string) :
  countChar "*" suffix = 0%nat ->
  exec true (NCapStar ADot :: map pattern_node (list_ascii_of_string suffix) ++ [NEol])
    start s = Some m
  <-> exists w tail,
        s = w +:+ tail /\ one_line w = true /\
        literal_equal suffix tail = true /\ m = [w].
Proof.
  intros Hstar. cbn [exec]. revert start m.
  induction s as [|c s IH]; intros start m.
  - rewrite exec_suffix by exact Hstar. split.
    + destruct (literal_equal suffix EmptyString) eqn:Heq; [|discriminate].
      intros [= <-]. exists EmptyString, EmptyString. auto.
    + intros (w & tail & Hs & _ & Heq & ->).
      destruct w; [|discriminate]. cbn in Hs. subst tail. by rewrite Heq.
  - rewrite exec_suffix by exact Hstar.
    change (atom_matches true ADot c) with (negb (isLineTerminator c)).
    specialize (IH false). split.
    + destruct (negb (isLineTerminator c)) eqn:Hc.
      * match goal with |- context [match ?star s false with _ => _ end] =>
          destruct (star s false) as [[|w caps]|] eqn:Hrec end.
        -- destruct (proj1 (IH _) eq_refl) as (? & ? & _ & _ & _ & [=]).
        -- intros [= <-].
           destruct (proj1 (IH _) eq_refl) as (w' & tail & -> & Hw & Heq & [= -> ->]).
           exists (String c w'), tail. split; [reflexivity|]. split; [|auto].
           unfold one_line in *. cbn [list_ascii_of_string forallb].
           by rewrite Hc, Hw.
        -- destruct (literal_equal suffix (String c s)) eqn:Heq; [|discriminate].
           intros [= <-]. exists EmptyString, (String c s). auto.
      * destruct (literal_equal suffix (String c s)) eqn:Heq; [|discriminate].
        intros [= <-]. exists EmptyString, (String c s). auto.
    + intros (w & tail & Hs & Hw & Heq & ->). destruct w as [|d w].
      * cbn in Hs. subst tail. rewrite Heq.
        destruct (negb (isLineTerminator c)); [|reflexivity].
        match goal with |- context [match ?star s false with _ => _ end] =>
          destruct (star s false) as [[|w caps]|] eqn:Hrec end; try reflexivity.
        destruct (proj1 (IH _) eq_refl) as (w' & tail & -> & _ & Heq' & _).
        apply literal_equal_length in Heq, Heq'. cbn in Heq.
        rewrite length_app in Heq. lia.
      * cbn in Hs. injection Hs as <- ->.
        unfold one_line in Hw. cbn [list_ascii_of_string forallb] in Hw.
        apply andb_prop in Hw as [Hc Hw]. fold (one_line w) in Hw. rewrite Hc.
        assert (Hrec : exists w' tail',
                  w +:+ tail = w' +:+ tail' /\ one_line w' = true /\
                  literal_equal suffix tail' = true /\ [w] = [w'])
          by (exists w, tail; auto).
        apply IH in Hrec. by rewrite Hrec.
Qed.

(** The match of a left pattern without a wildcard: the pattern accepts the
    whole path, and nothing is captured. *)
Theorem pattern_match_literal (leftPattern path : string) :
  countChar "*" leftPattern = 0%nat ->
  pattern_match leftPattern path
  = if literal_equal leftPattern path then Some [] else None.
Proof.
  intros Hstar. rewrite pattern_match_regex. unfold pattern_regex.
  rewrite String_match_anchored. by apply exec_suffix.
Qed.

(** The match of a left pattern with one wildcard: the text before the
    wildcard accepts a prefix of the path, the text after it accepts a
    suffix, and what lies between has no line terminator and is captured. *)
Theorem pattern_match_wildcard (before after path : string) (m : list string) :
  countChar "*" before = 0%nat -> countChar "*" after = 0%nat ->
  pattern_match (before +:+ String "*" after) path = Some m
  <-> exists w tail,
        literal_prefix before path = Some (w +:+ tail) /\
        one_line w = true /\ literal_equal after tail = true /\ m = [w].
Proof.
  intros Hb Ha. rewrite pattern_match_regex. unfold pattern_regex.
  rewrite String_match_anchored, list_ascii_of_string_app.
  cbn [list_ascii_of_string]. rewrite map_app, <- app_assoc.
  cbn [map app]. change (pattern_node "*") with (NCapStar ADot).
  rewrite exec_literal by exact Hb.
  destruct (literal_prefix before path) as [rest|] eqn:Hp.
  - rewrite exec_wildcard by exact Ha. split.
    + intros (w & tail & -> & H1 & H2 & ->). eauto 10.
    + intros (w & tail & [= ->] & H1 & H2 & ->). eauto 10.
  - split; [discriminate|]. intros (? & ? & [=] & _).
Qed.

End PatternSemantics.

(* ================================================================== *)
(** * The screencast panel *)
(* ================================================================== *)

Section PanelProofs.
Import ScreencastPanel PanelClaims.

Lemma state_eq (i : option ScreencastPanel.ref) (h h' : gmap ScreencastPanel.ref Object) :
  (forall r, h !! r = h' !! r) -> mkState i h = mkState i h'.
Proof. intros Heq. f_equal. by apply map_eq. Qed.

(** Case analysis on whether a reference is the one an [alter] touches. *)
Local Ltac at_reference this r :=
  destruct (decide (this = r)) as [<-|?];
  [rewrite ?lookup_alter_eq | rewrite ?lookup_alter_ne by done].

Lemma after_dispose_update (this : ScreencastPanel.ref) (f : Object -> Object)
    (i : option ScreencastPanel.ref) (st : State) :
  (forall o, dispose_object (f o) = dispose_object o) ->
  after_dispose this (mkState i (alter f this (heap st))) = after_dispose this st.
Proof.
  intros Hf. unfold after_dispose. cbn [heap]. apply state_eq. intros r.
  at_reference this r; [|done]. destruct (heap st !! this); cbn; [|done].
  by rewrite Hf.
Qed.

Lemma after_dispose_disposed (this : ScreencastPanel.ref) (st : State) :
  (forall o, heap st !! this = Some o -> dispose_object o = o) ->
  mkState None (heap st) = after_dispose this st.
Proof.
  intros Ho. unfold after_dispose. apply state_eq. intros r.
  at_reference this r; [|done]. destruct (heap st !! this) as [o|]; cbn; [|done].
  by rewrite Ho.
Qed.

(** [dispose] returns exactly when the fuel covers the depth of nested calls
    it reaches, which is three at most; the static field is then cleared
    and the object disposed, whether or not its panel or its panel socket
    were disposed before. *)
Lemma dispose_exact (fuel : nat) (this : ScreencastPanel.ref) (st : State) :
  dispose fuel this st
  = if (nesting (heap st !! this) <=? fuel)%nat
    then Some (after_dispose this st) else None.
Proof.
  revert st. induction fuel as [|fuel IH]; intros st.
  - cbn [dispose]. by destruct (heap st !! this) as [[url [] []]|].
  - cbn [dispose]. unfold panel_dispose, PanelSocket_dispose, PanelSocket_close.
    cbn [set_instance heap].
    destruct (heap st !! this) as [[url isDisposed socket]|] eqn:Ho;
      cbn [panel_isDisposed].
    + destruct isDisposed.
      * cbn [mbind option_bind heap set_instance]. rewrite Ho. cbn [panelSocket].
        destruct socket; cbn [nesting panel_isDisposed panelSocket];
          try (rewrite IH; unfold update; cbn [heap instance set_instance];
               rewrite lookup_alter_eq, Ho;
               cbn [fmap option_fmap option_map with_socket nesting
                      panel_isDisposed panelSocket targetUrl];
               rewrite after_dispose_update by done;
               by destruct fuel).
        cbn. f_equal. apply after_dispose_disposed.
        intros o. rewrite Ho. by intros [= <-].
      * rewrite IH. unfold update. cbn [heap instance set_instance].
        rewrite lookup_alter_eq, Ho.
        cbn [fmap option_fmap option_map mark_panel_disposed nesting
               panel_isDisposed panelSocket targetUrl].
        rewrite after_dispose_update by done.
        assert (Hclosed : heap (after_dispose this st) !! this
                          = Some (mkObject url true Closed)).
        { unfold after_dispose. cbn [heap]. by rewrite lookup_alter_eq, Ho. }
        destruct socket; cbn [nesting panel_isDisposed panelSocket];
          destruct fuel as [|[|fuel]]; cbn [Nat.leb Nat.add];
          repeat (cbn [mbind option_bind panelSocket]; rewrite ?Hclosed);
          reflexivity.
    + cbn [mbind option_bind heap set_instance]. rewrite Ho. cbn. f_equal.
      apply after_dispose_disposed. intros o. by rewrite Ho.
Qed.

(** With fuel for three nested calls, [dispose] returns. *)
Lemma dispose_spec (fuel : nat) (this : ScreencastPanel.ref) (st : State) :
  (3 <= fuel)%nat ->
  dispose fuel this st = Some (after_dispose this st).
Proof.
  intros Hfuel. rewrite dispose_exact.
  assert (Hn : (nesting (heap st !! this) <= 3)%nat)
    by (by destruct (heap st !! this) as [[url [] []]|]; cbn; lia).
  destruct (Nat.leb_spec (nesting (heap st !! this)) fuel); [done|lia].
Qed.

(** When it returns, it returns that state. *)
Lemma dispose_sound (fuel : nat) (this : ScreencastPanel.ref) (st st' : State) :
  dispose fuel this st = Some st' -> st' = after_dispose this st.
Proof.
  rewrite dispose_exact. destruct (_ <=? _)%nat; [|discriminate]. by intros [= <-].
Qed.

Lemma disposed_not_live (o : Object) : disposed o -> live o = false.
Proof. intros [_ Hs]. unfold live. by rewrite Hs. Qed.

(** Disposing the only object that may be live leaves every object
    disposed.  [h] is the heap at the time of the call, which may differ
    from the heap of [st] in the object [this]. *)
Lemma consistent_after_dispose (st : State) (this : ScreencastPanel.ref)
    (h : gmap ScreencastPanel.ref Object) :
  consistent st ->
  (forall r, instance st = Some r -> r = this) ->
  (forall r, r <> this -> h !! r = heap st !! r) ->
  consistent (mkState None (alter dispose_object this h)).
Proof.
  intros [Hothers _] Honly Hsame. split; cbn [instance heap].
  - intros r o Hr _. revert Hr. at_reference this r.
    + destruct (h !! this); cbn; [|discriminate]. intros [= <-]. by split.
    + rewrite Hsame by done. intros Hr. apply (Hothers r o Hr).
      intros Hi. apply Honly in Hi. congruence.
  - discriminate.
Qed.

Lemma live_instances_elem (st : State) (r : ScreencastPanel.ref) :
  r ∈ live_instances st <-> exists o, heap st !! r = Some o /\ live o = true.
Proof.
  unfold live_instances. rewrite list_elem_of_fmap. split.
  - intros [[r' o] [-> Hin]]. apply elem_of_map_to_list in Hin.
    apply map_lookup_filter_Some in Hin as [Hr Hlive]. eauto.
  - intros (o & Hr & Hlive). exists (r, o). split; [done|].
    apply elem_of_map_to_list, map_lookup_filter_Some. auto.
Qed.

Lemma live_instances_NoDup (st : State) : NoDup (live_instances st).
Proof. apply NoDup_fst_map_to_list. Qed.

Lemma NoDup_only {A} (l : list A) (a : A) :
  NoDup l -> (forall x, x ∈ l <-> x = a) -> l = [a].
Proof.
  intros Hnd Hall. destruct l as [|x l].
  - exfalso. eapply elem_of_nil, Hall. reflexivity.
  - assert (x = a) as -> by (apply Hall; left).
    apply NoDup_cons in Hnd as [Hnotin _].
    destruct l as [|y l]; [done|]. exfalso. apply Hnotin.
    assert (y = a) as -> by (apply Hall; right; left). left.
Qed.

(** In a consistent state at most one panel owns a relay. *)
Lemma consistent_at_most_one (st : State) :
  consistent st -> at_most_one_relay st.
Proof.
  intros [Hothers Hrecorded].
  assert (Hlive : forall r o, heap st !! r = Some o -> live o = true -> instance st = Some r).
  { intros r o Hr Hlive. destruct (decide (instance st = Some r)) as [|Hne]; [done|].
    apply (Hothers r o Hr), disposed_not_live in Hne. congruence. }
  split; [exact Hlive|].
  destruct (instance st) as [i|] eqn:Hi.
  - destruct (Hrecorded i eq_refl) as (o & Ho & _ & Hl).
    rewrite (NoDup_only (live_instances st) i); [cbn; lia|apply live_instances_NoDup|].
    intros r. rewrite live_instances_elem. split.
    + intros (o' & Hr & Hl'). specialize (Hlive r o' Hr Hl'). congruence.
    + intros ->. eauto.
  - rewrite (elem_of_nil_inv (live_instances st)); [cbn; lia|].
    intros r Hin. apply live_instances_elem in Hin as (o & Hr & Hl).
    specialize (Hlive r o Hr Hl). discriminate.
Qed.

(** The first statement of [createOrShow] leaves no recorded instance and no
    live object. *)
Lemma dispose_existing_spec (fuel : nat) (st : State) :
  (3 <= fuel)%nat -> consistent st ->
  exists mid,
    dispose_existing fuel st = Some mid /\
    consistent mid /\ instance mid = None /\
    (forall r, instance st <> Some r -> heap mid !! r = heap st !! r) /\
    (forall old, instance st = Some old ->
       heap mid !! old = dispose_object <$> heap st !! old).
Proof.
  intros Hfuel Hst. unfold dispose_existing.
  destruct (instance st) as [old|] eqn:Hi.
  - rewrite dispose_spec by done. unfold after_dispose.
    eexists. split; [reflexivity|].
    split; [|split; [reflexivity|split]].
    + apply (consistent_after_dispose st); [done| |done]. intros r. congruence.
    + intros r Hne. cbn [heap]. rewrite lookup_alter_ne; [done|congruence].
    + intros ? [= <-]. cbn [heap]. by rewrite lookup_alter_eq.
  - exists st. split; [done|]. split; [done|]. split; [done|]. split; [done|].
    intros old Hold. congruence.
Qed.

(** What [createOrShow] does from a consistent state. *)
Lemma createOrShow_spec (fuel : nat) (url : string) (st : State) :
  (3 <= fuel)%nat -> consistent st ->
  exists mid,
    dispose_existing fuel st = Some mid /\
    consistent mid /\ instance mid = None /\
    (forall old, instance st = Some old ->
       heap mid !! old = dispose_object <$> heap st !! old) /\
    let new := fresh (dom (heap mid)) in
    heap mid !! new = None /\
    createOrShow fuel url st
    = Some (mkState (Some new) (<[new := mkObject url false Connecting]> (heap mid))) /\
    consistent (mkState (Some new) (<[new := mkObject url false Connecting]> (heap mid))).
Proof.
  intros Hfuel Hst.
  destruct (dispose_existing_spec fuel st Hfuel Hst) as (mid & Hmid & Hcons & Hnone & _ & Hold).
  exists mid. split; [done|]. split; [done|]. split; [done|]. split; [done|].
  intros new. split; [apply not_elem_of_dom, is_fresh|]. split.
  - unfold createOrShow. rewrite Hmid. reflexivity.
  - destruct Hcons as [Hothers _]. split; cbn [instance heap].
    + intros r o Hr Hne. rewrite lookup_insert_ne in Hr by congruence.
      apply (Hothers r o Hr). rewrite Hnone. discriminate.
    + intros r [= <-]. rewrite lookup_insert_eq. eauto.
Qed.

(** The panel socket of a disposed object is closed: its disposal does
    nothing. *)
Lemma PanelSocket_close_after_dispose (onClose : State -> option State)
    (this : ScreencastPanel.ref) (st : State) :
  PanelSocket_close onClose this (after_dispose this st) = Some (after_dispose this st).
Proof.
  unfold PanelSocket_close, after_dispose. cbn [heap]. rewrite lookup_alter_eq.
  by destruct (heap st !! this).
Qed.

(** What an event leaves when it is handled to its end, whatever the fuel:
    the state after the disposal of the object, for the events that dispose
    one. *)
Lemma step_result (fuel : nat) (e : Event) (st st' : State) :
  step fuel e st = Some st' ->
  match e with
  | CreateOrShow url =>
      exists mid, dispose_existing fuel st = Some mid /\
        (forall old, instance st = Some old -> mid = after_dispose old st) /\
        (instance st = None -> mid = st) /\
        st' = mkState (Some (fresh (dom (heap mid))))
                (<[fresh (dom (heap mid)) := mkObject url false Connecting]> (heap mid))
  | PanelClosed this =>
      match heap st !! this with
      | Some o => if panel_isDisposed o then st' = st else st' = after_dispose this st
      | None => st' = st
      end
  | SocketOpened this => st' = update this (with_socket socket_open) st
  | SocketClosed this =>
      match heap st !! this with
      | Some o =>
          match panelSocket o with
          | Closed => st' = st
          | _ => st' = after_dispose this st
          end
      | None => st' = st
      end
  end.
Proof.
  destruct e as [url|this|this|this]; cbn [step].
  - unfold createOrShow, dispose_existing.
    destruct (instance st) as [old|] eqn:Hi.
    + destruct (dispose fuel old st) as [mid|] eqn:Hmid; [|discriminate].
      apply dispose_sound in Hmid as ->. cbn. intros [= <-].
      eexists. split; [reflexivity|]. split; [by intros ? [= <-]|].
      split; [discriminate|reflexivity].
    + cbn. intros [= <-]. exists st. split; [reflexivity|].
      split; [discriminate|]. split; reflexivity.
  - unfold panel_dispose. destruct (heap st !! this) as [o|] eqn:Ho;
      [|by intros [= <-]].
    destruct (panel_isDisposed o); [by intros [= <-]|].
    destruct (dispose fuel this (update this mark_panel_disposed st))
      as [st1|] eqn:H1; [|discriminate].
    apply dispose_sound in H1 as ->. cbn [mbind option_bind].
    unfold update. rewrite after_dispose_update by done.
    unfold PanelSocket_dispose. rewrite PanelSocket_close_after_dispose.
    by intros [= <-].
  - by intros [= <-].
  - unfold socket_closed, PanelSocket_close, onSocketClose.
    destruct (heap st !! this) as [o|] eqn:Ho; [|by intros [= <-]].
    destruct (panelSocket o); try (by intros [= <-]);
      intros Hd; apply dispose_sound in Hd as ->;
      unfold update; by rewrite after_dispose_update.
Qed.

(** With fuel for three nested calls every event is handled to its end. *)
Lemma step_returns (fuel : nat) (e : Event) (st : State) :
  (3 <= fuel)%nat -> exists st', step fuel e st = Some st'.
Proof.
  intros Hfuel. destruct e as [url|this|this|this]; cbn [step].
  - unfold createOrShow, dispose_existing.
    destruct (instance st) as [old|]; [rewrite dispose_spec by done|]; cbn; eauto.
  - unfold panel_dispose. destruct (heap st !! this) as [o|]; [|eauto].
    destruct (panel_isDisposed o); [eauto|].
    rewrite dispose_spec by done. cbn [mbind option_bind].
    unfold PanelSocket_dispose. rewrite PanelSocket_close_after_dispose. eauto.
  - eauto.
  - unfold socket_closed, PanelSocket_close, onSocketClose.
    destruct (heap st !! this) as [o|]; [|eauto].
    destruct (panelSocket o); rewrite ?dispose_spec by done; eauto.
Qed.

(** Every event that is handled to its end keeps the state consistent. *)
Lemma step_sound (fuel : nat) (e : Event) (st st' : State) :
  consistent st -> step fuel e st = Some st' -> consistent st'.
Proof.
  intros Hst Hstep. apply step_result in Hstep.
  destruct e as [url|this|this|this].
  - destruct Hstep as (mid & _ & Hsome & Hnone & ->).
    assert (Hmid : consistent mid /\ instance mid = None).
    { destruct (instance st) as [old|] eqn:Hi.
      - rewrite (Hsome old eq_refl). split; [|reflexivity].
        apply (consistent_after_dispose st); [done| |done]. intros r. congruence.
      - rewrite (Hnone eq_refl). by split. }
    destruct Hmid as [[Hothers _] Hi]. split; cbn [instance heap].
    + intros r o Hr Hne. rewrite lookup_insert_ne in Hr by congruence.
      apply (Hothers r o Hr). rewrite Hi. discriminate.
    + intros r [= <-]. rewrite lookup_insert_eq. eauto.
  - destruct (heap st !! this) as [o|] eqn:Ho; [|by subst].
    destruct (panel_isDisposed o) eqn:Hd; subst st'; [done|].
    apply (consistent_after_dispose st); [done| |done].
    intros r Hi. destruct (decide (r = this)) as [|Hne]; [done|].
    destruct Hst as [Hothers _].
    destruct (Hothers this o Ho) as [Hp _]; congruence.
  - subst st'. destruct Hst as [Hothers Hrecorded].
    unfold update. split; cbn [instance heap].
    + intros r o Hr Hne. revert Hr. at_reference this r; [|by eauto].
      destruct (heap st !! this) as [o'|] eqn:Ho; cbn; [|discriminate].
      intros [= <-]. destruct (Hothers this o' Ho Hne) as [Hp Hs].
      split; cbn; [done|]. by rewrite Hs.
    + intros r Hi. destruct (Hrecorded r Hi) as (o & Hr & Hp & Hl).
      at_reference this r; [|by eauto].
      rewrite Hr. cbn. eexists. split; [reflexivity|]. split; [done|].
      unfold live in *. cbn. by destruct (panelSocket o).
  - destruct (heap st !! this) as [o|] eqn:Ho; [|by subst].
    assert (Hcase : panelSocket o = Closed \/
                    (panelSocket o <> Closed /\ st' = after_dispose this st)).
    { destruct (panelSocket o); auto; right; split; done. }
    destruct Hcase as [Hs|[Hs ->]]; [rewrite Hs in Hstep; by subst|].
    apply (consistent_after_dispose st); [done| |done].
    intros r Hi. destruct (decide (r = this)) as [|Hne]; [done|].
    destruct Hst as [Hothers _].
    destruct (Hothers this o Ho) as [_ Hc]; congruence.
Qed.

(** Every event keeps the state consistent, and with fuel for three nested
    calls every event is handled to its end. *)
Lemma step_consistent (fuel : nat) (e : Event) (st : State) :
  (3 <= fuel)%nat -> consistent st ->
  exists st', step fuel e st = Some st' /\ consistent st'.
Proof.
  intros Hfuel Hst. destruct (step_returns fuel e st Hfuel) as [st' Hstep].
  exists st'. split; [exact Hstep|]. by apply (step_sound fuel e st).
Qed.

Lemma run_sound (fuel : nat) (events : list Event) (st st' : State) :
  consistent st -> run fuel events st = Some st' -> consistent st'.
Proof.
  revert st. induction events as [|e events IH]; intros st Hst; cbn [run].
  - by intros [= <-].
  - destruct (step fuel e st) as [st1|] eqn:Hstep; [|discriminate]. cbn.
    apply IH. by apply (step_sound fuel e st).
Qed.

Lemma initial_consistent : consistent initial.
Proof.
  split; cbn.
  - intros r o Hr. by rewrite lookup_empty in Hr.
  - discriminate.
Qed.

Lemma run_consistent (fuel : nat) (events : list Event) (st : State) :
  (3 <= fuel)%nat -> consistent st ->
  exists st', run fuel events st = Some st' /\ consistent st'.
Proof.
  intros Hfuel. revert st. induction events as [|e events IH]; intros st Hst.
  - exists st. auto.
  - destruct (step_consistent fuel e st Hfuel Hst) as (st1 & Hstep & Hst1).
    cbn [run]. rewrite Hstep. cbn. by apply IH.
Qed.

(** C9.  After any sequence of events at most one panel owns a relay, and
    it is the recorded instance.  A call of [createOrShow] in such a state
    first disposes the recorded instance, which closes its panel socket:
    then no instance is recorded and no panel owns a relay.  Only after that
    it creates the new panel and records it, so that the new panel is the
    only one that owns a relay. *)
Theorem createOrShow_replaces_instance (fuel : nat) (events : list Event)
    (url : string) :
  (3 <= fuel)%nat ->
  exists st mid st',
    run fuel events initial = Some st /\
    at_most_one_relay st /\
    dispose_existing fuel st = Some mid /\
    instance mid = None /\
    live_instances mid = [] /\
    (forall old, instance st = Some old ->
       exists o, heap st !! old = Some o /\ live o = true /\
                 heap mid !! old = Some (dispose_object o)) /\
    let new := fresh (dom (heap mid)) in
    heap mid !! new = None /\
    createOrShow fuel url st = Some st' /\
    st' = mkState (Some new) (<[new := mkObject url false Connecting]> (heap mid)) /\
    live_instances st' = [new] /\
    at_most_one_relay st'.
Proof.
  intros Hfuel.
  destruct (run_consistent fuel events initial Hfuel initial_consistent)
    as (st & Hrun & Hst).
  destruct (createOrShow_spec fuel url st Hfuel Hst)
    as (mid & Hmid & Hcmid & Hnone & Hold & Hfresh & Hcreate & Hcons).
  exists st, mid, (mkState (Some (fresh (dom (heap mid))))
                     (<[fresh (dom (heap mid)) := mkObject url false Connecting]> (heap mid))).
  split; [exact Hrun|]. split; [by apply consistent_at_most_one|].
  split; [exact Hmid|]. split; [exact Hnone|].
  assert (Hnolive : live_instances mid = []).
  { apply elem_of_nil_inv. intros r Hin.
    apply live_instances_elem in Hin as (o & Hr & Hl).
    destruct (consistent_at_most_one mid Hcmid) as [Hlive _].
    specialize (Hlive r o Hr Hl). congruence. }
  split; [exact Hnolive|]. split.
  { intros old Hi. destruct Hst as [_ Hrecorded].
    destruct (Hrecorded old Hi) as (o & Ho & _ & Hl). exists o.
    split; [done|]. split; [done|]. by rewrite (Hold old Hi), Ho. }
  cbv zeta. split; [exact Hfresh|]. split; [exact Hcreate|]. split; [reflexivity|].
  split; [|by apply consistent_at_most_one].
  apply NoDup_only; [apply live_instances_NoDup|].
  intros r. rewrite live_instances_elem. cbn [heap]. split.
  - intros (o & Hr & Hl).
    destruct (decide (r = fresh (dom (heap mid)))) as [|Hne]; [done|].
    rewrite lookup_insert_ne in Hr by congruence.
    assert (Hin : r ∈ live_instances mid) by (apply live_instances_elem; eauto).
    rewrite Hnolive in Hin. by apply elem_of_nil in Hin.
  - intros ->. rewrite lookup_insert_eq. eauto.
Qed.

End PanelProofs.

(** The instance of C9 after a panel was shown, its socket opened, and a
    second panel shown in its place: showing a third panel leaves one panel
    that owns a relay. *)
Lemma createOrShow_replaces_instance_witness :
  exists st st',
    ScreencastPanel.run 3
      [ScreencastPanel.CreateOrShow "ws://localhost:9222/devtools/page/A";
       ScreencastPanel.SocketOpened 1%positive;
       ScreencastPanel.CreateOrShow "ws://localhost:9222/devtools/page/B"]
      ScreencastPanel.initial = Some st /\
    ScreencastPanel.createOrShow 3 "ws://localhost:9222/devtools/page/C" st = Some st' /\
    length (ScreencastPanel.live_instances st') = 1%nat.
Proof.
  destruct (createOrShow_replaces_instance 3
              [ScreencastPanel.CreateOrShow "ws://localhost:9222/devtools/page/A";
               ScreencastPanel.SocketOpened 1%positive;
               ScreencastPanel.CreateOrShow "ws://localhost:9222/devtools/page/B"]
              "ws://localhost:9222/devtools/page/C" (le_n 3))
    as (st & mid & st' & Hrun & _ & _ & _ & _ & _ & _ & Hcreate & _ & Hlive & _).
  exists st, st'. split; [exact Hrun|]. split; [exact Hcreate|]. by rewrite Hlive.
Defined.

(* ================================================================== *)
(** * Further properties of the path mapping *)
(* ================================================================== *)

Import Settings Notions.

Section SortStability.

Lemma of_length_insert (n : nat) (k : string) (keys : list string) :
  of_length n (insert_by_length k keys)
  = (if (String.length k =? n)%nat then [k] else []) ++ of_length n keys.
Proof.
  unfold of_length. induction keys as [|k' keys IH]; cbn [insert_by_length].
  - cbn [List.filter]. by destruct (String.length k =? n)%nat.
  - destruct (Nat.ltb_spec (String.length k) (String.length k')) as [Hlt|Hge].
    + cbn [List.filter]. rewrite IH.
      destruct (Nat.eqb_spec (String.length k) n) as [Hk|Hk];
        destruct (Nat.eqb_spec (String.length k') n) as [Hk'|Hk']; try reflexivity.
      lia.
    + cbn [List.filter]. by destruct (String.length k =? n)%nat.
Qed.

(** The sort of the keys is stable: keys of the same length stay in the
    order of the table. *)
Lemma sort_longest_first_stable (n : nat) (keys : list string) :
  of_length n (sort_longest_first keys) = of_length n keys.
Proof.
  induction keys as [|k keys IH]; [reflexivity|].
  cbn [sort_longest_first foldr]. fold (sort_longest_first keys).
  rewrite of_length_insert, IH. unfold of_length. cbn [List.filter].
  by destruct (String.length k =? n)%nat.
Qed.

End SortStability.

Section Replacements.

#[local] Arguments String.append !s1 s2 : simpl nomatch.

Lemma append_assoc (a b c : string) : (a +:+ b) +:+ c = a +:+ b +:+ c.
Proof. induction a as [|x a IH]; cbn; [reflexivity|by rewrite IH]. Qed.

Lemma append_empty_r (a : string) : a +:+ EmptyString = a.
Proof. induction a as [|x a IH]; cbn; [reflexivity|by rewrite IH]. Qed.

(** A text without the character is left as it is. *)
Lemma replaceAll_from_absent (c : ascii) (replacement before s : string) :
  countChar c s = 0%nat ->
  replaceAll_from (String c EmptyString) replacement before s 0 = s.
Proof.
  revert before. induction s as [|d s IH]; intros before Hs; [reflexivity|].
  cbn [countChar] in Hs. cbn [replaceAll_from strip_prefix].
  destruct (Ascii.eqb c d); [discriminate|]. by rewrite IH.
Qed.

(** The one occurrence of the character is replaced by the substitution
    computed for the texts before and after it. *)
Lemma replaceAll_from_single (c : ascii) (replacement before pre post : string) :
  countChar c pre = 0%nat -> countChar c post = 0%nat ->
  replaceAll_from (String c EmptyString) replacement before
    (pre +:+ String c post) 0
  = pre +:+ GetSubstitution (String c EmptyString) (before +:+ pre) post replacement
    +:+ post.
Proof.
  revert before. induction pre as [|d pre IH]; intros before Hpre Hpost.
  - cbn [String.append replaceAll_from strip_prefix].
    rewrite Ascii.eqb_refl, append_empty_r. cbn [String.length Nat.pred].
    by rewrite replaceAll_from_absent.
  - cbn [countChar] in Hpre. cbn [String.append replaceAll_from strip_prefix].
    destruct (Ascii.eqb c d); [discriminate|].
    rewrite IH by done. rewrite append_assoc. reflexivity.
Qed.

Lemma replaceAll_single (c : ascii) (replacement pre post : string) :
  countChar c pre = 0%nat -> countChar c post = 0%nat ->
  replaceAll (String c EmptyString) replacement (pre +:+ String c post)
  = pre +:+ GetSubstitution (String c EmptyString) pre post replacement +:+ post.
Proof. intros. unfold replaceAll. by rewrite replaceAll_from_single. Qed.

Lemma replaceAll_absent (c : ascii) (replacement s : string) :
  countChar c s = 0%nat -> replaceAll (String c EmptyString) replacement s = s.
Proof. apply replaceAll_from_absent. Qed.

(** A replacement text that expands nothing is inserted as it is. *)
Lemma GetSubstitution_literal (matched before after replacement : string) :
  expands_nothing replacement = true ->
  GetSubstitution matched before after replacement = replacement.
Proof.
  induction replacement as [|c r IH]; [reflexivity|].
  cbn [expands_nothing GetSubstitution]. destruct r as [|d r'].
  - intros _. by destruct (Ascii.eqb c "$").
  - intros Hr. apply andb_prop in Hr as [Hhere Hr]. specialize (IH Hr).
    destruct (Ascii.eqb c "$") eqn:Hc.
    + cbn [andb existsb orb] in Hhere.
      destruct (Ascii.eqb d "$"); [discriminate|].
      destruct (Ascii.eqb d "&"); [discriminate|].
      destruct (Ascii.eqb d "`"); [discriminate|].
      destruct (Ascii.eqb d "'"); [discriminate|].
      by rewrite IH.
    + by rewrite IH.
Qed.

(** Every backslash becomes a slash, and nothing else changes. *)
Lemma normalized_no_backslash (s before : string) :
  countChar "\" (replaceAll_from "\" "/" before s 0) = 0%nat.
Proof.
  revert before. induction s as [|c s IH]; intros before; [reflexivity|].
  cbn [replaceAll_from strip_prefix].
  destruct (Ascii.eqb_spec "\" c) as [<-|Hc].
  - cbn [String.length Nat.pred GetSubstitution String.append countChar].
    change (Ascii.eqb "/" "$") with false. cbv iota.
    change (Ascii.eqb "\" "/") with false. cbv iota. apply IH.
  - cbn [countChar]. rewrite (proj2 (Ascii.eqb_neq _ _) Hc). apply IH.
Qed.

Lemma normalized_idempotent (s : string) : normalized (normalized s) = normalized s.
Proof.
  unfold normalized, replaceAll. apply replaceAll_from_absent.
  apply normalized_no_backslash.
Qed.

End Replacements.

Section AppliedEntries.
Context `{DebugCore}.

#[local] Arguments String.append !s1 s2 : simpl nomatch.

(** What the applied key gives: its entry is tried and its pattern matches
    the normalised path. *)
Lemma applied_key_entry (pathMapping : IStringDictionary) (sourcePath k : string) :
  applied_key pathMapping sourcePath = Some k ->
  exists r m,
    property pathMapping k = Some r /\
    skipped k r = false /\
    pattern_match k (normalized sourcePath) = Some m.
Proof.
  intros Hk. unfold applied_key in Hk. apply find_some in Hk as [_ Happ].
  unfold applicable in Happ.
  destruct (property pathMapping k) as [r|]; [|discriminate].
  apply andb_prop in Happ as [Hskip Hmatch].
  apply bool_decide_eq_true_1 in Hmatch as [m Hm].
  exists r, m. by rewrite (negb_true_iff _) in Hskip.
Qed.

(** X1.  Among keys of the same length the order of the table decides:
    the applied key is preceded, among the keys of its length in the table,
    only by keys that are not applicable to the path. *)
Theorem applyPathMapping_ties_in_table_order (pathMapping : IStringDictionary)
    (sourcePath k : string) :
  applied_key pathMapping sourcePath = Some k ->
  exists earlier later,
    of_length (String.length k) (Object_keys pathMapping) = earlier ++ k :: later /\
    forall k', k' ∈ earlier ->
      applicable pathMapping (normalized sourcePath) k' = false.
Proof.
  intros Hk. unfold applied_key in Hk.
  apply find_first_split in Hk as (tried & rest & Hsorted & Htried & _).
  exists (of_length (String.length k) tried), (of_length (String.length k) rest).
  split.
  - rewrite <- (sort_longest_first_stable _ (Object_keys pathMapping)), Hsorted.
    unfold of_length. rewrite List.filter_app. cbn [List.filter].
    by rewrite Nat.eqb_refl.
  - intros k' Hin. unfold of_length in Hin.
    apply list_elem_of_In, List.filter_In in Hin as [Hin _].
    rewrite Forall_forall in Htried. apply Htried. by apply list_elem_of_In.
Qed.

(** X2.  A source path written with backslashes is mapped as the same path
    written with slashes: the same key is applied and the result is the
    same.  Only when no entry applies does the spelling show, the path being
    returned as it was given. *)
Theorem applyPathMapping_slash_insensitive (workspaceFolders : WorkspaceFolders)
    (sourcePath : string) (pathMapping : IStringDictionary) :
  applied_key pathMapping (normalized sourcePath) = applied_key pathMapping sourcePath
  /\ (applied_key pathMapping sourcePath <> None ->
      applyPathMapping workspaceFolders (normalized sourcePath) pathMapping
      = applyPathMapping workspaceFolders sourcePath pathMapping)
  /\ (applied_key pathMapping sourcePath = None ->
      applyPathMapping workspaceFolders sourcePath pathMapping = Normal sourcePath).
Proof.
  assert (Hkey : applied_key pathMapping (normalized sourcePath)
                 = applied_key pathMapping sourcePath)
    by (unfold applied_key; by rewrite normalized_idempotent).
  split; [exact Hkey|]. rewrite !applyPathMapping_applied, Hkey. split.
  - destruct (applied_key pathMapping sourcePath); [|done].
    by rewrite normalized_idempotent.
  - by intros ->.
Qed.

(** X3.  The applied entry with a wildcard on both sides: the text before
    the wildcard of the key accepts a prefix of the normalised path, the
    text after it accepts a suffix, and the result is the right-hand side
    with the text [w] in between put in place of its wildcard, joined and
    resolved against the workspace folder.  [w] is inserted as a replacement
    text: it is written as it is when it has no dollar pattern. *)
Theorem applyPathMapping_wildcard (workspaceFolders : WorkspaceFolders)
    (sourcePath : string) (pathMapping : IStringDictionary)
    (keyPrefix keySuffix rightPrefix rightSuffix : string) :
  countChar "*" keyPrefix = 0%nat -> countChar "*" keySuffix = 0%nat ->
  countChar "*" rightPrefix = 0%nat -> countChar "*" rightSuffix = 0%nat ->
  applied_key pathMapping sourcePath = Some (keyPrefix +:+ String "*" keySuffix) ->
  property pathMapping (keyPrefix +:+ String "*" keySuffix)
  = Some (rightPrefix +:+ String "*" rightSuffix) ->
  exists w tail,
    literal_prefix keyPrefix (normalized sourcePath) = Some (w +:+ tail) /\
    one_line w = true /\
    literal_equal keySuffix tail = true /\
    applyPathMapping workspaceFolders sourcePath pathMapping
    = replaceWorkSpaceFolderPlaceholder workspaceFolders
        (properJoin
           (rightPrefix +:+ GetSubstitution "*" rightPrefix rightSuffix w
            +:+ rightSuffix)) /\
    (expands_nothing w = true ->
     applyPathMapping workspaceFolders sourcePath pathMapping
     = replaceWorkSpaceFolderPlaceholder workspaceFolders
         (properJoin (rightPrefix +:+ w +:+ rightSuffix))).
Proof.
  intros Hkp Hks Hrp Hrs Hk Hr.
  destruct (applied_key_entry _ _ _ Hk) as (r & m & Hr' & _ & Hm).
  rewrite Hr in Hr'. injection Hr' as <-.
  apply pattern_match_wildcard in Hm as (w & tail & Hpre & Hw & Htail & ->);
    [|done..].
  exists w, tail. split; [done|]. split; [done|]. split; [done|].
  assert (Hres : applyPathMapping workspaceFolders sourcePath pathMapping
                 = replaceWorkSpaceFolderPlaceholder workspaceFolders
                     (properJoin
                        (rightPrefix
                         +:+ GetSubstitution "*" rightPrefix rightSuffix w
                         +:+ rightSuffix))).
  { rewrite applyPathMapping_applied, Hk. unfold entry_result. rewrite Hr.
    assert (Hm : pattern_match (keyPrefix +:+ String "*" keySuffix)
                   (normalized sourcePath) = Some [w])
      by (apply pattern_match_wildcard; eauto 10).
    rewrite Hm. unfold apply_entry. cbn [group Nat.pred lookup list_lookup ToString].
    by rewrite replaceAll_single. }
  split; [exact Hres|]. intros Hplain. rewrite Hres.
  by rewrite GetSubstitution_literal.
Qed.

(** X4.  The applied entry whose right-hand side has no wildcard: the
    result is the right-hand side, joined and resolved against the workspace
    folder, whatever the path was.  That is the case of every applied key
    without a wildcard: such a key accepts the whole normalised path,
    character by character up to case. *)
Theorem applyPathMapping_constant (workspaceFolders : WorkspaceFolders)
    (sourcePath : string) (pathMapping : IStringDictionary) (k : string) :
  applied_key pathMapping sourcePath = Some k ->
  exists r,
    property pathMapping k = Some r /\
    (countChar "*" k = 0%nat ->
     countChar "*" r = 0%nat /\ literal_equal k (normalized sourcePath) = true) /\
    (countChar "*" r = 0%nat ->
     applyPathMapping workspaceFolders sourcePath pathMapping
     = replaceWorkSpaceFolderPlaceholder workspaceFolders (properJoin r)).
Proof.
  intros Hk.
  destruct (applied_key_entry _ _ _ Hk) as (r & m & Hr & Hskip & Hm).
  exists r. split; [done|]. split.
  - intros Hstar. split.
    + unfold skipped in Hskip. apply orb_false_elim in Hskip as [_ Hle].
      apply Nat.ltb_ge in Hle. lia.
    + rewrite pattern_match_literal in Hm by done.
      by destruct (literal_equal k (normalized sourcePath)).
  - intros Hr0. rewrite applyPathMapping_applied, Hk. unfold entry_result.
    rewrite Hr, Hm. unfold apply_entry. by rewrite replaceAll_absent.
Qed.

(** X5.  Without a list of workspace folders [applyPathMapping] maps every
    path that an entry applies to to the empty text, and returns every other
    path as it is. *)
Theorem applyPathMapping_without_workspace (sourcePath : string)
    (pathMapping : IStringDictionary) :
  applyPathMapping None sourcePath pathMapping
  = Normal (match applied_key pathMapping sourcePath with
            | Some _ => EmptyString
            | None => sourcePath
            end).
Proof.
  rewrite applyPathMapping_applied.
  destruct (applied_key pathMapping sourcePath) as [k|] eqn:Hk; [|done].
  destruct (applied_key_entry _ _ _ Hk) as (r & m & Hr & _ & Hm).
  unfold entry_result. by rewrite Hr, Hm.
Qed.

End AppliedEntries.

(** An instance of X1: two keys of five characters that both match the
    path; the one listed first is applied. *)
Lemma applyPathMapping_ties_in_table_order_witness :
  exists earlier later,
    of_length 5 (Object_keys [("*.jsx", "/first"); ("src/*", "/second/*")])
    = earlier ++ "*.jsx" :: later /\
    forall k', k' ∈ earlier ->
      applicable [("*.jsx", "/first"); ("src/*", "/second/*")]
        (normalized "src/a.jsx") k'
      = false.
Proof.
  apply (applyPathMapping_ties_in_table_order
           [("*.jsx", "/first"); ("src/*", "/second/*")] "src/a.jsx" "*.jsx").
  reflexivity.
Defined.

(** An instance of X3: the entry [webpack:///./*] of the default overrides,
    resolved for the web root [/proj]. *)
Lemma applyPathMapping_wildcard_witness :
  exists w tail,
    literal_prefix "webpack:///./" (normalized "webpack:///.\src\app.js")
    = Some (w +:+ tail) /\
    one_line w = true /\
    literal_equal "" tail = true /\
    applyPathMapping (H := Examples.on_normal_paths)
      (Some [mkWorkspaceFolder "file:///proj"]) "webpack:///.\src\app.js"
      [("webpack:///*", "*"); ("webpack:///./*", "/proj/*")]
    = replaceWorkSpaceFolderPlaceholder (H := Examples.on_normal_paths)
        (Some [mkWorkspaceFolder "file:///proj"])
        ("/proj/" +:+ GetSubstitution "*" "/proj/" "" w +:+ "") /\
    (expands_nothing w = true ->
     applyPathMapping (H := Examples.on_normal_paths)
       (Some [mkWorkspaceFolder "file:///proj"]) "webpack:///.\src\app.js"
       [("webpack:///*", "*"); ("webpack:///./*", "/proj/*")]
     = replaceWorkSpaceFolderPlaceholder (H := Examples.on_normal_paths)
         (Some [mkWorkspaceFolder "file:///proj"]) ("/proj/" +:+ w +:+ "")).
Proof.
  apply (applyPathMapping_wildcard (H := Examples.on_normal_paths)
           (Some [mkWorkspaceFolder "file:///proj"]) "webpack:///.\src\app.js"
           [("webpack:///*", "*"); ("webpack:///./*", "/proj/*")]
           "webpack:///./" "" "/proj/" ""); reflexivity.
Defined.

(** An instance of X4: a key that names one file. *)
Lemma applyPathMapping_constant_witness :
  exists r,
    property [("webpack:///*", "*"); ("webpack:///main.js", "/proj/out/main.js")]
      "webpack:///main.js" = Some r /\
    (countChar "*" "webpack:///main.js" = 0%nat ->
     countChar "*" r = 0%nat /\
     literal_equal "webpack:///main.js" (normalized "WEBPACK:///Main.js") = true) /\
    (countChar "*" r = 0%nat ->
     applyPathMapping (H := Examples.on_normal_paths)
       (Some [mkWorkspaceFolder "file:///proj"]) "WEBPACK:///Main.js"
       [("webpack:///*", "*"); ("webpack:///main.js", "/proj/out/main.js")]
     = replaceWorkSpaceFolderPlaceholder (H := Examples.on_normal_paths)
         (Some [mkWorkspaceFolder "file:///proj"]) r).
Proof.
  apply (applyPathMapping_constant (H := Examples.on_normal_paths)
           (Some [mkWorkspaceFolder "file:///proj"]) "WEBPACK:///Main.js"
           [("webpack:///*", "*"); ("webpack:///main.js", "/proj/out/main.js")]
           "webpack:///main.js"); reflexivity.
Defined.

Section WebRootPlaceholder.

#[local] Arguments String.append !s1 s2 : simpl nomatch.

Lemma strip_prefix_app (p rest : string) : strip_prefix p (p +:+ rest) = Some rest.
Proof.
  induction p as [|c p IH]; cbn; [by destruct rest|]. by rewrite Ascii.eqb_refl.
Qed.

Lemma find_first_at_start (p s rest : string) :
  strip_prefix p s = Some rest -> find_first p s = Some (EmptyString, rest).
Proof. intros Hp. destruct s; cbn [find_first]; by rewrite Hp. Qed.

Lemma indexOf_not_at_start (p s : string) :
  strip_prefix p s = None -> indexOf p s <> Some O.
Proof.
  intros Hp. unfold indexOf. destruct s as [|c s]; cbn [find_first]; rewrite Hp.
  - done.
  - by destruct (find_first p s) as [[before after]|].
Qed.

(** X6.  The web root is put in place of the placeholder only where an entry
    starts with it: an entry that has the placeholder further on, or not at
    all, is left as it is, and so is every entry when the web root is empty.
    A web root without dollar patterns is inserted as it is. *)
Theorem replaceWebRoot_only_at_start (webRoot : string) :
  (forall entry,
     webRoot = EmptyString \/ strip_prefix "${webRoot}" entry = None ->
     replaceWebRootInSourceMapPathOverridesEntry webRoot entry = entry)
  /\ (forall rest,
        webRoot <> EmptyString ->
        replaceWebRootInSourceMapPathOverridesEntry webRoot ("${webRoot}" +:+ rest)
        = GetSubstitution "${webRoot}" EmptyString rest webRoot +:+ rest)
  /\ (forall rest,
        webRoot <> EmptyString -> expands_nothing webRoot = true ->
        replaceWebRootInSourceMapPathOverridesEntry webRoot ("${webRoot}" +:+ rest)
        = webRoot +:+ rest).
Proof.
  assert (Hstart : forall rest,
            webRoot <> EmptyString ->
            replaceWebRootInSourceMapPathOverridesEntry webRoot ("${webRoot}" +:+ rest)
            = GetSubstitution "${webRoot}" EmptyString rest webRoot +:+ rest).
  { intros rest Hroot. unfold replaceWebRootInSourceMapPathOverridesEntry, indexOf, replace.
    destruct webRoot as [|c w]; [done|]. cbn [truthy].
    by rewrite (find_first_at_start _ _ rest (strip_prefix_app _ _)). }
  split; [|split].
  - intros entry [->|Hp]; [reflexivity|].
    unfold replaceWebRootInSourceMapPathOverridesEntry.
    destruct (truthy webRoot); [|reflexivity].
    pose proof (indexOf_not_at_start _ _ Hp) as Hi.
    by destruct (indexOf "${webRoot}" entry) as [[|n]|].
  - exact Hstart.
  - intros rest Hroot Hplain. rewrite Hstart by done.
    by rewrite GetSubstitution_literal.
Qed.

Lemma has_own_keys {A} (d : list (string * A)) (key : string) :
  has_own d key = true <-> key ∈ d.*1.
Proof.
  induction d as [|[k v] d IH]; cbn [has_own].
  - split; [discriminate|]. intros Hin. by apply elem_of_nil in Hin.
  - rewrite fmap_cons, elem_of_cons, orb_true_iff, IH. cbn [fst].
    destruct (String.eqb_spec k key) as [->|Hne]; [tauto|].
    split; intros [?|?]; auto; congruence.
Qed.

(** The assignment of a property that the object lacks appends it, when the
    key is an ordinary one. *)
Lemma set_property_fresh (d : IStringDictionary) (key value : string) :
  key ∉ Object_keys d -> ordinary_key key = true ->
  set_property d key value = d ++ [(key, value)].
Proof.
  intros Hk Hkey. unfold ordinary_key in Hkey.
  apply andb_prop in Hkey as [Hproto Hindex].
  unfold set_property, set_own. rewrite (negb_true_iff _) in Hproto. rewrite Hproto.
  destruct (has_own d key) eqn:Hown.
  - apply has_own_keys in Hown. by destruct Hk.
  - by destruct (array_index key).
Qed.

Lemma resolveOverrides_loop_entrywise (webRoot : string)
    (table entries resolved : IStringDictionary) :
  has_own table "hasOwnProperty" = false ->
  entries ⊆ table ->
  NoDup (Object_keys resolved ++ Object_keys (map (resolve_entry webRoot) entries)) ->
  forallb ordinary_key (Object_keys (map (resolve_entry webRoot) entries)) = true ->
  resolveOverrides_loop webRoot table entries resolved
  = Normal (resolved ++ map (resolve_entry webRoot) entries).
Proof.
  intros Hmethod. revert resolved.
  induction entries as [|[k v] entries IH]; intros resolved Hsub Hnd Hkeys.
  - cbn. by rewrite app_nil_r.
  - cbn [resolveOverrides_loop map]. unfold hasOwnProperty. rewrite Hmethod.
    assert (Hown : has_own table k = true).
    { apply has_own_keys, list_elem_of_fmap. exists (k, v). split; [done|].
      apply Hsub. left. }
    rewrite Hown. unfold Object_keys in *.
    rewrite fmap_cons in Hnd, Hkeys. cbn [resolve_entry fst snd forallb] in *.
    apply andb_prop in Hkeys as [Hkey Hkeys].
    rewrite set_property_fresh.
    + rewrite IH.
      * by rewrite <- app_assoc.
      * intros e He. apply Hsub. by right.
      * rewrite fmap_app. cbn. rewrite <- app_assoc. exact Hnd.
      * exact Hkeys.
    + apply NoDup_app in Hnd as (_ & Hdisj & _). intros Hin.
      apply (Hdisj _ Hin). left.
    + exact Hkey.
Qed.

(** X7.  The loop of [getRuntimeConfig] over the source-map overrides.  A
    table with an own key [hasOwnProperty] makes the loop throw a TypeError
    at its first entry.  For any other table whose resolved keys are
    pairwise different and ordinary (no array index, not [__proto__]) the
    loop resolves the table entry by entry: the entries keep their order,
    and the key and the value of each have the web root put in place of a
    leading placeholder. *)
Theorem resolveOverrides_entrywise (webRoot : string)
    (sourceMapPathOverrides : IStringDictionary) :
  let resolvedKeys :=
    Object_keys (map (resolve_entry webRoot) sourceMapPathOverrides) in
  (has_own sourceMapPathOverrides "hasOwnProperty" = true ->
   resolveOverrides webRoot sourceMapPathOverrides
   = Throw (TypeError "sourceMapPathOverrides.hasOwnProperty is not a function"))
  /\ (has_own sourceMapPathOverrides "hasOwnProperty" = false ->
      NoDup resolvedKeys ->
      forallb ordinary_key resolvedKeys = true ->
      resolveOverrides webRoot sourceMapPathOverrides
      = Normal (map (resolve_entry webRoot) sourceMapPathOverrides)).
Proof.
  intros resolvedKeys. split.
  - intros Hmethod. unfold resolveOverrides.
    destruct sourceMapPathOverrides as [|[k v] entries]; [discriminate|].
    cbn [resolveOverrides_loop]. unfold hasOwnProperty. by rewrite Hmethod.
  - intros Hmethod Hnd Hkeys. unfold resolveOverrides.
    by rewrite resolveOverrides_loop_entrywise.
Qed.

End WebRootPlaceholder.

(** An instance of X7: two of the default overrides at the web root
    [/proj]. *)
Lemma resolveOverrides_entrywise_witness :
  resolveOverrides "/proj"
    [("webpack:///./*", "${webRoot}/*"); ("webpack:///src/*", "${webRoot}/src/*")]
  = Normal [("webpack:///./*", "/proj/*"); ("webpack:///src/*", "/proj/src/*")].
Proof.
  apply (resolveOverrides_entrywise "/proj"
           [("webpack:///./*", "${webRoot}/*"); ("webpack:///src/*", "${webRoot}/src/*")]).
  - reflexivity.
  - apply (bool_decide_unpack _). vm_compute. reflexivity.
  - reflexivity.
Defined.

(* ================================================================== *)
(** * The order of the patterns *)
(* ================================================================== *)

Section WildcardMatch.

#[local] Arguments String.append !s1 s2 : simpl nomatch.

Lemma find_first_char_none (c : ascii) (s : string) :
  find_first (String c EmptyString) s = None -> countChar c s = 0%nat.
Proof.
  induction s as [|d s IH]; [reflexivity|].
  cbn [find_first strip_prefix countChar].
  destruct (Ascii.eqb c d); [discriminate|].
  destruct (find_first (String c EmptyString) s) as [[before after]|];
    [discriminate|]. intros _. by rewrite IH.
Qed.

Lemma find_first_char_some (c : ascii) (s before after : string) :
  find_first (String c EmptyString) s = Some (before, after) ->
  s = before +:+ String c after /\ countChar c before = 0%nat.
Proof.
  revert before. induction s as [|d s IH]; intros before; [discriminate|].
  cbn [find_first strip_prefix].
  destruct (Ascii.eqb_spec c d) as [<-|Hne].
  - intros [= <- <-]. by split.
  - destruct (find_first (String c EmptyString) s) as [[before' after']|];
      [|discriminate].
    intros [= <- <-]. destruct (IH before' eq_refl) as [-> Hcount].
    split; [reflexivity|]. cbn [countChar].
    by rewrite (proj2 (Ascii.eqb_neq _ _) Hne), Hcount.
Qed.

Lemma substring_prefix (w t : string) :
  substring 0 (String.length w) (w +:+ t) = w.
Proof.
  induction w as [|c w IH]; cbn [String.append String.length substring].
  - by destruct t.
  - by rewrite IH.
Qed.

Lemma substring_suffix (w t : string) :
  substring (String.length w) (String.length t) (w +:+ t) = t.
Proof.
  induction w as [|c w IH]; cbn [String.append String.length substring].
  - induction t as [|d t IHt]; [reflexivity|].
    cbn [String.length substring]. by rewrite IHt.
  - exact IH.
Qed.

Lemma substring_split (n : nat) (s : string) :
  (n <= String.length s)%nat ->
  s = substring 0 n s +:+ substring n (String.length s - n) s.
Proof.
  revert n. induction s as [|c s IH]; intros n Hn.
  - cbn in Hn. by replace n with 0%nat by lia.
  - destruct n as [|n].
    + cbn [substring String.append String.length Nat.sub].
      f_equal. clear. induction s as [|d s IHs]; [reflexivity|].
      cbn [String.length substring]. by rewrite <- IHs.
    + cbn [String.length] in *. cbn [substring String.append Nat.sub].
      f_equal. apply IH. lia.
Qed.

Lemma substring_length (n m : nat) (s : string) :
  (n + m <= String.length s)%nat -> String.length (substring n m s) = m.
Proof.
  revert n m. induction s as [|c s IH]; intros n m Hlen.
  - cbn in Hlen. by destruct n, m; cbn; try lia.
  - cbn [String.length] in Hlen. destruct n as [|n].
    + destruct m as [|m]; [reflexivity|]. cbn [substring String.length].
      f_equal. apply IH. lia.
    + cbn [substring]. apply IH. lia.
Qed.

(** The regular expression that the code builds for a left pattern with at
    most one wildcard matches as the pattern reads. *)
Lemma pattern_match_wildcard_match (leftPattern path : string) :
  (countChar "*" leftPattern <= 1)%nat ->
  pattern_match leftPattern path = wildcard_match leftPattern path.
Proof.
  intros Hstar. unfold wildcard_match.
  destruct (find_first "*" leftPattern) as [[before after]|] eqn:Hsplit.
  - apply find_first_char_some in Hsplit as [-> Hbefore].
    assert (Hafter : countChar "*" after = 0%nat).
    { rewrite countChar_app in Hstar. cbn [countChar] in Hstar.
      rewrite Ascii.eqb_refl in Hstar. lia. }
    destruct (pattern_match (before +:+ String "*" after) path) as [m|] eqn:Hm.
    + apply pattern_match_wildcard in Hm as (w & tail & -> & Hw & Htail & ->);
        [|done..].
      pose proof (literal_equal_length _ _ Htail) as Hlen.
      rewrite length_app, Hlen.
      replace (String.length w + String.length after - String.length after)%nat
        with (String.length w) by lia.
      rewrite <- Hlen, substring_prefix, substring_suffix, Hw, Htail.
      by destruct (Nat.leb_spec (String.length tail)
                     (String.length w + String.length tail)); [|lia].
    + destruct (literal_prefix before path) as [rest|] eqn:Hprefix; [|reflexivity].
      destruct (Nat.leb_spec (String.length after) (String.length rest)) as [Hle|];
        [|reflexivity].
      cbn [andb].
      destruct (one_line _) eqn:Hw; [|reflexivity].
      destruct (literal_equal after _) eqn:Htail; [|reflexivity].
      exfalso.
      assert (Hsome : pattern_match (before +:+ String "*" after) path
                      = Some [substring 0 (String.length rest - String.length after) rest]).
      { apply pattern_match_wildcard; [done..|].
        eexists _, _. split; [|split; [exact Hw|split; [exact Htail|reflexivity]]].
        rewrite Hprefix. f_equal.
        rewrite (substring_split (String.length rest - String.length after) rest)
          at 1 by lia.
        do 2 f_equal. lia. }
      congruence.
  - apply find_first_char_none in Hsplit. by apply pattern_match_literal.
Qed.

(** A key is accepted when the code tries it and its regular expression
    matches. *)
Lemma accepted_applicable (pathMapping : IStringDictionary) (path k : string) :
  accepted pathMapping path k = applicable pathMapping path k.
Proof.
  unfold accepted, applicable.
  destruct (property pathMapping k) as [r|]; [|reflexivity].
  destruct (skipped k r) eqn:Hskip; [reflexivity|].
  rewrite pattern_match_wildcard_match; [reflexivity|].
  unfold skipped in Hskip. apply orb_false_elim in Hskip as [Hone _].
  by apply Nat.ltb_ge in Hone.
Qed.

Lemma literal_prefix_app (literal p rest : string) :
  literal_equal literal p = true -> literal_prefix literal (p +:+ rest) = Some rest.
Proof.
  unfold literal_equal. revert p.
  induction literal as [|c literal IH]; intros p.
  - cbn [literal_prefix]. by destruct p.
  - destruct p as [|d p]; cbn [literal_prefix String.append]; [discriminate|].
    destruct (char_matches c d); [apply IH|discriminate].
Qed.

End WildcardMatch.

Section LongestFirst.
Context `{DebugCore}.

#[local] Arguments String.append !s1 s2 : simpl nomatch.

(** The table of the two overlapping keys, in either order: the entry of
    the longer key is applied to a path that it accepts. *)
Lemma applyPathMapping_overlapping (workspaceFolders : WorkspaceFolders)
    (table : IStringDictionary)
    (other p w shorter rightPrefix rightSuffix : string) :
  table ≡ₚ [("webpack:///*", shorter);
            ("webpack:///./*", rightPrefix +:+ String "*" rightSuffix)] ->
  countChar "*" rightPrefix = 0%nat -> countChar "*" rightSuffix = 0%nat ->
  normalized other = p +:+ w ->
  literal_equal "webpack:///./" p = true ->
  one_line w = true ->
  applyPathMapping workspaceFolders other table
  = replaceWorkSpaceFolderPlaceholder workspaceFolders
      (properJoin
         (rightPrefix +:+ GetSubstitution "*" rightPrefix rightSuffix w
          +:+ rightSuffix)).
Proof.
  intros Htable Hrp Hrs Hpath Hp Hw.
  assert (Hmatch : pattern_match "webpack:///./*" (p +:+ w) = Some [w]).
  { apply (pattern_match_wildcard "webpack:///./" EmptyString); [done..|].
    exists w, EmptyString. rewrite append_empty_r.
    split; [by apply literal_prefix_app|]. by repeat split. }
  assert (Hskip : skipped "webpack:///./*" (rightPrefix +:+ String "*" rightSuffix)
                  = false).
  { unfold skipped. rewrite countChar_app. cbn [countChar].
    rewrite Hrp, Hrs. reflexivity. }
  assert (Hkey : applied_key table other = Some "webpack:///./*"
                 /\ property table "webpack:///./*"
                    = Some (rightPrefix +:+ String "*" rightSuffix)).
  { symmetry in Htable. apply Permutation_length_2_inv in Htable as [->| ->];
      (split; [|reflexivity]);
      unfold applied_key; rewrite Hpath;
      change (sort_longest_first (Object_keys _))
        with ["webpack:///./*"; "webpack:///*"];
      cbn [List.find]; unfold applicable at 1;
      cbn [property String.eqb Ascii.eqb Bool.eqb];
      by rewrite Hskip, Hmatch. }
  destruct Hkey as [Hkey Hentry].
  rewrite applyPathMapping_applied, Hkey. unfold entry_result.
  rewrite Hentry, Hpath, Hmatch. unfold apply_entry.
  cbn [group Nat.pred lookup list_lookup ToString].
  by rewrite replaceAll_single.
Qed.

(** C2.  [applyPathMapping] goes through the keys of the table sorted by
    length, longest first, and applies only the first key in that order
    whose entry is tried and whose pattern accepts the whole normalised
    path, letters in either case and the wildcard standing for any text
    without a line terminator; the regular expression that the code builds
    matches exactly so.  The result is the right-hand side of that key with
    the captured text in place of its wildcards, joined and resolved against
    the workspace folder.  Consequently no key is applied while a longer key
    of the table is accepted, and for a table of the two overlapping keys
    [webpack:///*] and [webpack:///./*], in either order, every path that
    the longer key accepts gets the replacement of the longer key. *)
Theorem applyPathMapping_longest_first (workspaceFolders : WorkspaceFolders)
    (sourcePath : string) (pathMapping : IStringDictionary) :
  let path := normalized sourcePath in
  let keys := sort_longest_first (Object_keys pathMapping) in
  let result := applyPathMapping workspaceFolders sourcePath pathMapping in
  keys ≡ₚ Object_keys pathMapping /\
  longest_first keys /\
  (forall leftPattern,
     (countChar "*" leftPattern <= 1)%nat ->
     pattern_match leftPattern path = wildcard_match leftPattern path) /\
  ((exists tried k rest r m,
      keys = tried ++ k :: rest /\
      Forall (fun k' => accepted pathMapping path k' = false) tried /\
      property pathMapping k = Some r /\
      skipped k r = false /\
      wildcard_match k path = Some m /\
      result
      = replaceWorkSpaceFolderPlaceholder workspaceFolders
          (properJoin (replaceAll "*" (ToString (group 1 m)) r)))
   \/ (Forall (fun k' => accepted pathMapping path k' = false) keys /\
       result = Normal sourcePath)) /\
  (forall tried k rest k',
     keys = tried ++ k :: rest ->
     Forall (fun k' => accepted pathMapping path k' = false) tried ->
     k' ∈ Object_keys pathMapping ->
     accepted pathMapping path k' = true ->
     (String.length k' <= String.length k)%nat) /\
  (forall (table : IStringDictionary)
          (other p w shorter rightPrefix rightSuffix : string),
     table ≡ₚ [("webpack:///*", shorter);
               ("webpack:///./*", rightPrefix +:+ String "*" rightSuffix)] ->
     countChar "*" rightPrefix = 0%nat -> countChar "*" rightSuffix = 0%nat ->
     normalized other = p +:+ w ->
     literal_equal "webpack:///./" p = true ->
     one_line w = true ->
     applyPathMapping workspaceFolders other table
     = replaceWorkSpaceFolderPlaceholder workspaceFolders
         (properJoin
            (rightPrefix +:+ GetSubstitution "*" rightPrefix rightSuffix w
             +:+ rightSuffix))).
Proof.
  intros path keys result.
  split; [apply sort_longest_first_perm|].
  split; [apply sort_longest_first_sorted|].
  split; [intros leftPattern; apply pattern_match_wildcard_match|].
  split; [|split].
  - subst result. rewrite applyPathMapping_applied. unfold applied_key.
    fold path keys.
    destruct (List.find (applicable pathMapping path) keys) as [k|] eqn:Hfind.
    + left. destruct (find_first_split _ _ _ Hfind) as (tried & rest & Hk & Hall & Happ).
      unfold applicable in Happ. unfold entry_result.
      destruct (property pathMapping k) as [r|] eqn:Hr; [|discriminate].
      apply andb_prop in Happ as [Hskip Hmatch].
      apply negb_true_iff in Hskip.
      apply bool_decide_eq_true_1 in Hmatch as [m Hm]. rewrite Hm.
      exists tried, k, rest, r, m. split; [exact Hk|]. split.
      { eapply Forall_impl; [exact Hall|]. intros k' Hk'.
        by rewrite accepted_applicable. }
      split; [exact Hr|]. split; [exact Hskip|]. split; [|reflexivity].
      rewrite <- pattern_match_wildcard_match; [exact Hm|].
      unfold skipped in Hskip. apply orb_false_elim in Hskip as [Hone _].
      by apply Nat.ltb_ge in Hone.
    + right. split; [|reflexivity]. apply find_none_all in Hfind.
      eapply Forall_impl; [exact Hfind|]. intros k' Hk'.
      by rewrite accepted_applicable.
  - intros tried k rest k' Hk Hall Hin Hacc.
    assert (Hin' : k' ∈ tried ++ k :: rest).
    { rewrite <- Hk. subst keys. by rewrite sort_longest_first_perm. }
    apply elem_of_app in Hin' as [Hin'|Hin'].
    + rewrite Forall_forall in Hall. rewrite (Hall k' Hin') in Hacc. discriminate.
    + eapply longest_first_before; [|exact Hin'].
      rewrite <- Hk. apply sort_longest_first_sorted.
  - intros table other p w shorter rightPrefix rightSuffix.
    apply applyPathMapping_overlapping.
Qed.

End LongestFirst.

(** The instance of C2 at a path in upper case and with backslashes that
    both keys accept: the replacement of the longer key is applied. *)
Lemma applyPathMapping_longest_first_witness :
  applyPathMapping (H := Examples.on_normal_paths)
    (Some [mkWorkspaceFolder "file:///proj"]) "WEBPACK:///.\src\App.js"
    [("webpack:///*", "*"); ("webpack:///./*", "/proj/*")]
  = Normal "/proj/src/App.js"
  /\ wildcard_match "webpack:///*" (normalized "WEBPACK:///.\src\App.js")
     = Some ["./src/App.js"]
  /\ wildcard_match "webpack:///./*" (normalized "WEBPACK:///.\src\App.js")
     = Some ["src/App.js"].
Proof.
  destruct (applyPathMapping_longest_first (H := Examples.on_normal_paths)
              (Some [mkWorkspaceFolder "file:///proj"]) "WEBPACK:///.\src\App.js"
              [("webpack:///*", "*"); ("webpack:///./*", "/proj/*")])
    as (_ & _ & _ & _ & _ & Hlonger).
  split; [|split; reflexivity].
  rewrite (Hlonger [("webpack:///*", "*"); ("webpack:///./*", "/proj/*")]
             "WEBPACK:///.\src\App.js" "WEBPACK:///./" "src/App.js"
             "*" "/proj/" EmptyString); reflexivity.
Defined.

(* ================================================================== *)
(** * Settings *)
(* ================================================================== *)

Section TrailingSlash.

#[local] Arguments String.append !s1 s2 : simpl nomatch.

Lemma endsWith_app (suffix s : string) : endsWith suffix (s +:+ suffix) = true.
Proof.
  induction s as [|c s IH].
  - cbn [String.append]. destruct suffix; cbn [endsWith]; by rewrite String.eqb_refl.
  - cbn [String.append endsWith]. rewrite IH. apply orb_true_r.
Qed.

Lemma slice_app_last (s : string) (c : ascii) :
  slice_0_minus_1 (s +:+ String c EmptyString) = s.
Proof.
  induction s as [|d s IH]; [reflexivity|].
  cbn [String.append]. cbn [slice_0_minus_1]. rewrite IH.
  by destruct s.
Qed.

Lemma endsWith_char_inv (c : ascii) (uri : string) :
  endsWith (String c EmptyString) uri = true ->
  exists s, uri = s +:+ String c EmptyString.
Proof.
  induction uri as [|d uri IH]; cbn [endsWith]; [by rewrite String.eqb_sym|].
  intros Hends. apply orb_prop in Hends as [Heq|Hrest].
  - apply String.eqb_eq in Heq. exists EmptyString. by rewrite <- Heq.
  - destruct (IH Hrest) as [s ->]. by exists (String d s).
Qed.

(** X8.  [removeTrailingSlash] undoes the appending of one slash, and of one
    only: a text that ends with a slash loses that slash, every other text
    is returned as it is. *)
Theorem removeTrailingSlash_one_slash (uri : string) :
  removeTrailingSlash (uri +:+ "/") = uri
  /\ ((forall s, uri <> s +:+ "/") -> removeTrailingSlash uri = uri)
  /\ removeTrailingSlash uri +:+ (if endsWith "/" uri then "/" else EmptyString) = uri.
Proof.
  unfold removeTrailingSlash. split; [|split].
  - by rewrite endsWith_app, slice_app_last.
  - intros Hno. destruct (endsWith "/" uri) eqn:Hends; [|reflexivity].
    apply endsWith_char_inv in Hends as [s ->]. by destruct (Hno s).
  - destruct (endsWith "/" uri) eqn:Hends.
    + apply endsWith_char_inv in Hends as [s ->]. by rewrite slice_app_last.
    + apply append_empty_r.
Qed.

End TrailingSlash.

Section RemoteEndpoint.
Context `{System}.

Lemma or_else_text (x : option string) (y : string) :
  y <> EmptyString -> or_else truthy x y <> EmptyString.
Proof. intros Hy. unfold or_else. by destruct x as [[|c s]|]. Qed.

Lemma or_else_number (x : option Z) (y : Z) :
  y <> 0 -> or_else truthy_number x y <> 0.
Proof.
  intros Hy. unfold or_else, truthy_number. destruct x as [n|]; [|done].
  destruct (Z.eqb_spec n 0); cbn; done.
Qed.

(** X9.  The settings [getRemoteEndpointSettings] returns are never blank:
    the host name and the default url are not empty and the port and the
    timeout are not zero, whatever the launch config and the extension
    settings hold (an empty text or a zero there gives way to the next
    source, in the end to the default). *)
Theorem getRemoteEndpointSettings_never_blank (settings : Configuration)
    (config : IUserConfig) :
  let r := getRemoteEndpointSettings settings config in
  hostname r <> EmptyString /\ port r <> 0 /\
  defaultUrl r <> EmptyString /\ timeout r <> 0.
Proof.
  cbn. repeat split.
  - by apply or_else_text, or_else_text.
  - by apply or_else_number, or_else_number.
  - by apply or_else_text, or_else_text.
  - by apply or_else_number, or_else_number.
Qed.

(** X10.  Https is used as soon as the launch config or the extension
    settings ask for it: a [false] in the launch config does not switch off
    a [true] of the settings. *)
Theorem getRemoteEndpointSettings_useHttps (settings : Configuration)
    (config : IUserConfig) :
  useHttps (getRemoteEndpointSettings settings config) = true
  <-> config_useHttps config = Some true \/ get_useHttps settings = Some true.
Proof.
  cbn. unfold or_else, truthy_boolean, SETTINGS_DEFAULT_USE_HTTPS.
  destruct (config_useHttps config) as [[|]|], (get_useHttps settings) as [[|]|];
    split; try tauto; try discriminate; intros [?|?]; discriminate.
Qed.

(** X11.  The user data directory that is returned is always a text.  The
    launch config decides before the extension settings; [true] stands for
    a directory under the temporary directory that is named after the port
    that was settled on, [false] for no directory; when neither says
    anything, the temporary directory is used unless the launch config
    names a browser flavor other than [Default]. *)
Theorem getRemoteEndpointSettings_userDataDir (settings : Configuration)
    (config : IUserConfig) :
  let r := getRemoteEndpointSettings settings config in
  let temporary :=
    path_join os_tmpdir
      ("vscode-edge-devtools-userdatadir_" +:+ Number_toString (port r)) in
  let chosen :=
    match config_userDataDir config with
    | Some dir => Some dir
    | None => get_userDataDir settings
    end in
  userDataDir r
  = Some (Text
      match chosen with
      | Some (Flag true) => temporary
      | Some (Flag false) => EmptyString
      | Some (Text dir) => dir
      | None =>
          match config_browserFlavor config with
          | None | Some Default => temporary
          | Some _ => EmptyString
          end
      end).
Proof.
  cbn.
  destruct (config_userDataDir config) as [[[|]|[|c dir]]|];
    [reflexivity..|].
  destruct (get_userDataDir settings) as [[[|]|[|c dir]]|];
    [reflexivity..|].
  by destruct (config_browserFlavor config) as [[]|].
Qed.

End RemoteEndpoint.

Section RuntimeConfig.
Context `{DebugCore}.

Lemma resolveMapping_entrywise (workspaceFolders : WorkspaceFolders)
    (table entries resolved : IStringDictionary) (values : list string) :
  has_own table "hasOwnProperty" = false ->
  entries ⊆ table ->
  NoDup (Object_keys resolved ++ Object_keys entries) ->
  forallb ordinary_key (Object_keys entries) = true ->
  Forall2
    (fun entry value =>
       replaceWorkSpaceFolderPlaceholder workspaceFolders entry.2 = Normal value)
    entries values ->
  resolveMapping workspaceFolders table entries resolved
  = Normal (resolved ++ zip (Object_keys entries) values).
Proof.
  intros Hmethod Hsub Hnd Hkeys Hvalues. revert resolved Hsub Hnd Hkeys.
  induction Hvalues as [|[k v] value entries values Hvalue _ IH];
    intros resolved Hsub Hnd Hkeys.
  - cbn. by rewrite app_nil_r.
  - cbn [resolveMapping]. unfold hasOwnProperty. rewrite Hmethod.
    assert (Hown : has_own table k = true).
    { apply has_own_keys, list_elem_of_fmap. exists (k, v). split; [done|].
      apply Hsub. left. }
    rewrite Hown. cbn [snd] in Hvalue. rewrite Hvalue.
    unfold Object_keys in *. rewrite fmap_cons in Hnd, Hkeys.
    cbn [fst forallb] in Hnd, Hkeys. apply andb_prop in Hkeys as [Hkey Hkeys].
    rewrite set_property_fresh.
    + rewrite IH.
      * rewrite fmap_cons. cbn [zip zip_with fst]. by rewrite <- app_assoc.
      * intros e He. apply Hsub. by right.
      * rewrite fmap_app. cbn. rewrite <- app_assoc. exact Hnd.
      * exact Hkeys.
    + apply NoDup_app in Hnd as (_ & Hdisj & _). intros Hin.
      apply (Hdisj _ Hin). left.
    + exact Hkey.
Qed.

(** X12.  [getRuntimeConfig] on tables without an own key [hasOwnProperty],
    the chosen path mapping (launch config before settings before default)
    having pairwise different, ordinary keys, and the workspace folder being
    resolved in each of its values without a throw: the function returns.
    The path mapping it returns has the keys of the chosen one, in their
    order, each with its resolved value, which is the empty text throughout
    when the list of workspace folders is undefined.  The source-map
    overrides it returns are those the loop over them gives, the web root is
    never empty, and source maps are off only where the launch config says
    so, or the settings when the launch config says nothing. *)
Theorem getRuntimeConfig_resolved (defaultOverrides : IStringDictionary)
    (workspaceFolders : WorkspaceFolders) (settings : Configuration)
    (config : IUserConfig) (values : list string) (overrides : IStringDictionary) :
  let chosen :=
    defined_or (config_pathMapping config)
      (defined_or (get_pathMapping settings) SETTINGS_DEFAULT_PATH_MAPPING) in
  let chosenOverrides :=
    defined_or (config_sourceMapPathOverrides config)
      (defined_or (get_sourceMapPathOverrides settings) defaultOverrides) in
  let chosenRoot :=
    or_else truthy (config_webRoot config)
      (or_else truthy (get_webRoot settings) SETTINGS_DEFAULT_WEB_ROOT) in
  has_own chosen "hasOwnProperty" = false ->
  NoDup (Object_keys chosen) ->
  forallb ordinary_key (Object_keys chosen) = true ->
  Forall2
    (fun entry value =>
       replaceWorkSpaceFolderPlaceholder workspaceFolders entry.2 = Normal value)
    chosen values ->
  resolveOverrides chosenRoot chosenOverrides = Normal overrides ->
  exists r,
    getRuntimeConfig defaultOverrides workspaceFolders settings config = Normal r /\
    pathMapping r = zip (Object_keys chosen) values /\
    (workspaceFolders = None ->
     pathMapping r = map (fun entry => (entry.1, EmptyString)) chosen) /\
    sourceMapPathOverrides r = overrides /\
    webRoot r = chosenRoot /\ webRoot r <> EmptyString /\
    (sourceMaps r = false <->
     config_sourceMaps config = Some false \/
     (config_sourceMaps config = None /\ get_sourceMaps settings = Some false)).
Proof.
  intros chosen chosenOverrides chosenRoot Hmethod Hnd Hkeys Hvalues Hoverrides.
  unfold getRuntimeConfig. fold chosen chosenOverrides chosenRoot.
  rewrite Hoverrides.
  rewrite (resolveMapping_entrywise _ _ _ _ values) by done. cbn [app].
  eexists. split; [reflexivity|]. cbn [pathMapping webRoot sourceMaps sourceMapPathOverrides].
  split; [reflexivity|]. split; [|split; [reflexivity|split; [reflexivity|split]]].
  - intros ->. clear -Hvalues.
    induction Hvalues as [|[k v] value entries values Hvalue _ IH]; [reflexivity|].
    cbn in Hvalue. injection Hvalue as <-.
    unfold Object_keys in *. rewrite fmap_cons. cbn [zip zip_with map fst].
    f_equal. exact IH.
  - by apply or_else_text, or_else_text.
  - unfold defined_or, SETTINGS_DEFAULT_SOURCE_MAPS.
    destruct (config_sourceMaps config) as [[|]|], (get_sourceMaps settings) as [[|]|];
      split; try tauto; try discriminate;
      intros [?|[? ?]]; discriminate.
Qed.



End RuntimeConfig.

(** An instance of X12: a path mapping of the launch config whose values
    are normal paths, in the workspace folder [file:///proj]. *)
Lemma getRuntimeConfig_resolved_witness :
  exists r,
    getRuntimeConfig (H := Examples.on_normal_paths) [("webpack:///*", "*")]
      (Some [mkWorkspaceFolder "file:///proj"])
      (mkConfiguration None None None None None None None None None None None)
      (mkUserConfig None None None None None None None None
         (Some [("/", "/proj/www"); ("/lib", "/proj/lib")]) None None None)
    = Normal r /\
    pathMapping r = [("/", "/proj/www"); ("/lib", "/proj/lib")] /\
    sourceMapPathOverrides r = [("webpack:///*", "*")] /\
    webRoot r = "${workspaceFolder}" /\
    sourceMaps r = true.
Proof.
  destruct (getRuntimeConfig_resolved (H := Examples.on_normal_paths)
              [("webpack:///*", "*")] (Some [mkWorkspaceFolder "file:///proj"])
              (mkConfiguration None None None None None None None None None None None)
              (mkUserConfig None None None None None None None None
                 (Some [("/", "/proj/www"); ("/lib", "/proj/lib")]) None None None)
              ["/proj/www"; "/proj/lib"] [("webpack:///*", "*")])
    as (r & Hr & Hmapping & _ & Hoverrides & Hroot & _).
  - reflexivity.
  - apply (bool_decide_unpack _). vm_compute. reflexivity.
  - reflexivity.
  - repeat constructor.
  - reflexivity.
  - exists r. split; [exact Hr|]. split; [exact Hmapping|].
    split; [exact Hoverrides|]. split; [exact Hroot|].
    injection Hr as <-. reflexivity.
Defined.


Section BrowserPath.
Context `{System}.

Lemma findFlavorPath_candidates (flavor : option BrowserFlavor) (platform : Platform)
    (browserPath : IBrowserPath) :
  findFlavorPath flavor platform (Some browserPath)
  = first_existing (candidates flavor platform browserPath).
Proof.
  unfold findFlavorPath, first_existing, candidates.
  destruct (is_platform platform Windows || is_default flavor),
    (is_platform platform OSX || is_default flavor);
    cbn [app List.filter]; rewrite ?andb_true_r, ?andb_false_r;
    destruct (pathExists (windows_primary browserPath)),
      (pathExists (windows_secondary browserPath)),
      (pathExists (osx browserPath)); reflexivity.
Qed.

Lemma first_existing_app (paths more : list string) :
  Forall (fun p => p <> EmptyString) paths ->
  first_existing (paths ++ more)
  = if truthy (first_existing paths) then first_existing paths
    else first_existing more.
Proof.
  unfold first_existing. induction 1 as [|p paths Hp _ IH]; [reflexivity|].
  cbn [app List.filter]. destruct (pathExists p); [|exact IH].
  cbn [hd]. by destruct p.
Qed.

Lemma first_existing_exists (paths : list string) :
  first_existing paths = EmptyString
  \/ (first_existing paths ∈ paths /\ pathExists (first_existing paths) = true).
Proof.
  unfold first_existing.
  destruct (List.filter pathExists paths) as [|p l] eqn:Hf; [by left|].
  right. cbn [hd].
  assert (Hin : In p (List.filter pathExists paths)) by (rewrite Hf; by left).
  apply List.filter_In in Hin as [Hin Hp]. split; [by apply list_elem_of_In|done].
Qed.

Lemma verifyFlavorPath_loop_first (flavor : option BrowserFlavor) (platform : Platform)
    (values : list IBrowserPath) (item : option IBrowserPath) :
  Forall (fun value =>
            Forall (fun p => p <> EmptyString) (candidates flavor platform value))
    values ->
  findFlavorPath flavor platform item = EmptyString ->
  verifyFlavorPath_loop flavor platform values item
  = first_existing (flat_map (candidates flavor platform) values).
Proof.
  intros Hvalues. revert item.
  induction Hvalues as [|value values Hvalue _ IH]; intros item Hitem.
  - exact Hitem.
  - cbn [verifyFlavorPath_loop flat_map].
    rewrite first_existing_app by exact Hvalue.
    rewrite findFlavorPath_candidates.
    destruct (truthy (first_existing (candidates flavor platform value))) eqn:Hfound;
      [reflexivity|].
    apply IH. rewrite findFlavorPath_candidates.
    by destruct (first_existing (candidates flavor platform value)).
Qed.

Lemma candidates_not_empty (LOCALAPPDATA : option string)
    (flavor : option BrowserFlavor) (platform : Platform) :
  (forall a b, path_join a b <> EmptyString) ->
  Forall (fun value =>
            Forall (fun p => p <> EmptyString) (candidates flavor platform value))
    (msEdgeBrowserMapping LOCALAPPDATA).*2.
Proof.
  intros Hjoin. unfold msEdgeBrowserMapping, candidates. cbn [fmap list_fmap snd].
  repeat constructor;
    destruct (is_platform platform Windows || is_default flavor),
      (is_platform platform OSX || is_default flavor);
    cbn [app windows_primary windows_secondary osx];
    repeat constructor; solve [discriminate | apply Hjoin].
Qed.

(** X14.  [getBrowserPath] returns the first path that exists on disk among
    the candidates, in the order: the flavors Stable, Beta, Dev, Canary (the
    entry of the flavor alone when the launch config or, after it, the
    settings name one of them) and, within a flavor, the primary and the
    secondary Windows path on Windows and the macOS path on macOS (all three
    when the flavor is given as [Default]).  It returns the empty text when
    none of them exists, and always on Linux.  Hence the result is empty or
    a candidate that exists. *)
Theorem getBrowserPath_first_existing (LOCALAPPDATA : option string)
    (settings : Configuration) (config : IUserConfig) :
  (forall a b, path_join a b <> EmptyString) ->
  let flavor :=
    match config_browserFlavor config with
    | Some f => Some f
    | None => get_browserFlavor settings
    end in
  let paths :=
    match getPlatform with
    | Linux => []
    | platform =>
        flat_map (candidates flavor platform) (entries_for LOCALAPPDATA flavor)
    end in
  getBrowserPath LOCALAPPDATA settings config = first_existing paths
  /\ (getBrowserPath LOCALAPPDATA settings config = EmptyString
      \/ (getBrowserPath LOCALAPPDATA settings config ∈ paths
          /\ pathExists (getBrowserPath LOCALAPPDATA settings config) = true)).
Proof.
  intros Hjoin flavor paths.
  assert (Hverify : forall platform,
            verifyFlavorPath LOCALAPPDATA flavor platform
            = first_existing
                (flat_map (candidates flavor platform) (entries_for LOCALAPPDATA flavor))).
  { intros platform. unfold verifyFlavorPath, entries_for.
    destruct (Map_get (msEdgeBrowserMapping LOCALAPPDATA) (defined_or flavor Default))
      as [entry|].
    - cbn [flat_map]. rewrite app_nil_r. apply findFlavorPath_candidates.
    - apply verifyFlavorPath_loop_first; [by apply candidates_not_empty|reflexivity]. }
  assert (Hpath : getBrowserPath LOCALAPPDATA settings config = first_existing paths).
  { unfold getBrowserPath. fold flavor. subst paths.
    destruct getPlatform; [apply Hverify..|reflexivity]. }
  split; [exact Hpath|]. rewrite Hpath. apply first_existing_exists.
Qed.

End BrowserPath.

(** An instance of X14: a Windows machine with Edge Beta installed for the
    user and Edge Canary for the machine; no flavor is asked for. *)
Lemma getBrowserPath_first_existing_witness :
  getBrowserPath
    (H := windows_machine
            ["C:\Users\me\AppData\Local\Microsoft\Edge Beta\Application\msedge.exe";
             "C:\Program Files (x86)\Microsoft\Edge SxS\Application\msedge.exe"])
    (Some "C:\Users\me\AppData\Local")
    (mkConfiguration None None None None None None None None None None None)
    no_config
  = "C:\Users\me\AppData\Local\Microsoft\Edge Beta\Application\msedge.exe".
Proof.
  destruct (getBrowserPath_first_existing
              (H := windows_machine
                      ["C:\Users\me\AppData\Local\Microsoft\Edge Beta\Application\msedge.exe";
                       "C:\Program Files (x86)\Microsoft\Edge SxS\Application\msedge.exe"])
              (Some "C:\Users\me\AppData\Local")
              (mkConfiguration None None None None None None None None None None None)
              no_config) as [Hpath _].
  - intros a b. cbn. destruct a; discriminate.
  - rewrite Hpath. vm_compute. reflexivity.
Defined.

(* ================================================================== *)
(** * Requests and targets *)
(* ================================================================== *)

Section Requests.
Context `{Host}.

Lemma openNewTab_run (hostname : string) (port : Z) (tabUrl : option string) (n : Net) :
  let rq := request_for (newTab_uri hostname port tabUrl) ∅ in
  let x := get rq (world n) in
  openNewTab hostname port tabUrl n =
  (match settle x.1 with
   | Resolved json =>
       match JSON_parse json with
       | Normal target => Resolved (Some target)
       | Throw _ => Resolved None
       end
   | Rejected _ => Resolved None
   | Pending => Pending
   end,
   mkNet x.2 (sent n ++ [rq])).
Proof.
  intros rq x. unfold openNewTab, mbind, IO_bind, mret, IO_ret.
  rewrite fetchUri_run. fold rq x.
  destruct (settle x.1) as [json|e|]; cbn; [|reflexivity..].
  by destruct (JSON_parse json).
Qed.

(** X15.  [openNewTab] issues one request, for the uri
    [http://hostname:port/json/new?tabUrl] and without options of its own,
    and never rejects: it resolves with the parsed value, and with
    [undefined] when the fetch rejects or the body does not parse; it stays
    pending exactly when the fetch does.  Without a [tabUrl] the query of
    the uri is the text [undefined]. *)
Theorem openNewTab_never_rejects (hostname : string) (port : Z)
    (tabUrl : option string) (n : Net) :
  let rq := request_for (newTab_uri hostname port tabUrl) ∅ in
  let x := get rq (world n) in
  let result := (openNewTab hostname port tabUrl n).1 in
  issued (openNewTab hostname port tabUrl) n = [rq] /\
  (forall e, result <> Rejected e) /\
  (result = Pending <-> settle x.1 = Pending) /\
  ((exists e, settle x.1 = Rejected e) -> result = Resolved None) /\
  (forall json e,
     settle x.1 = Resolved json -> JSON_parse json = Throw e ->
     result = Resolved None) /\
  (forall json parsed,
     settle x.1 = Resolved json -> JSON_parse json = Normal parsed ->
     result = Resolved (Some parsed)) /\
  newTab_uri hostname port None
  = "http://" +:+ hostname +:+ ":" +:+ Number_toString port +:+ "/json/new?undefined".
Proof.
  intros rq x result. pose proof (openNewTab_run hostname port tabUrl n) as Hrun.
  cbv zeta in Hrun. fold rq x in Hrun.
  split; [apply issued_app; by rewrite Hrun|].
  subst result. rewrite Hrun. cbn [fst].
  split; [|split; [|split; [|split; [|split; [|reflexivity]]]]].
  - intros e. destruct (settle x.1) as [json|e'|]; [|discriminate..].
    by destruct (JSON_parse json).
  - destruct (settle x.1) as [json|e'|]; [|split; discriminate|split; reflexivity].
    destruct (JSON_parse json); split; discriminate.
  - intros [e ->]. reflexivity.
  - intros json e -> ->. reflexivity.
  - intros json parsed -> ->. reflexivity.
Qed.

Lemma request_for_headers (uri : string) (options : RequestOptions) (v : OptionValue) :
  options !! "headers" = Some v ->
  Utils.options (request_for uri options) !! "headers" = Some v
  /\ is_Some (Utils.options (request_for uri options) !! "rejectUnauthorized").
Proof.
  intros Hv. unfold request_for. cbn [Utils.options]. split.
  - by apply lookup_union_Some_l, lookup_union_Some_l.
  - apply lookup_union_is_Some. right. rewrite lookup_singleton_eq. eauto.
Qed.

(** X16.  Every request that [getListOfTargets] issues carries the header
    [Host: localhost], whatever [url.parse] makes of the uri: the options of
    the caller come last in the spread.  Every request also has a value for
    [rejectUnauthorized]. *)
Theorem getListOfTargets_host_header (hostname : string) (port : Z)
    (useHttps : bool) (n : Net) (rq : Request) :
  rq ∈ issued (getListOfTargets hostname port useHttps) n ->
  Utils.options rq !! "headers" = Some (VHeaders {[ "Host" := "localhost" ]})
  /\ is_Some (Utils.options rq !! "rejectUnauthorized").
Proof.
  pose proof (getListOfTargets_issued hostname port useHttps n) as Hreq.
  cbv zeta in Hreq.
  set (rq1 := discovery_request hostname port useHttps "/json/list") in *.
  set (rq2 := discovery_request hostname port useHttps "/json") in *.
  rewrite Hreq. intros Hin.
  assert (Hone : rq = rq1 \/ rq = rq2).
  { destruct (settle (get rq1 (world n)).1) as [[|c body]|e|];
      repeat (apply elem_of_cons in Hin as [->|Hin]; [by auto|]);
      by apply elem_of_nil in Hin. }
  destruct Hone as [->| ->]; by apply request_for_headers.
Qed.

End Requests.

(** An instance of X16: the first request to a server that answers
    [/json/list]. *)
Lemma getListOfTargets_host_header_witness :
  Utils.options
    (discovery_request (H := Examples.scripted Examples.failing_list)
       "localhost" 9222 false "/json/list") !! "headers"
  = Some (VHeaders {[ "Host" := "localhost" ]}).
Proof.
  apply (getListOfTargets_host_header (H := Examples.scripted Examples.failing_list)
           "localhost" 9222 false (Examples.start _)).
  vm_compute. left.
Defined.

Section WebSocketAddress.
Implicit Types (σ : Store) (target : ref).

#[local] Arguments String.append !s1 s2 : simpl nomatch.

Lemma exec_char (c : ascii) (r : Regex) (start : bool) (s : string)
    (caps : list string) :
  exec false (NAtom (AChar c) :: r) start s = Some caps ->
  exists s', s = String c s' /\ exec false r false s' = Some caps.
Proof.
  destruct s as [|d s']; cbn [exec atom_matches]; [discriminate|].
  destruct (Ascii.eqb_spec c d) as [->|]; [eauto|discriminate].
Qed.

(** The regular expression matches only where the text [ws://] starts. *)
Lemma exec_addressRegex_prefix (start : bool) (s : string) (caps : list string) :
  exec false addressRegex start s = Some caps ->
  exists rest, strip_prefix "ws://" s = Some rest.
Proof.
  unfold addressRegex. intros Hexec.
  do 5 (apply exec_char in Hexec as (? & -> & Hexec)).
  eexists. reflexivity.
Qed.

Lemma search_addressRegex_none (start : bool) (s : string) :
  find_first "ws://" s = None -> search false addressRegex start s = None.
Proof.
  revert start. induction s as [|c s IH]; intros start Hfind.
  - reflexivity.
  - cbn [find_first] in Hfind. cbn [search].
    destruct (exec false addressRegex start (String c s)) as [caps|] eqn:Hexec.
    + apply exec_addressRegex_prefix in Hexec as [rest Hrest].
      by rewrite Hrest in Hfind.
    + destruct (strip_prefix "ws://" (String c s)); [discriminate|].
      apply IH. by destruct (find_first "ws://" s) as [[before after]|].
Qed.

(** X17.  A url in which the text [ws://] does not occur, such as a url of
    the scheme [wss], is left as it is: the store does not change. *)
Theorem fixRemoteWebSocket_other_scheme (remoteAddress : string) (remotePort : Z)
    target σ (url : string) :
  get_field σ target "webSocketDebuggerUrl" = Some url ->
  find_first "ws://" url = None ->
  fixRemoteWebSocket remoteAddress remotePort target σ = (target, σ).
Proof.
  intros Hurl Hfind. unfold fixRemoteWebSocket. rewrite Hurl.
  destruct (truthy url); [|reflexivity].
  unfold String_match. by rewrite search_addressRegex_none.
Qed.

(** The first occurrence of a host is the host itself when its first
    character is none of the characters of [ws://]. *)
Lemma find_first_host (c : ascii) (host rest : string) :
  existsb (Ascii.eqb c) ["w"; "s"; ":"; "/"]%char = false ->
  find_first (String c host) ("ws://" +:+ String c host +:+ rest)
  = Some ("ws://", rest).
Proof.
  intros Hc. cbn [existsb] in Hc.
  repeat (apply orb_false_elim in Hc as [? Hc]).
  change ("ws://" +:+ String c host +:+ rest)
    with (String "w" (String "s" (String ":" (String "/" (String "/"
            (String c host +:+ rest)))))).
  cbn [find_first strip_prefix].
  repeat match goal with
         | Hne : Ascii.eqb c ?d = false |- context [Ascii.eqb c ?d] => rewrite Hne
         end.
  destruct (String c host +:+ rest) as [|d s] eqn:Happ; [discriminate|].
  cbn [find_first]. rewrite <- Happ, strip_prefix_app. reflexivity.
Qed.

(** X18.  Where [fixRemoteWebSocket] does what its comment says.  The url is
    [ws://], a host and a path; the host has no slash and does not start
    with one of the letters of the scheme or a colon, which holds of every
    numeric address and of [localhost]; the address to put in has no dollar
    sign.  Then the host, with its port, is replaced by the address and the
    port used to attach, and the path is kept. *)
Theorem fixRemoteWebSocket_rewrites_host (remoteAddress : string) (remotePort : Z)
    target σ (c : ascii) (host rest : string) :
  get_field σ target "webSocketDebuggerUrl"
  = Some ("ws://" +:+ String c host +:+ rest) ->
  existsb (Ascii.eqb c) ["w"; "s"; ":"; "/"]%char = false ->
  countChar "/" host = 0%nat ->
  strip_prefix "/" rest <> None \/ rest = EmptyString ->
  countChar "$" (remoteAddress +:+ ":" +:+ Number_toString remotePort) = 0%nat ->
  get_field (fixRemoteWebSocket remoteAddress remotePort target σ).2 target
    "webSocketDebuggerUrl"
  = Some ("ws://" +:+ (remoteAddress +:+ ":" +:+ Number_toString remotePort) +:+ rest).
Proof.
  intros Hurl Hc Hhost Hrest Hdollar.
  apply (fixRemoteWebSocket_replaces_host _ _ _ _ (String c host) rest);
    try done.
  - cbn [countChar]. cbn [existsb] in Hc.
    repeat (apply orb_false_elim in Hc as [? Hc]).
    rewrite Ascii.eqb_sym. by destruct (Ascii.eqb c "/").
  - by apply find_first_host.
Qed.

End WebSocketAddress.

(** An instance of X17: a secure web socket. *)
Lemma fixRemoteWebSocket_other_scheme_witness :
  fixRemoteWebSocket "10.0.0.5" 9230 1%positive
    {[ 1%positive := {[ "webSocketDebuggerUrl" := "wss://127.0.0.1:9222/devtools/page/ABC" ]} ]}
  = (1%positive,
     {[ 1%positive := {[ "webSocketDebuggerUrl" := "wss://127.0.0.1:9222/devtools/page/ABC" ]} ]}).
Proof.
  apply (fixRemoteWebSocket_other_scheme "10.0.0.5" 9230 1%positive
           {[ 1%positive := {[ "webSocketDebuggerUrl" := "wss://127.0.0.1:9222/devtools/page/ABC" ]} ]}
           "wss://127.0.0.1:9222/devtools/page/ABC"); reflexivity.
Defined.

(** An instance of X18: the browser reports its own loopback address. *)
Lemma fixRemoteWebSocket_rewrites_host_witness :
  get_field
    (fixRemoteWebSocket "10.0.0.5" 9230 1%positive
       {[ 1%positive := {[ "webSocketDebuggerUrl" := "ws://localhost:9222/devtools/page/ABC" ]} ]}).2
    1%positive "webSocketDebuggerUrl"
  = Some ("ws://" +:+ ("10.0.0.5" +:+ ":" +:+ Number_toString 9230) +:+ "/devtools/page/ABC").
Proof.
  apply (fixRemoteWebSocket_rewrites_host "10.0.0.5" 9230 1%positive
           {[ 1%positive := {[ "webSocketDebuggerUrl" := "ws://localhost:9222/devtools/page/ABC" ]} ]}
           "l" "ocalhost:9222" "/devtools/page/ABC").
  - reflexivity.
  - reflexivity.
  - reflexivity.
  - left. discriminate.
  - vm_compute. reflexivity.
Defined.

(* ================================================================== *)
(** * More on the screencast panel *)
(* ================================================================== *)

Section PanelEvents.
Import ScreencastPanel PanelClaims.

Lemma no_live_instances (st : State) :
  (forall r o, heap st !! r = Some o -> live o = false) ->
  live_instances st = [].
Proof.
  intros Hall. apply elem_of_nil_inv. intros r Hin.
  apply live_instances_elem in Hin as (o & Hr & Hlive).
  rewrite (Hall r o Hr) in Hlive. discriminate.
Qed.

(** X19.  [dispose] returns although it is entered again through the
    listener of the panel and through the listener of the panel socket,
    three nested calls being the most; with fuel for less it does not return
    on an object whose panel and panel socket are both still open.  It
    clears the static field whichever object it is called on, leaves the
    object with its panel disposed and its panel socket closed, touches no
    other object, and a second call changes nothing. *)
Theorem dispose_idempotent (fuel : nat) (this : ScreencastPanel.ref) (st : State) :
  (3 <= fuel)%nat ->
  exists st1,
    dispose fuel this st = Some st1 /\
    instance st1 = None /\
    heap st1 !! this = dispose_object <$> heap st !! this /\
    (forall r, r <> this -> heap st1 !! r = heap st !! r) /\
    dispose fuel this st1 = Some st1 /\
    (forall o, heap st !! this = Some o ->
       panel_isDisposed o = false -> live o = true ->
       dispose 2 this st = None).
Proof.
  intros Hfuel. rewrite dispose_spec by done. eexists. split; [reflexivity|].
  unfold after_dispose. cbn [instance heap].
  split; [reflexivity|]. split; [|split; [|split]].
  - by rewrite lookup_alter_eq.
  - intros r Hne. by rewrite lookup_alter_ne.
  - rewrite dispose_spec by done. unfold after_dispose. cbn [heap]. f_equal.
    apply state_eq. intros r. destruct (decide (this = r)) as [<-|Hne].
    + rewrite !lookup_alter_eq. by destruct (heap st !! this).
    + by rewrite !lookup_alter_ne.
  - intros o Ho Hpanel Hlive. rewrite dispose_exact, Ho.
    cbn [nesting]. rewrite Hpanel. unfold live in Hlive.
    by destruct (panelSocket o).
Qed.

(** X20.  When the user closes the panel of the recorded instance, or its
    socket closes, the handlers leave that object disposed with its panel
    socket closed, clear the static field, touch no other object, and no
    panel owns a relay afterwards: the next [createOrShow] starts afresh. *)
Theorem closing_releases_instance (fuel : nat) (events : list Event) (st : State)
    (r : ScreencastPanel.ref) (e : Event) :
  (2 <= fuel)%nat ->
  run fuel events initial = Some st ->
  instance st = Some r ->
  e = PanelClosed r \/ e = SocketClosed r ->
  exists o st',
    heap st !! r = Some o /\
    step fuel e st = Some st' /\
    instance st' = None /\
    heap st' !! r = Some (dispose_object o) /\
    (forall r', r' <> r -> heap st' !! r' = heap st !! r') /\
    live_instances st' = [].
Proof.
  intros Hfuel Hrun Hi He.
  pose proof (run_sound fuel events initial st initial_consistent Hrun)
    as [Hothers Hrecorded].
  destruct (Hrecorded r Hi) as (o & Ho & Hopen & Hlive).
  assert (Hstep : step fuel e st = Some (after_dispose r st)).
  { destruct He as [-> | ->]; cbn [step].
    - unfold panel_dispose. rewrite Ho, Hopen. rewrite dispose_exact.
      unfold update at 1. cbn [heap]. rewrite lookup_alter_eq, Ho.
      cbn [fmap option_fmap option_map nesting mark_panel_disposed
             panel_isDisposed panelSocket].
      assert (Hfits : ((1 + 0 + match panelSocket o with Closed => 0 | _ => 1 end)
                       <=? fuel)%nat = true)
        by (apply Nat.leb_le; destruct (panelSocket o); lia).
      rewrite Hfits. cbn [mbind option_bind]. unfold update.
      rewrite after_dispose_update by done.
      unfold PanelSocket_dispose. apply PanelSocket_close_after_dispose.
    - unfold socket_closed, PanelSocket_close, onSocketClose. rewrite Ho.
      assert (Hgo : forall d : option State,
                match panelSocket o with Closed => Some st | _ => d end = d)
        by (intros d; unfold live in Hlive; by destruct (panelSocket o)).
      rewrite Hgo, dispose_exact. unfold update at 1. cbn [heap].
      rewrite lookup_alter_eq, Ho.
      cbn [fmap option_fmap option_map nesting with_socket
             panel_isDisposed panelSocket].
      rewrite Hopen.
      assert (Hfits : ((1 + 1 + 0) <=? fuel)%nat = true) by (apply Nat.leb_le; lia).
      rewrite Hfits. unfold update. by rewrite after_dispose_update. }
  exists o, (after_dispose r st). split; [exact Ho|]. split; [exact Hstep|].
  unfold after_dispose. cbn [instance heap]. split; [reflexivity|].
  split; [by rewrite lookup_alter_eq, Ho|].
  split; [intros r' Hne; by rewrite lookup_alter_ne|].
  apply no_live_instances. cbn [heap]. intros r' o' Hr'.
  destruct (decide (r' = r)) as [->|Hne].
  - rewrite lookup_alter_eq, Ho in Hr'. by injection Hr' as <-.
  - rewrite lookup_alter_ne in Hr' by done. apply disposed_not_live.
    apply (Hothers r' o' Hr'). congruence.
Qed.

Lemma step_keeps_disposed (fuel : nat) (e : Event) (st st' : State)
    (r : ScreencastPanel.ref) (o : Object) :
  consistent st ->
  heap st !! r = Some o -> disposed o ->
  step fuel e st = Some st' ->
  heap st' !! r = Some o.
Proof.
  intros Hst Ho Hdisposed Hstep.
  assert (Hnot : instance st <> Some r).
  { intros Hi. destruct Hst as [_ Hrecorded].
    destruct (Hrecorded r Hi) as (o' & Ho' & _ & Hlive).
    rewrite Ho in Ho'. injection Ho' as <-.
    by rewrite (disposed_not_live o Hdisposed) in Hlive. }
  destruct Hdisposed as [Hpanel Hsocket].
  assert (Hafter : forall this, this <> r -> heap (after_dispose this st) !! r = Some o)
    by (intros this Hne; unfold after_dispose; cbn [heap];
        by rewrite lookup_alter_ne).
  apply step_result in Hstep.
  destruct e as [url|this|this|this].
  - destruct Hstep as (mid & _ & Hsome & Hnone & ->). cbn [heap].
    assert (Hmid : heap mid !! r = Some o).
    { destruct (instance st) as [old|] eqn:Hi.
      - rewrite (Hsome old eq_refl). apply Hafter. congruence.
      - by rewrite (Hnone eq_refl). }
    rewrite lookup_insert_ne; [done|].
    intros Heq. apply (is_fresh (dom (heap mid))). rewrite Heq.
    apply elem_of_dom. eauto.
  - destruct (heap st !! this) as [o'|] eqn:Hthis; [|by subst].
    destruct (panel_isDisposed o') eqn:Hd; subst st'; [done|].
    apply Hafter. intros ->. congruence.
  - subst st'. unfold update. cbn [heap].
    destruct (decide (this = r)) as [->|Hne]; [|by rewrite lookup_alter_ne].
    rewrite lookup_alter_eq, Ho. cbn. f_equal.
    destruct o as [url disposed socket]. cbn in *. by subst.
  - destruct (heap st !! this) as [o'|] eqn:Hthis; [|by subst].
    destruct (panelSocket o') eqn:Hs; subst st'; try done;
      apply Hafter; intros ->; congruence.
Qed.

(** X22.  A disposed panel stays as it is: no later event, be it on that
    panel, on its socket or a new [createOrShow], changes the object, so its
    panel socket is never opened again. *)
Theorem disposed_forever (fuel : nat) (before after : list Event) (st st' : State)
    (r : ScreencastPanel.ref) (o : Object) :
  (2 <= fuel)%nat ->
  run fuel before initial = Some st ->
  heap st !! r = Some o -> disposed o ->
  run fuel after st = Some st' ->
  heap st' !! r = Some o.
Proof.
  intros _ Hbefore Ho Hdisposed.
  pose proof (run_sound fuel before initial st initial_consistent Hbefore) as Hst.
  clear Hbefore.
  revert st Ho Hst. induction after as [|e after IH]; intros st Ho Hst.
  - cbn. intros [= <-]. exact Ho.
  - cbn [run]. destruct (step fuel e st) as [st1|] eqn:Hstep; [|discriminate].
    cbn. apply IH.
    + by apply (step_keeps_disposed fuel e st st1).
    + by apply (step_sound fuel e st).
Qed.

End PanelEvents.

(** An instance of X19: disposing the panel that was just created. *)
Lemma dispose_idempotent_witness :
  exists st1,
    ScreencastPanel.dispose 3 1%positive
      (ScreencastPanel.mkState (Some 1%positive)
         {[ 1%positive := ScreencastPanel.mkObject "ws://localhost:9222/devtools/page/A"
                            false ScreencastPanel.Open ]})
    = Some st1 /\
    ScreencastPanel.instance st1 = None /\
    ScreencastPanel.dispose 3 1%positive st1 = Some st1.
Proof.
  destruct (dispose_idempotent 3 1%positive
              (ScreencastPanel.mkState (Some 1%positive)
                 {[ 1%positive := ScreencastPanel.mkObject
                                    "ws://localhost:9222/devtools/page/A"
                                    false ScreencastPanel.Open ]})
              (le_n 3)) as (st1 & Hfirst & Hnone & _ & _ & Hagain & _).
  exists st1. auto.
Defined.

(** An instance of X20: the socket of the panel closes after it opened. *)
Lemma closing_releases_instance_witness :
  exists st st',
    ScreencastPanel.run 2
      [ScreencastPanel.CreateOrShow "ws://localhost:9222/devtools/page/A";
       ScreencastPanel.SocketOpened 1%positive]
      ScreencastPanel.initial = Some st /\
    ScreencastPanel.step 2 (ScreencastPanel.SocketClosed 1%positive) st = Some st' /\
    ScreencastPanel.live_instances st' = [].
Proof.
  assert (Hrun : exists st,
            ScreencastPanel.run 2
              [ScreencastPanel.CreateOrShow "ws://localhost:9222/devtools/page/A";
               ScreencastPanel.SocketOpened 1%positive]
              ScreencastPanel.initial = Some st
            /\ ScreencastPanel.instance st = Some 1%positive)
    by (eexists; split; reflexivity).
  destruct Hrun as (st & Hrun & Hi).
  destruct (closing_releases_instance 2 _ st 1%positive
              (ScreencastPanel.SocketClosed 1%positive) (le_n 2) Hrun Hi
              (or_intror eq_refl))
    as (o & st' & _ & Hstep & _ & _ & _ & Hlive).
  exists st, st'. auto.
Defined.

(** An instance of X22: the first panel, replaced by a second one, is not
    revived by late events of its panel and its socket. *)
Lemma disposed_forever_witness :
  exists st st',
    ScreencastPanel.run 3
      [ScreencastPanel.CreateOrShow "ws://localhost:9222/devtools/page/A";
       ScreencastPanel.CreateOrShow "ws://localhost:9222/devtools/page/B"]
      ScreencastPanel.initial = Some st /\
    ScreencastPanel.run 3
      [ScreencastPanel.SocketOpened 1%positive;
       ScreencastPanel.PanelClosed 1%positive;
       ScreencastPanel.SocketClosed 1%positive;
       ScreencastPanel.CreateOrShow "ws://localhost:9222/devtools/page/C"]
      st = Some st' /\
    ScreencastPanel.heap st' !! 1%positive
    = Some (ScreencastPanel.mkObject "ws://localhost:9222/devtools/page/A" true
              ScreencastPanel.Closed).
Proof.
  destruct (run_consistent 3
              [ScreencastPanel.CreateOrShow "ws://localhost:9222/devtools/page/A";
               ScreencastPanel.CreateOrShow "ws://localhost:9222/devtools/page/B"]
              ScreencastPanel.initial (le_n 3) initial_consistent)
    as (st & Hrun & Hst).
  destruct (run_consistent 3
              [ScreencastPanel.SocketOpened 1%positive;
               ScreencastPanel.PanelClosed 1%positive;
               ScreencastPanel.SocketClosed 1%positive;
               ScreencastPanel.CreateOrShow "ws://localhost:9222/devtools/page/C"]
              st (le_n 3) Hst)
    as (st' & Hrun' & _).
  exists st, st'. split; [exact Hrun|]. split; [exact Hrun'|].
  assert (Ho : ScreencastPanel.heap st !! 1%positive
               = Some (ScreencastPanel.mkObject "ws://localhost:9222/devtools/page/A"
                         true ScreencastPanel.Closed)).
  { pose proof Hrun as Hst0. vm_compute in Hst0. injection Hst0 as <-. reflexivity. }
  exact (disposed_forever 3 _ _ st st' 1%positive _ (le_S _ _ (le_n 2)) Hrun Ho
           (conj eq_refl eq_refl) Hrun').
Defined.
